(** * Server supervision in the Open WebUI desktop shell

    A shallow embedding of the process-lifecycle code of the main process
    ([portInUse], [startServer], [stopAllServers], [terminateProcessTree],
    [terminateWindows], [terminateUnix], [isProcessRunning], [getServerLog])
    and of the two IPC handlers that drive it ([startServerHandler],
    [stopServerHandler]).

    The operating system and the Node runtime are an interface ([OS]): the
    code is a state-passing program over an arbitrary implementation of it,
    and every theorem quantifies over all implementations.  A small concrete
    implementation ([Toy]) is used to run the code on explicit inputs.

    Conventions of the model:
    - pids and ports are integers;
    - a call that can throw returns whether it did, and [try]/[catch] is
      [try_catch];
    - JavaScript runs the listeners of a child process only while the program
      is suspended on a timer, a socket or a file read, so they run inside
      [sleep], [portInUse] and [getConfig], in the order the system hands the
      events over, and nowhere else;
    - the [logLines] array that the listeners of a child and [serverLogs]
      share is kept with the child, and [serverLogs] maps a pid to the handle
      of that child: an array stays alive for its listeners after its entry
      is deleted, and a pid that is used again gets a new array;
    - a socket with a timeout armed emits at least one event;
    - what the program does is recorded in a trace, which the code never
      reads. *)

From stdpp Require Import gmap strings list.
From Stdlib Require Import ZArith DecimalString.
From Equations Require Import Equations.

Local Open Scope string_scope.
Local Open Scope list_scope.
Local Open Scope Z_scope.

(** ** Values that cross the interface *)

Inductive Platform := Win32 | Posix.

(** The signals the code passes to [process.kill]; [SIG0] is the number 0 of
    [isProcessRunning]. *)
Inductive Signal := SIG0 | SIGTERM | SIGKILL.

(** The events a [net.Socket] emits during a connection attempt. *)
Inductive SockEvent :=
| SockConnect
| SockTimeout
| SockError (code : string).

Inductive Stream := Stdout | Stderr.

(** The events a [ChildProcess] (and its two pipes) emits. [None] stands for
    JavaScript's [null] in the arguments of the close event. *)
Inductive ChildEvent :=
| EvData (src : Stream) (data : string)
| EvClose (code : option Z) (signal : option string)
| EvError (message : string).

(** The [port] argument of [startServer]: [CONFIG?.port ?? null] is [null] or a
    number, and an omitted argument is [undefined]. *)
Inductive PortArg := PNull | PUndefined | PNum (n : Z).

#[export] Instance Platform_eq_dec : EqDecision Platform.
Proof. solve_decision. Defined.
#[export] Instance Signal_eq_dec : EqDecision Signal.
Proof. solve_decision. Defined.
#[export] Instance SockEvent_eq_dec : EqDecision SockEvent.
Proof. solve_decision. Defined.
#[export] Instance Stream_eq_dec : EqDecision Stream.
Proof. solve_decision. Defined.
#[export] Instance ChildEvent_eq_dec : EqDecision ChildEvent.
Proof. solve_decision. Defined.

(** What is written to the main log file through [log.info], [log.warn] and
    [log.error]: one constructor per message of the modelled functions. *)
Inductive Level := Info | Warn | Error.

Inductive LogMsg :=
| MsgStoppingAll                         (* "Stopping all servers..." *)
| MsgNoServers                           (* "No servers to stop." *)
| MsgMayStillRun (pid : Z)               (* "Process ${pid} may still be running after termination attempts" *)
| MsgStopped (dead total : Z)            (* "Stopped ${dead}/${total} servers successfully." *)
| MsgTerminated (pid : Z)                (* "Successfully terminated process tree (PID: ${pid})" *)
| MsgAttemptFailed (attempt : Z) (pid : Z) (* "Attempt ${attempt}/3 failed for PID ${pid}:" *)
| MsgGaveUp (pid : Z)                    (* "Failed to terminate process tree (PID: ${pid}) after 3 attempts" *)
| MsgKillFailed (pid : Z)                (* "Failed to terminate process (PID: ${pid}):" *)
| MsgUsingPython                         (* "Using Python at: ..." *)
| MsgCheckingPort (port : Z)             (* "Checking port availability starting from ${port}..." *)
| MsgPortInUse (port : Z)                (* "Port ${port} is in use, trying next port..." *)
| MsgStarting (args : list string)       (* "Starting Open-WebUI server..." *)
| MsgStarted (pid : Z) (url : string)    (* "Server started with PID: ${pid}, URL: ${url}" *)
| MsgStartOk                             (* "Server started successfully:" *)
| MsgStartFailed (err : string)          (* "Failed to start server:" *)
| MsgStopFailed (err : string).          (* "Failed to stop server:" *)

#[export] Instance Level_eq_dec : EqDecision Level.
Proof. solve_decision. Defined.
#[export] Instance LogMsg_eq_dec : EqDecision LogMsg.
Proof. solve_decision. Defined.

(** The history of what the program did to the outside and to its two
    registries, oldest first.  [ok = false] records that the call threw. *)
Inductive Event :=
| TKill (pid : Z) (sig : Signal) (ok : bool)     (* process.kill(pid, sig) *)
| TExec (cmd : string) (ok : bool)               (* execSync(cmd, ...) *)
| TSleep (ms : Z)                                (* await sleep(ms) *)
| TConnect (port : Z) (host : string) (timeout : Z) (evs : list SockEvent)
| TSpawn (args : list string) (pid : option Z)   (* spawn(pythonPath, args, ...) *)
| TChild (h : nat) (pid : Z) (ev : ChildEvent)   (* a listener of child [h], whose pid is [pid], runs *)
| TPidsAdd (pid : Z)                             (* serverPIDs.add(pid) *)
| TPidsDelete (pid : Z)                          (* serverPIDs.delete(pid) *)
| TLogsSet (pid : Z) (h : nat)                   (* serverLogs.set(pid, logLines) *)
| TLogsDelete (pid : Z).                         (* serverLogs.delete(pid) *)

#[export] Instance Event_eq_dec : EqDecision Event.
Proof. solve_decision. Defined.

(** ** The operating system and the Node runtime

    [W] is the state of everything outside the program.  Synchronous calls
    return their outcome and the next state; the two calls the program awaits
    for real ([sleep] and the socket of [portInUse]) also return the child
    events whose listeners ran while the program was suspended, each with the
    handle of the [ChildProcess] object it was emitted on. *)
Record OS (W : Type) := {
  platform : Platform;                                   (* process.platform *)
  kill : Z → Signal → W → bool * W;                      (* false: it threw *)
  execSync : string → W → bool * W;                      (* false: it threw *)
  sleep_wait : Z → W → list (nat * ChildEvent) * W;
  connect : Z → string → Z → W →
            (SockEvent * list SockEvent) * list (nat * ChildEvent) * W;
  pythonInstalled : W → bool;                            (* isPythonInstalled() *)
  packageInstalled : string → W → bool;                  (* isPackageInstalled(name) *)
  launchEnv : W → bool * W;                              (* data dir and secret key; false: fs threw *)
  spawn : list string → W → option Z * W;                (* childProcess.pid *)
  readConfig : W → option (option bool * PortArg) * list (nat * ChildEvent) * W;
                                                         (* await getConfig(); None: it threw *)
}.
Arguments platform {W}. Arguments kill {W}. Arguments execSync {W}.
Arguments sleep_wait {W}. Arguments connect {W}. Arguments pythonInstalled {W}.
Arguments packageInstalled {W}. Arguments launchEnv {W}. Arguments spawn {W}.
Arguments readConfig {W}.

(** ** The module-level registries *)

(** A [ChildProcess] object as far as its listeners are concerned: the pid they
    interpolate and the [logLines] array they push to. *)
Record Child := { child_pid : Z; logLines : list string }.

(** [serverPIDs] is a JavaScript [Set], iterated in insertion order;
    [serverLogs] maps a pid to a [logLines] array, that is, to the handle of the
    child whose listeners share that array. *)
Record Registry := {
  serverPIDs : list Z;
  serverLogs : gmap Z nat;
  children : list Child;
}.

(** The module-level variables of the shell ([index.ts]); [None] is [null]. *)
Record Shell := {
  SERVER_STATUS : option string;
  SERVER_URL : option string;
  SERVER_PID : option Z;
  SERVER_REACHABLE : bool;
}.

Record State (W : Type) := {
  world : W;
  reg : Registry;
  shell : Shell;
  mainLog : list (Level * LogMsg);
  trace : list Event;
}.
Arguments world {W}. Arguments reg {W}. Arguments shell {W}.
Arguments mainLog {W}. Arguments trace {W}.

(** ** Programs: state passing with exceptions *)

Inductive Result (A : Type) :=
| Ok (a : A)
| Throw (message : string).
Arguments Ok {A}. Arguments Throw {A}.

Definition M (W A : Type) : Type := State W → Result A * State W.

Definition ret {W A} (a : A) : M W A := λ st, (Ok a, st).
Definition throw {W A} (message : string) : M W A := λ st, (Throw message, st).
Definition bind {W A B} (m : M W A) (k : A → M W B) : M W B :=
  λ st, match m st with
        | (Ok a, st') => k a st'
        | (Throw e, st') => (Throw e, st')
        end.
Definition try_catch {W A} (m : M W A) (handler : string → M W A) : M W A :=
  λ st, match m st with
        | (Ok a, st') => (Ok a, st')
        | (Throw e, st') => handler e st'
        end.

#[export] Instance M_ret {W} : MRet (M W) := λ A, ret.
#[export] Instance M_bind {W} : MBind (M W) := λ A B k m, bind m k.

(** [for (const x of xs) { await body(x) }] *)
Fixpoint for_each {W A} (xs : list A) (body : A → M W unit) : M W unit :=
  match xs with
  | [] => ret tt
  | x :: xs' => body x;; for_each xs' body
  end.

(** ** Strings *)

(** [n.toString()] and [`${n}`] for an integer. *)
Definition show_Z (n : Z) : string := NilZero.string_of_int (Z.to_int n).

Definition show_null {A} (show : A → string) (v : option A) : string :=
  match v with Some a => show a | None => "null" end.

Definition is_space (c : Ascii.ascii) : bool :=
  let n := Ascii.nat_of_ascii c in
  ((9 <=? n)%nat && (n <=? 13)%nat) || (n =? 32)%nat.

Fixpoint trim_start (s : string) : string :=
  match s with
  | String c s' => if is_space c then trim_start s' else s
  | EmptyString => EmptyString
  end.

Fixpoint trim_end (s : string) : string :=
  match s with
  | String c s' =>
      match trim_end s' with
      | EmptyString => if is_space c then EmptyString else String c EmptyString
      | t => String c t
      end
  | EmptyString => EmptyString
  end.

(** [s.trim()], on the white space of ASCII. *)
Definition trim (s : string) : string := trim_end (trim_start s).

Definition show_stream (src : Stream) : string :=
  match src with Stdout => "stdout" | Stderr => "stderr" end.

(** ** Operations on the two registries *)

(** [set.add(x)]: a member keeps its place, a new element goes last. *)
Definition set_add (x : Z) (s : list Z) : list Z :=
  if decide (x ∈ s) then s else s ++ [x].

(** [set.delete(x)] *)
Definition set_delete (x : Z) (s : list Z) : list Z :=
  filter (λ y, y ≠ x) s.

Definition push_line (line : string) (c : Child) : Child :=
  {| child_pid := child_pid c; logLines := logLines c ++ [line] |}.

Definition with_pids (f : list Z → list Z) (r : Registry) : Registry :=
  {| serverPIDs := f (serverPIDs r); serverLogs := serverLogs r;
     children := children r |}.
Definition with_logs (f : gmap Z nat → gmap Z nat) (r : Registry) : Registry :=
  {| serverPIDs := serverPIDs r; serverLogs := f (serverLogs r);
     children := children r |}.
Definition with_children (f : list Child → list Child) (r : Registry) : Registry :=
  {| serverPIDs := serverPIDs r; serverLogs := serverLogs r;
     children := f (children r) |}.

(** [serverLogs.get(pid) || []]: an array is truthy even when empty, so the
    empty default is taken only for a pid without an entry. *)
Definition getServerLog (pid : Z) (r : Registry) : list string :=
  match serverLogs r !! pid with
  | Some h => match children r !! h with
              | Some c => logLines c
              | None => []
              end
  | None => []
  end.

(** [Array.from(serverPIDs)] *)
Definition getServerPIDs (r : Registry) : list Z := serverPIDs r.

Section Program.
Context {W : Type} (os : OS W).

Definition set_world (w : W) (st : State W) : State W :=
  {| world := w; reg := reg st; shell := shell st;
     mainLog := mainLog st; trace := trace st |}.
Definition set_reg (r : Registry) (st : State W) : State W :=
  {| world := world st; reg := r; shell := shell st;
     mainLog := mainLog st; trace := trace st |}.
Definition set_shell (s : Shell) (st : State W) : State W :=
  {| world := world st; reg := reg st; shell := s;
     mainLog := mainLog st; trace := trace st |}.

(** [log.info], [log.warn], [log.error] *)
Definition log (lvl : Level) (msg : LogMsg) : M W unit :=
  λ st, (Ok tt, {| world := world st; reg := reg st; shell := shell st;
                   mainLog := mainLog st ++ [(lvl, msg)]; trace := trace st |}).

Definition emit (e : Event) : M W unit :=
  λ st, (Ok tt, {| world := world st; reg := reg st; shell := shell st;
                   mainLog := mainLog st; trace := trace st ++ [e] |}).

Definition modify_reg (f : Registry → Registry) : M W unit :=
  λ st, (Ok tt, set_reg (f (reg st)) st).

Definition pids_add (pid : Z) : M W unit :=
  emit (TPidsAdd pid);; modify_reg (with_pids (set_add pid)).
Definition pids_delete (pid : Z) : M W unit :=
  emit (TPidsDelete pid);; modify_reg (with_pids (set_delete pid)).
Definition logs_set (pid : Z) (h : nat) : M W unit :=
  emit (TLogsSet pid h);; modify_reg (with_logs (insert pid h)).
Definition logs_delete (pid : Z) : M W unit :=
  emit (TLogsDelete pid);; modify_reg (with_logs (delete pid)).

(** ** Listeners of a child process ([startServer], lines 775-794) *)

Definition line_data (src : Stream) (pid : Z) (data : string) : string :=
  "[" +:+ show_stream src +:+ "][PID:" +:+ show_Z pid +:+ "]: " +:+ trim data.
Definition line_close (pid : Z) (code : option Z) (signal : option string) : string :=
  "[process][PID:" +:+ show_Z pid +:+ "] Exited with code " +:+ show_null show_Z code
    +:+ " signal " +:+ show_null id signal.
Definition line_error (pid : Z) (message : string) : string :=
  "[process][PID:" +:+ show_Z pid +:+ "] Error: " +:+ message.

(** [logLines.push(line)] in a listener of child [h] *)
Definition logLines_push (h : nat) (line : string) : M W unit :=
  modify_reg (with_children (alter (push_line line) h)).

(** One event of child [h] reaches its listener.  Only a child that
    [startServer] got a pid for has listeners. *)
Definition on_child_event (ev : nat * ChildEvent) : M W unit :=
  λ st, match children (reg st) !! ev.1 with
        | None => (Ok tt, st)
        | Some c =>
            (emit (TChild ev.1 (child_pid c) ev.2);;
             match ev.2 with
             | EvData src data =>
                 logLines_push ev.1 (line_data src (child_pid c) data)
             | EvClose code signal =>
                 logLines_push ev.1 (line_close (child_pid c) code signal);;
                 pids_delete (child_pid c)
                 (* Note: we keep the logs available until manually cleared *)
             | EvError message =>
                 logLines_push ev.1 (line_error (child_pid c) message)
             end) st
        end.

(** The listeners that run while the program is suspended in an [await]. *)
Definition deliver (evs : list (nat * ChildEvent)) : M W unit :=
  for_each evs on_child_event.

(** ** Calls into the system *)

(** [process.kill(pid, sig)] *)
Definition process_kill (pid : Z) (sig : Signal) : M W unit :=
  λ st, let '(ok, w) := kill os pid sig (world st) in
        (emit (TKill pid sig ok);;
         if ok then mret tt else throw "kill failed") (set_world w st).

(** [execSync(cmd, { timeout: 5000, stdio: "ignore" })] *)
Definition exec_sync (cmd : string) : M W unit :=
  λ st, let '(ok, w) := execSync os cmd (world st) in
        (emit (TExec cmd ok);;
         if ok then mret tt else throw "Command failed") (set_world w st).

(** [await sleep(ms)] *)
Definition sleep (ms : Z) : M W unit :=
  λ st, let '(evs, w) := sleep_wait os ms (world st) in
        (emit (TSleep ms);; deliver evs) (set_world w st).

Definition gets {A} (f : State W → A) : M W A := λ st, (Ok (f st), st).

(** ** Port prober ([portInUse], lines 104-135) *)

(** What each listener passes to [resolve]. *)
Definition on_sock_event (ev : SockEvent) : bool :=
  match ev with
  | SockConnect => true
  | SockTimeout => false
  | SockError code =>
      if String.eqb code "ECONNREFUSED" then false else false
  end.

Definition probe_timeout_ms : Z := 1000.

(** The promise keeps the value of the first [resolve]; the listeners of
    the events after the first one call [resolve] without effect. *)
Definition portInUse (port : Z) (host : string) : M W bool :=
  λ st, let '(evs, childEvs, w) :=
          connect os port host probe_timeout_ms (world st) in
        (emit (TConnect port host probe_timeout_ms (evs.1 :: evs.2));;
         deliver childEvs;;
         mret (on_sock_event evs.1)) (set_world w st).

(** ** Termination controller (lines 850-941) *)

Definition isProcessRunning (pid : Z) : M W bool :=
  try_catch (process_kill pid SIG0;; mret true) (λ _, mret false).

Definition taskkill (pid : Z) (force : bool) : string :=
  "taskkill /PID " +:+ show_Z pid +:+ " /T" +:+ (if force then " /F" else "").

Definition terminateWindows (pid : Z) (forceKill : bool) : M W unit :=
  let commands :=
    if forceKill then [taskkill pid true]
    else [taskkill pid false; taskkill pid true] in
  for_each commands (λ cmd,
    try_catch
      (exec_sync cmd;;
       sleep 500)
      (λ _, log Error (MsgKillFailed pid))).

Definition terminateUnix (pid : Z) (forceKill : bool) : M W unit :=
  let signals := if forceKill then [SIGKILL] else [SIGTERM; SIGKILL] in
  for_each signals (λ signal,
    try_catch
      (process_kill (- pid) signal;;
       sleep 500;;
       running ← isProcessRunning pid;
       if running : bool then
         process_kill pid signal;;
         sleep 500
       else mret tt)
      (λ _, log Error (MsgKillFailed pid))).

Definition maxRetries : Z := 3.

(** The body of [for (let attempt = 1; attempt <= maxRetries; attempt++)],
    over the attempts that are left; the [return] inside the loop is the
    [done] branch. *)
Fixpoint retry_loop (pid : Z) (forceKill : bool) (attempts : list Z) : M W unit :=
  match attempts with
  | [] => log Error (MsgGaveUp pid)
  | attempt :: rest =>
      done ← try_catch
               ((if decide (platform os = Win32)
                 then terminateWindows pid forceKill
                 else terminateUnix pid forceKill);;
                running ← isProcessRunning pid;
                if negb (running : bool) then
                  log Info (MsgTerminated pid);;
                  mret true
                else mret false)
               (λ _, log Warn (MsgAttemptFailed attempt pid);;
                     mret false);
      if done : bool then mret tt
      else
        (if attempt <? maxRetries then sleep 1000 else mret tt);;
        retry_loop pid forceKill rest
  end.

Definition terminateProcessTree (pid : Z) (forceKill : bool) : M W unit :=
  retry_loop pid forceKill (seqZ 1 maxRetries).

(** ** [stopAllServers] (lines 808-845) *)

Definition verify_and_cleanup (pid : Z) : M W unit :=
  running ← isProcessRunning pid;
  if negb (running : bool) then
    pids_delete pid;;
    logs_delete pid
  else log Warn (MsgMayStillRun pid).

Definition stopAllServers : M W unit :=
  log Info MsgStoppingAll;;
  pidsToStop ← gets (λ st, getServerPIDs (reg st));
  if decide (length pidsToStop = 0%nat) then
    log Info MsgNoServers
  else
    for_each pidsToStop (λ pid, terminateProcessTree pid false);;
    sleep 2000;;
    for_each pidsToStop (λ pid, terminateProcessTree pid true);;
    for_each pidsToStop verify_and_cleanup;;
    size ← gets (λ st, length (serverPIDs (reg st)));
    log Info (MsgStopped (Z.of_nat (length pidsToStop) - Z.of_nat size)
                         (Z.of_nat (length pidsToStop))).

(** ** [startServer] (lines 712-803) *)

(** [port || 8080], after the default [port = null] of the parameter. *)
Definition desired_port (port : PortArg) : Z :=
  match port with
  | PUndefined | PNull => 8080
  | PNum n => if decide (n = 0) then 8080 else n
  end.

(** The loop of lines 742-749, from the current [availablePort]. *)
Equations? scan_ports (host : string) (desiredPort availablePort : Z)
    (st : State W) : Result Z * State W
    by wf (Z.to_nat (desiredPort + 101 - availablePort)) lt :=
  scan_ports host desiredPort availablePort st
    with portInUse availablePort host st := {
    | (Throw e, st1) => (Throw e, st1)
    | (Ok false, st1) => (Ok availablePort, st1)
    | (Ok true, st1)
        with log Info (MsgPortInUse (availablePort + 1)) st1 := {
        | (_, st2) with decide (availablePort + 1 > desiredPort + 100) := {
            | left _ => (Throw "No available ports found", st2)
            | right _ => scan_ports host desiredPort (availablePort + 1) st2
          }
      }
    }.
Proof. lia. Qed.

(** [spawn(pythonPath, commandArgs, ...)], giving [childProcess.pid]. *)
Definition spawn_child (args : list string) : M W (option Z) :=
  λ st, let '(pid, w) := spawn os args (world st) in
        (emit (TSpawn args pid);; mret pid) (set_world w st).

(** [const logLines = []] and the listeners that close over it and over
    [childProcess]: a new object whose handle is its index. *)
Definition new_child (pid : Z) : M W nat :=
  λ st, (Ok (length (children (reg st))),
         set_reg (with_children
                    (λ cs, cs ++ [{| child_pid := pid; logLines := [] |}])
                    (reg st)) st).

Definition launch_env : M W unit :=
  λ st, let '(ok, w) := launchEnv os (world st) in
        (if ok then mret tt else throw "file system error") (set_world w st).

Definition startServer (expose : bool) (port : PortArg) : M W (string * Z) :=
  stopAllServers;;
  let host := if expose then "0.0.0.0" else "127.0.0.1" in
  python ← gets (λ st, pythonInstalled os (world st));
  if negb (python : bool) then throw "Python is not installed" else
  package ← gets (λ st, packageInstalled os "open-webui" (world st));
  if negb (package : bool) then throw "open-webui package is not installed" else
  log Info MsgUsingPython;;
  let commandArgs := ["-m"; "uv"; "run"; "open-webui"; "serve"; "--host"; host] in
  launch_env;;
  let desiredPort := desired_port port in
  log Info (MsgCheckingPort desiredPort);;
  availablePort ← scan_ports host desiredPort desiredPort;
  let commandArgs := commandArgs ++ ["--port"; show_Z availablePort] in
  log Info (MsgStarting commandArgs);;
  childPid ← spawn_child commandArgs;
  match childPid with
  | None => throw "Failed to start server: No PID available"
  | Some pid =>
      if decide (pid = 0) then throw "Failed to start server: No PID available"
      else
        h ← new_child pid;
        pids_add pid;;
        logs_set pid h;;
        let effectiveHost :=
          if negb expose && String.eqb host "0.0.0.0" then "127.0.0.1" else host in
        let url := "http://" +:+ effectiveHost +:+ ":" +:+ show_Z availablePort in
        log Info (MsgStarted pid url);;
        mret (url, pid)
  end.

(** ** The handlers of the shell ([index.ts], lines 267-362)

    Messages to the window, the tray menu and notifications are not
    modelled; [checkUrlAndOpen] is started without being awaited and
    touches none of the state below before the handler returns. *)

Definition modify_shell (f : Shell → Shell) : M W unit :=
  λ st, (Ok tt, set_shell (f (shell st)) st).

Definition set_status (v : option string) (s : Shell) : Shell :=
  {| SERVER_STATUS := v; SERVER_URL := SERVER_URL s;
     SERVER_PID := SERVER_PID s; SERVER_REACHABLE := SERVER_REACHABLE s |}.
Definition set_url (v : option string) (s : Shell) : Shell :=
  {| SERVER_STATUS := SERVER_STATUS s; SERVER_URL := v;
     SERVER_PID := SERVER_PID s; SERVER_REACHABLE := SERVER_REACHABLE s |}.
Definition set_pid (v : option Z) (s : Shell) : Shell :=
  {| SERVER_STATUS := SERVER_STATUS s; SERVER_URL := SERVER_URL s;
     SERVER_PID := v; SERVER_REACHABLE := SERVER_REACHABLE s |}.
Definition set_reachable (v : bool) (s : Shell) : Shell :=
  {| SERVER_STATUS := SERVER_STATUS s; SERVER_URL := SERVER_URL s;
     SERVER_PID := SERVER_PID s; SERVER_REACHABLE := v |}.

(** [if (SERVER_STATUS)]: [null] and the empty string are falsy. *)
Definition truthy (v : option string) : bool :=
  match v with
  | Some (String _ _) => true
  | _ => false
  end.

Definition stopServerHandler : M W bool :=
  try_catch
    (stopAllServers;;
     modify_shell (λ s, if truthy (SERVER_STATUS s)
                        then set_status (Some "stopped") s else s);;
     modify_shell (set_reachable false);;
     modify_shell (set_url None);;
     mret true)
    (λ e, log Error (MsgStopFailed e);;
          mret false).

(** [await getConfig()] *)
Definition getConfig : M W (option bool * PortArg) :=
  λ st, let '(cfg, childEvs, w) := readConfig os (world st) in
        (deliver childEvs;;
         match cfg with
         | Some c => mret c
         | None => throw "config error"
         end) (set_world w st).

(** [CONFIG?.port ?? null] *)
Definition nullish_port (p : PortArg) : PortArg :=
  match p with PUndefined => PNull | _ => p end.

Definition startServerHandler : M W bool :=
  stopServerHandler;;
  modify_shell (set_status (Some "starting"));;
  try_catch
    (config ← getConfig;
     r ← startServer (default false config.1) (nullish_port config.2);
     modify_shell (set_url (Some r.1));;
     modify_shell (set_pid (Some r.2));;
     log Info MsgStartOk;;
     modify_shell (set_status (Some "started"));;
     mret true)
    (λ e, log Error (MsgStartFailed e);;
          modify_shell (set_status (Some "failed"));;
          mret false).
End Program.

Arguments scan_ports {W} os host desiredPort availablePort st.

(** Proofs unfold these by name. *)
Arguments process_kill : simpl never.
Arguments exec_sync : simpl never.
Arguments sleep : simpl never.
Arguments portInUse : simpl never.
Arguments isProcessRunning : simpl never.
Arguments terminateWindows : simpl never.
Arguments terminateUnix : simpl never.
Arguments terminateProcessTree : simpl never.
Arguments verify_and_cleanup : simpl never.
Arguments stopAllServers : simpl never.
Arguments spawn_child : simpl never.
Arguments launch_env : simpl never.
Arguments getConfig : simpl never.
Arguments startServer : simpl never.
Arguments stopServerHandler : simpl never.
Arguments startServerHandler : simpl never.

(** ** A concrete system to run the code on

    Ports in [busy] have a listener.  Every live process is a child the program spawned (or inherited in its
    registry), with the handle of its [ChildProcess] object, and either
    honours or ignores a cooperative and a forced termination request.  A
    process that exits emits its close event, which is delivered at the next
    [await]. *)
Module Toy.
Record Proc := {
  proc_pid : Z;
  proc_handle : nat;
  honours_term : bool;
  honours_kill : bool;
}.

Record World := {
  procs : list Proc;
  pending : list (nat * ChildEvent);
  python : bool;
  package : bool;
  fs_ok : bool;
  next_pid : option Z;
  spawned : nat;
  config : option (option bool * PortArg);
}.

Definition with_procs (ps : list Proc) (evs : list (nat * ChildEvent))
    (w : World) : World :=
  {| procs := ps; pending := evs; python := python w;
     package := package w; fs_ok := fs_ok w; next_pid := next_pid w;
     spawned := spawned w; config := config w |}.

Definition find_proc (pid : Z) (w : World) : option Proc :=
  List.find (λ p, bool_decide (proc_pid p = pid)) (procs w).

(** The process [p] exits on signal [name]. *)
Definition exits (p : Proc) (name : string) (w : World) : World :=
  with_procs (filter (λ q, proc_pid q ≠ proc_pid p) (procs w))
             (pending w ++ [(proc_handle p, EvClose None (Some name))]) w.

Definition do_kill (pid : Z) (sig : Signal) (w : World) : bool * World :=
  match find_proc (Z.abs pid) w with
  | None => (false, w)
  | Some p =>
      match sig with
      | SIG0 => (true, w)
      | SIGTERM => (true, if honours_term p then exits p "SIGTERM" w else w)
      | SIGKILL => (true, if honours_kill p then exits p "SIGKILL" w else w)
      end
  end.

Definition do_execSync (cmd : string) (w : World) : bool * World :=
  match List.find (λ p, String.eqb cmd (taskkill (proc_pid p) false)) (procs w) with
  | Some p => if honours_term p then (true, exits p "SIGTERM" w) else (false, w)
  | None =>
      match List.find (λ p, String.eqb cmd (taskkill (proc_pid p) true)) (procs w) with
      | Some p => if honours_kill p then (true, exits p "SIGKILL" w) else (false, w)
      | None => (false, w)
      end
  end.

Definition flush (w : World) : list (nat * ChildEvent) * World :=
  (pending w, with_procs (procs w) [] w).

Definition do_connect (busy : list Z) (port : Z) (host : string) (timeout : Z)
    (w : World) : (SockEvent * list SockEvent) * list (nat * ChildEvent) * World :=
  let '(evs, w') := flush w in
  ((if bool_decide (port ∈ busy)
    then SockConnect else SockError "ECONNREFUSED", []), evs, w').

Definition do_spawn (args : list string) (w : World) : option Z * World :=
  match next_pid w with
  | None => (None, w)
  | Some pid =>
      (Some pid,
       {| procs := procs w ++ [{| proc_pid := pid; proc_handle := spawned w;
                                  honours_term := true; honours_kill := true |}];
          pending := pending w; python := python w;
          package := package w; fs_ok := fs_ok w;
          next_pid := Some (pid + 1); spawned := S (spawned w);
          config := config w |})
  end.

Definition os (p : Platform) (busy : list Z) : OS World := {|
  platform := p;
  kill := do_kill;
  execSync := do_execSync;
  sleep_wait := λ _, flush;
  connect := do_connect busy;
  pythonInstalled := python;
  packageInstalled := λ _, package;
  launchEnv := λ w, (fs_ok w, w);
  spawn := do_spawn;
  readConfig := λ w, let '(evs, w') := flush w in (config w, evs, w');
|}.

Definition empty_registry : Registry :=
  {| serverPIDs := []; serverLogs := ∅; children := [] |}.

Definition idle_shell : Shell :=
  {| SERVER_STATUS := None; SERVER_URL := None; SERVER_PID := None;
     SERVER_REACHABLE := false |}.

Definition init (w : World) (r : Registry) : State World :=
  {| world := w; reg := r; shell := idle_shell; mainLog := []; trace := [] |}.

(** A machine that runs one server, pid 4242, spawned by the program as its
    first child, and the registry that tracks it with one line of output. *)
Definition one_server (honours_term honours_kill : bool) : World :=
  {| procs := [{| proc_pid := 4242; proc_handle := 0;
                  honours_term := honours_term; honours_kill := honours_kill |}];
     pending := []; python := true; package := true; fs_ok := true;
     next_pid := Some 4243; spawned := 1;
     config := Some (None, PUndefined) |}.

(** A machine without the runtime. *)
Definition bare : World :=
  {| procs := []; pending := []; python := false; package := false;
     fs_ok := true; next_pid := Some 4242; spawned := 0;
     config := Some (None, PUndefined) |}.

Definition tracking : Registry :=
  {| serverPIDs := [4242]; serverLogs := {[4242 := 0%nat]};
     children := [{| child_pid := 4242;
                     logLines := ["[stdout][PID:4242]: ready"] |}] |}.

(** A machine with the runtime and the package installed and no process of
    ours. *)
Definition fresh : World :=
  {| procs := []; pending := []; python := true;
     package := true; fs_ok := true; next_pid := Some 4242; spawned := 0;
     config := Some (None, PUndefined) |}.
End Toy.

(** ** Reading a run

    What a run did is the segment it appended to the trace.  The predicates
    below describe segments and relate the state before a run to the state
    after it. *)

(** [serverPIDs] and [serverLogs] as the events of a segment change them. *)
Definition replay_pids (t : list Event) (s : list Z) : list Z :=
  foldl (λ s e, match e with
                | TPidsAdd pid => set_add pid s
                | TPidsDelete pid => set_delete pid s
                | _ => s
                end) s t.

Definition replay_logs (t : list Event) (m : gmap Z nat) : gmap Z nat :=
  foldl (λ m e, match e with
                | TLogsSet pid h => <[pid:=h]> m
                | TLogsDelete pid => delete pid m
                | _ => m
                end) m t.

(** A property of segments that the empty segment has and that survives
    concatenation. *)
Class Closed (Φ : list Event → Prop) : Prop := {
  closed_nil : Φ [];
  closed_app : ∀ t1 t2, Φ t1 → Φ t2 → Φ (t1 ++ t2);
}.

Section Runs.
Context {W : Type}.

(** The run from [st] to [st'] appended a segment with [Φ], and both
    registries changed exactly as the segment says. *)
Definition traced (Φ : list Event → Prop) (st st' : State W) : Prop :=
  ∃ t, trace st' = trace st ++ t ∧ Φ t ∧
       serverPIDs (reg st') = replay_pids t (serverPIDs (reg st)) ∧
       serverLogs (reg st') = replay_logs t (serverLogs (reg st)).

(** Nothing but the registries and the trace changed. *)
Definition inside (st st' : State W) : Prop :=
  world st' = world st ∧ mainLog st' = mainLog st ∧ shell st' = shell st.

Definition respects {A} (R : relation (State W)) (m : M W A) : Prop :=
  ∀ st, R st (m st).2.

Definition never_throws {A} (m : M W A) : Prop :=
  ∀ st, ∃ a, (m st).1 = Ok a.
End Runs.

(** The pieces a segment is made of.  A listener emits its event, and the
    close listener deletes the pid right after it. *)
Inductive listener_chunk : list Event → Prop :=
| lc_data h pid src data : listener_chunk [TChild h pid (EvData src data)]
| lc_error h pid message : listener_chunk [TChild h pid (EvError message)]
| lc_close h pid code signal :
    listener_chunk [TChild h pid (EvClose code signal); TPidsDelete pid].

(** One attempt of the termination controller signals, runs commands and
    pauses for 500 ms. *)
Inductive attempt_chunk : list Event → Prop :=
| ac_listener c : listener_chunk c → attempt_chunk c
| ac_kill pid sig ok : attempt_chunk [TKill pid sig ok]
| ac_exec cmd ok : attempt_chunk [TExec cmd ok]
| ac_pause : attempt_chunk [TSleep 500].

(** Between two attempts it waits for 1000 ms. *)
Inductive term_chunk : list Event → Prop :=
| tc_attempt c : attempt_chunk c → term_chunk c
| tc_wait : term_chunk [TSleep 1000].

(** [stopAllServers] also waits for 2000 ms, and deletes a pid and its log
    right after a liveness check that threw. *)
Inductive stop_chunk : list Event → Prop :=
| sc_term c : term_chunk c → stop_chunk c
| sc_grace : stop_chunk [TSleep 2000]
| sc_dead pid : stop_chunk [TKill pid SIG0 false; TPidsDelete pid; TLogsDelete pid].

(** The port scan connects. *)
Inductive probe_chunk : list Event → Prop :=
| pc_listener c : listener_chunk c → probe_chunk c
| pc_connect port host timeout evs : probe_chunk [TConnect port host timeout evs].

(** [startServer] stops, scans, spawns, and registers the new pid. *)
Inductive start_chunk : list Event → Prop :=
| st_stop c : stop_chunk c → start_chunk c
| st_probe c : probe_chunk c → start_chunk c
| st_spawn args pid : start_chunk [TSpawn args pid]
| st_register pid h : start_chunk [TPidsAdd pid; TLogsSet pid h].

(** The close event of a child with this pid. *)
Definition close_of (pid : Z) (e : Event) : Prop :=
  ∃ h code signal, e = TChild h pid (EvClose code signal).

(** A liveness check of this pid that found it dead. *)
Definition dead_probe (pid : Z) (e : Event) : Prop :=
  e = TKill pid SIG0 false.

(** Every deletion from [serverPIDs] in the segment directly follows an event
    that [J] accepts for the deleted pid. *)
Definition justified (J : Z → Event → Prop) (t : list Event) : Prop :=
  ∀ i pid, t !! i = Some (TPidsDelete pid) →
           ∃ j e, i = S j ∧ t !! j = Some e ∧ J pid e.

(** The ports of the connection attempts of a segment, in order. *)
Definition probed_ports (t : list Event) : list Z :=
  omap (λ e, match e with TConnect port _ _ _ => Some port | _ => None end) t.

(** Any segment at all. *)
Definition anything (t : list Event) : Prop := True.

(** No connection attempt in the segment. *)
Definition quiet (t : list Event) : Prop := probed_ports t = [].

(** The connection attempts of the segment go to consecutive ports from
    [port] on. *)
Definition probes_from (port : Z) (t : list Event) : Prop :=
  ∃ n : nat, probed_ports t = seqZ port (Z.of_nat n).

(** The calls into the system of a segment: what an observer of the process
    sees it do, without the listeners and the registries. *)
Definition is_call (e : Event) : bool :=
  match e with
  | TKill _ _ _ | TExec _ _ | TSleep _ | TConnect _ _ _ _ | TSpawn _ _ => true
  | _ => false
  end.
Definition calls (t : list Event) : list Event := filter (λ e, is_call e = true) t.

(** No call into the system in the segment. *)
Definition silent (t : list Event) : Prop := calls t = [].

(** The run kept a property of the world. *)
Definition keeps {W} (P : W → Prop) (st st' : State W) : Prop :=
  P (world st) → P (world st').

(** The run appended entries with [P] to the main log. *)
Definition logged {W} (P : Level * LogMsg → Prop) (st st' : State W) : Prop :=
  ∃ l, mainLog st' = mainLog st ++ l ∧ Forall P l.

(** The operations of the system on its registries. *)
Inductive Operation :=
| OpStartServer (expose : bool) (port : PortArg)
| OpStopAllServers
| OpTerminateProcessTree (pid : Z) (forceKill : bool)
| OpListeners (evs : list (nat * ChildEvent))
| OpStartServerHandler
| OpStopServerHandler.

Definition perform {W} (os : OS W) (op : Operation) : M W unit :=
  match op with
  | OpStartServer expose port => startServer os expose port;; mret tt
  | OpStopAllServers => stopAllServers os
  | OpTerminateProcessTree pid forceKill => terminateProcessTree os pid forceKill
  | OpListeners evs => deliver evs
  | OpStartServerHandler => startServerHandler os;; mret tt
  | OpStopServerHandler => stopServerHandler os;; mret tt
  end.

(** The events of a listener. *)
Definition listener_only (e : Event) : Prop :=
  match e with
  | TChild _ _ _ | TPidsDelete _ => True
  | _ => False
  end.

(** The run removed pids from [serverPIDs] at most. *)
Definition shrinks {W} (st st' : State W) : Prop :=
  serverPIDs (reg st') ⊆ serverPIDs (reg st).

(** The one entry an attempt of the termination controller writes to the main
    log. *)
Definition kill_failed (pid : Z) (entry : Level * LogMsg) : Prop :=
  entry = (Error, MsgKillFailed pid).

(** The spec's names for the errors of [startServer]. *)
Definition PortExhausted : string := "No available ports found".
Definition PreconditionError (message : string) : Prop :=
  message = "Python is not installed" ∨
  message = "open-webui package is not installed".

(** ** Reading the registries and the shell across a run *)

(** The run left the variables of the shell alone. *)
Definition same_shell {W} (st st' : State W) : Prop := shell st' = shell st.

(** The run kept every [ChildProcess] object, with its pid, and only appended
    to its [logLines]. *)
Definition grows {W} (st st' : State W) : Prop :=
  ∀ h c, children (reg st) !! h = Some c →
         ∃ c', children (reg st') !! h = Some c' ∧
               child_pid c' = child_pid c ∧
               logLines c `prefix_of` logLines c'.

(** The run kept a property of the registries. *)
Definition preserves {W} (I : Registry → Prop) (st st' : State W) : Prop :=
  I (reg st) → I (reg st').

(** The events that add to the registries, and the spawn of a process. *)
Definition registers (e : Event) : Prop :=
  match e with
  | TPidsAdd _ | TLogsSet _ _ => True
  | _ => False
  end.

Definition spawns (e : Event) : Prop :=
  match e with
  | TSpawn _ _ => True
  | _ => False
  end.

#[export] Instance registers_dec (e : Event) : Decision (registers e).
Proof. destruct e; simpl; apply _. Defined.
#[export] Instance spawns_dec (e : Event) : Decision (spawns e).
Proof. destruct e; simpl; apply _. Defined.

(** The command line of the server, after the path of the interpreter. *)
Definition server_args (host : string) (port : Z) : list string :=
  ["-m"; "uv"; "run"; "open-webui"; "serve"; "--host"; host;
   "--port"; show_Z port].

(** The registries after [serverPIDs.add(pid)] and
    [serverLogs.set(pid, logLines)] for a new child with an empty
    [logLines]. *)
Definition registered (pid : Z) (r : Registry) : Registry :=
  {| serverPIDs := set_add pid (serverPIDs r);
     serverLogs := <[pid := length (children r)]> (serverLogs r);
     children := children r ++ [{| child_pid := pid; logLines := [] |}] |}.

(** A line as the listeners of a process with this pid write it: it opens
    with the source and the pid. *)
Definition tagged (pid : Z) (line : string) : Prop :=
  ∃ source rest,
    source ∈ ["stdout"; "stderr"; "process"] ∧
    line = "[" +:+ source +:+ "][PID:" +:+ show_Z pid +:+ "]" +:+ rest.

(** The two registries and the [logLines] arrays fit together: a tracked pid
    has an entry in [serverLogs], the array of an entry belongs to a child
    with the pid of the entry, and every line of an array carries the pid of
    its child. *)
Record well_formed (r : Registry) : Prop := {
  wf_logged : ∀ pid, pid ∈ serverPIDs r → is_Some (serverLogs r !! pid);
  wf_handle : ∀ pid h, serverLogs r !! pid = Some h →
                       ∃ c, children r !! h = Some c ∧ child_pid c = pid;
  wf_tagged : ∀ h c, children r !! h = Some c →
                     Forall (tagged (child_pid c)) (logLines c);
}.

(** The line that the listener of an event appends, for a child with this
    pid. *)
Definition render (pid : Z) (ev : ChildEvent) : string :=
  match ev with
  | EvData src data => line_data src pid data
  | EvClose code signal => line_close pid code signal
  | EvError message => line_error pid message
  end.

(** The events of the child with handle [h] among the events delivered. *)
Definition events_of (h : nat) (evs : list (nat * ChildEvent)) : list ChildEvent :=
  omap (λ ev, if decide (ev.1 = h) then Some ev.2 else None) evs.

(** The run only appended to the main log and to the trace. *)
Definition appends {W} (st st' : State W) : Prop :=
  (∃ l, mainLog st' = mainLog st ++ l) ∧ (∃ t, trace st' = trace st ++ t).

(** The pauses of 1000 ms in a segment: the waits before a retry. *)
Definition waits (t : list Event) : nat :=
  length (filter (λ e, e = TSleep 1000) t).

(** What [terminateUnix] does for one signal, as a segment of the trace. *)
Inductive unix_signal_run (pid : Z) (sig : Signal) : list Event → Prop :=
| usr_group_failed :
    (* the signal to the process group threw *)
    unix_signal_run pid sig [TKill (- pid) sig false]
| usr_gone ls :
    (* the group was signalled, and the process was gone after the pause *)
    Forall listener_only ls →
    unix_signal_run pid sig
      (TKill (- pid) sig true :: TSleep 500 :: ls ++ [TKill pid SIG0 false])
| usr_direct_failed ls :
    (* the process was still there, and the signal to it threw *)
    Forall listener_only ls →
    unix_signal_run pid sig
      (TKill (- pid) sig true :: TSleep 500 :: ls
       ++ [TKill pid SIG0 true; TKill pid sig false])
| usr_direct ls ls' :
    (* the process was still there and was signalled too *)
    Forall listener_only ls → Forall listener_only ls' →
    unix_signal_run pid sig
      (TKill (- pid) sig true :: TSleep 500 :: ls
       ++ [TKill pid SIG0 true; TKill pid sig true; TSleep 500] ++ ls').

(** * Around the supervision code

    The helpers of the main process that open the browser and keep the
    secret key, the Python console and its component in the renderer, and the
    bridge of the preload script.  None of them reads or writes [serverPIDs]
    and [serverLogs]; each is embedded over a state of its own. *)

(** ** JavaScript string methods, on ASCII text *)
Module Text.
Fixpoint skip (n : nat) (s : string) : string :=
  match n, s with
  | S n', String _ s' => skip n' s'
  | _, _ => s
  end.

(** [s.startsWith(p)] *)
Definition startsWith (s p : string) : bool := String.prefix p s.

(** [s.includes(p)] *)
Fixpoint includes (s p : string) : bool :=
  String.prefix p s ||
  match s with
  | String _ s' => includes s' p
  | EmptyString => false
  end.

(** [s.replace(p, r)] for a string pattern [p] and a replacement [r]
    without [$]: the first occurrence of [p] gives way to [r]. *)
Fixpoint replace (s p r : string) : string :=
  if String.prefix p s then r +:+ skip (String.length p) s
  else match s with
       | String c s' => String c (replace s' p r)
       | EmptyString => EmptyString
       end.

(** [!s] for a value that is a string, [null] or [undefined]. *)
Definition falsy (s : option string) : bool :=
  match s with
  | Some (String _ _) => false
  | _ => true
  end.
End Text.

(** ** Programs over a state [S]: state passing with exceptions *)

Definition Prog (S A : Type) : Type := S → Result A * S.

Definition prog_ret {S A} (a : A) : Prog S A := λ s, (Ok a, s).
Definition prog_throw {S A} (message : string) : Prog S A :=
  λ s, (Throw message, s).
Definition prog_bind {S A B} (m : Prog S A) (k : A → Prog S B) : Prog S B :=
  λ s, match m s with
       | (Ok a, s') => k a s'
       | (Throw e, s') => (Throw e, s')
       end.
Definition prog_try {S A} (m : Prog S A) (handler : string → Prog S A) : Prog S A :=
  λ s, match m s with
       | (Ok a, s') => (Ok a, s')
       | (Throw e, s') => handler e s'
       end.

(** ** Opening the browser and keeping the secret key ([utils], [index.ts]) *)
Module Desktop.

(** Paths under the directory [app.getPath("userData")], built with
    [path.join]; [Given] is a path that a caller passed in. *)
Inductive Path :=
| UserData
| Join (dir : Path) (name : string)
| Given (path : string).

#[export] Instance Path_eq_dec : EqDecision Path.
Proof. solve_decision. Defined.

(** What the program asked of Electron, the network and the file system,
    oldest first. *)
Inductive Call :=
| CFetch (url : string) (ok : option bool)      (* fetch(url, { method: "HEAD" }): response.ok; None: it threw *)
| COpenExternal (url : string)                  (* shell.openExternal(url) *)
| CTimeout (ms : Z)                             (* await new Promise(r => setTimeout(r, ms)) *)
| CCallback (threw : option string)             (* await callback() *)
| CMkdir (p : Path) (threw : option string)     (* fs.mkdirSync(p, { recursive: true }) *)
| CWrite (p : Path) (data : string) (threw : option string)  (* fs.writeFileSync(p, data) *)
| CRandom (bytes : nat) (hex : string).         (* crypto.randomBytes(bytes).toString("hex") *)

#[export] Instance Call_eq_dec : EqDecision Call.
Proof. solve_decision. Defined.

(** Electron, the network and the file system.  A call that can throw
    returns the message of the error, [None] when it returned normally. *)
Record Host (W : Type) := {
  fetchHead : string → W → option bool * W;
  openExternal : string → W → W;
  setTimeout : Z → W → W;
  existsSync : Path → W → bool;
  mkdirSync : Path → W → option string * W;
  readFileSync : Path → W → Result string;
  writeFileSync : Path → string → W → option string * W;
  randomBytes : nat → W → string * W;
}.
Arguments fetchHead {W}. Arguments openExternal {W}. Arguments setTimeout {W}.
Arguments existsSync {W}. Arguments mkdirSync {W}. Arguments readFileSync {W}.
Arguments writeFileSync {W}. Arguments randomBytes {W}.

(** The state: the world, the calls made and the lines written to the main
    log, each with its arguments joined by a space. *)
Record Desk (W : Type) := {
  env : W;
  asked : list Call;
  lines : list (Level * string);
}.
Arguments env {W}. Arguments asked {W}. Arguments lines {W}.

Section Programs.
Context {W : Type} (host : Host W).

#[local] Instance Desk_ret : MRet (Prog (Desk W)) := λ A, prog_ret.
#[local] Instance Desk_bind : MBind (Prog (Desk W)) := λ A B k m, prog_bind m k.

Definition say (lvl : Level) (line : string) : Prog (Desk W) unit :=
  λ s, (Ok tt, {| env := env s; asked := asked s; lines := lines s ++ [(lvl, line)] |}).

(** A call with its outcome: the world moves on and the call is recorded. *)
Definition call {A} (f : W → A * W) (c : A → Call) : Prog (Desk W) A :=
  λ s, let '(a, w) := f (env s) in
       (Ok a, {| env := w; asked := asked s ++ [c a]; lines := lines s |}).

Definition look {A} (f : W → A) : Prog (Desk W) A := λ s, (Ok (f (env s)), s).

(** A call that reads the world and can throw. *)
Definition attempt {A} (f : W → Result A) : Prog (Desk W) A := λ s, (f (env s), s).

(** A call that throws when the outcome is an error message. *)
Definition checked (r : option string) : Prog (Desk W) unit :=
  match r with
  | None => mret tt
  | Some message => prog_throw message
  end.

(** *** [openUrl] (lines 69-80) *)

(** The URL that is handed to the browser for a non-empty [url]. *)
Definition browser_url (url : string) : string :=
  if Text.startsWith url "http://0.0.0.0"
  then Text.replace url "http://0.0.0.0" "http://localhost"
  else url.

Definition openUrl (url : option string) : Prog (Desk W) unit :=
  if Text.falsy url then
    prog_throw "No URL provided to open in browser."
  else
    let url := default "" url in
    say Info ("Opening URL in browser: " +:+ url);;
    call (λ w, (tt, openExternal host (browser_url url) w))
         (λ _, COpenExternal (browser_url url)).

(** The handler of [open:browser] ([index.ts], lines 551-561), which does
    the work of [openUrl] itself before it calls [openUrl]. *)
Definition open_browser_handler (url : option string) : Prog (Desk W) unit :=
  if Text.falsy url then
    prog_throw "No URL provided to open in browser."
  else
    let url := default "" url in
    say Info ("Opening URL in browser: " +:+ url);;
    openUrl (Some (browser_url url)).

(** *** [checkUrlAndOpen] (lines 958-1011) *)

Definition maxAttempts : Z := 1800.
Definition interval : Z := 2000.

Definition checkUrl (url : string) : Prog (Desk W) bool :=
  prog_try
    (response ← call (fetchHead host url) (CFetch url);
     match response with
     | Some ok => mret ok
     | None => prog_throw "fetch failed"
     end)
    (λ _, mret false).

Definition sleep (ms : Z) : Prog (Desk W) unit :=
  call (λ w, (tt, setTimeout host ms w)) (λ _, CTimeout ms).

Definition run_callback (callback : W → option string * W) : Prog (Desk W) unit :=
  threw ← call callback CCallback;
  checked threw.

(** The loop [while (attempts < maxAttempts)] of [pollUrl], over the values
    that [attempts] takes after its increment; the [return] inside the loop is
    the [opened] branch, and the loop is left with
    [attempts >= maxAttempts]. *)
Fixpoint poll_loop (url : string) (callback : W → option string * W)
    (attempts : list Z) : Prog (Desk W) unit :=
  match attempts with
  | [] => say Info "URL check timed out after 5 minutes"
  | attempt :: rest =>
      say Info ("Checking URL availability (attempt " +:+ show_Z attempt +:+ "/"
                +:+ show_Z maxAttempts +:+ "): " +:+ url);;
      opened ← prog_try
                 (isAvailable ← checkUrl url;
                  if isAvailable : bool then
                    say Info "URL is now available, opening browser...";;
                    openUrl (Some url);;
                    run_callback callback;;
                    mret true
                  else mret false)
                 (λ error, say Info ("Error checking URL: Error: " +:+ error);;
                           mret false);
      if opened : bool then mret tt
      else
        sleep interval;;
        poll_loop url callback rest
  end.

Definition pollUrl (url : string) (callback : W → option string * W) :
    Prog (Desk W) unit :=
  poll_loop url callback (seqZ 1 maxAttempts).

(** [checkUrlAndOpen] starts [pollUrl] and returns; this is the task it
    starts, with the [catch] attached to it. *)
Definition checkUrlAndOpen (url : string) (callback : W → option string * W) :
    Prog (Desk W) unit :=
  prog_try (pollUrl url callback)
           (λ error, say Error ("Error in URL polling: Error: " +:+ error)).

(** *** The data directory and the secret key (lines 41-67, 92-102) *)

Definition ensure_dir (dir : Path) : Prog (Desk W) unit :=
  there ← look (existsSync host dir);
  if there : bool then mret tt
  else
    prog_try (threw ← call (mkdirSync host dir) (CMkdir dir); checked threw)
             (λ error, say Error error).

Definition getUserDataPath : Prog (Desk W) Path :=
  ensure_dir UserData;;
  mret UserData.

Definition getOpenWebUIDataPath : Prog (Desk W) Path :=
  userData ← getUserDataPath;
  let openWebUIDataDir := Join userData "data" in
  ensure_dir openWebUIDataDir;;
  mret openWebUIDataDir.

(** The body of [getSecretKey] below its first line. *)
Definition stored_key (keyPath : Path) (key : option string) : Prog (Desk W) string :=
  there ← look (existsSync host keyPath);
  if there : bool then
    attempt (readFileSync host keyPath)
  else
    key ← (if Text.falsy key
           then call (randomBytes host 64) (CRandom 64)
           else mret (default "" key));
    threw ← call (writeFileSync host keyPath key) (CWrite keyPath key);
    checked threw;;
    mret key.

Definition getSecretKey (keyPath key : option string) : Prog (Desk W) string :=
  keyPath ← (if Text.falsy keyPath
             then dir ← getOpenWebUIDataPath; mret (Join dir ".key")
             else mret (Given (default "" keyPath)));
  stored_key keyPath key.
End Programs.

(** The file that [getSecretKey] reads and writes. *)
Definition key_file (keyPath : option string) : Path :=
  if Text.falsy keyPath then Join (Join UserData "data") ".key"
  else Given (default "" keyPath).

(** The worlds that calls of [fs.mkdirSync] lead to. *)
Inductive mkdirs {W} (host : Host W) : W → W → Prop :=
| mkdirs_none w : mkdirs host w w
| mkdirs_step dir w threw w1 w2 :
    mkdirSync host dir w = (threw, w1) → mkdirs host w1 w2 → mkdirs host w w2.

Definition is_mkdir (c : Call) : Prop :=
  match c with
  | CMkdir _ _ => True
  | _ => False
  end.

(** The first line of a turn of the loop of [pollUrl]. *)
Definition attempt_line (url : string) (attempt : Z) : Level * string :=
  (Info, "Checking URL availability (attempt " +:+ show_Z attempt +:+ "/"
         +:+ show_Z maxAttempts +:+ "): " +:+ url).

Definition timed_out : Level * string :=
  (Info, "URL check timed out after 5 minutes").

(** The calls of a segment that open the browser, and those that fetch. *)
Definition opens (t : list Call) : list string :=
  omap (λ c, match c with COpenExternal url => Some url | _ => None end) t.
Definition fetches (t : list Call) : list (option bool) :=
  omap (λ c, match c with CFetch _ ok => Some ok | _ => None end) t.

Definition timers (t : list Call) : list Z :=
  omap (λ c, match c with CTimeout ms => Some ms | _ => None end) t.

(** The rounds of [pollUrl] that end in the wait: the URL did not answer
    with [ok], or it did and the callback threw after the browser was
    opened. *)
Inductive Round :=
| Miss (ok : option bool)
| Spoiled (threw : string).

Definition round_calls (url : string) (r : Round) : list Call :=
  match r with
  | Miss ok => [CFetch url ok; CTimeout interval]
  | Spoiled e => [CFetch url (Some true); COpenExternal (browser_url url);
                  CCallback (Some e); CTimeout interval]
  end.

Definition fetched (r : Round) : option bool :=
  match r with
  | Miss ok => ok
  | Spoiled _ => Some true
  end.

(** The round that ends the polling. *)
Definition final_round (url : string) : list Call :=
  [CFetch url (Some true); COpenExternal (browser_url url); CCallback None].

(** The outcomes in a round are answers of the host and of the callback. *)
Definition answered {W} (host : Host W) (url : string)
    (callback : W → option string * W) (r : Round) : Prop :=
  match r with
  | Miss ok => ∃ w, (fetchHead host url w).1 = ok
  | Spoiled e => ∃ w, (callback w).1 = Some e
  end.

(** A file system for running the code: a file has a content, a directory
    has none. *)
Module ToyFS.
Definition World : Type := list (Path * option string).

Definition find (p : Path) (w : World) : option (option string) :=
  snd <$> List.find (λ e, bool_decide (e.1 = p)) w.

Definition host : Host World := {|
  fetchHead := λ _ w, (Some false, w);
  openExternal := λ _ w, w;
  setTimeout := λ _ w, w;
  existsSync := λ p w, bool_decide (is_Some (find p w));
  mkdirSync := λ p w,
    match find p w with
    | Some _ => (None, w)
    | None => (None, (p, None) :: w)
    end;
  readFileSync := λ p w,
    match find p w with
    | Some (Some data) => Ok data
    | Some None => Throw "EISDIR"
    | None => Throw "ENOENT"
    end;
  writeFileSync := λ p data w,
    match find p w with
    | Some None => (Some "EISDIR", w)
    | _ => (None, (p, Some data) :: w)
    end;
  randomBytes := λ n w, ("5ec2e7", w);
|}.

Definition init (w : World) : Desk World :=
  {| env := w; asked := []; lines := [] |}.
End ToyFS.

(** A network for running the code: the URL answers from the attempt
    [ready] on, and the world counts the fetches. *)
Definition toy_net (ready : nat) : Host nat := {|
  fetchHead := λ _ n, (Some (ready <=? S n)%nat, S n);
  openExternal := λ _ n, n;
  setTimeout := λ _ n, n;
  existsSync := λ _ _, false;
  mkdirSync := λ _ n, (None, n);
  readFileSync := λ _ _, Throw "ENOENT";
  writeFileSync := λ _ _ n, (None, n);
  randomBytes := λ _ n, ("", n);
|}.
End Desktop.

(** ** Running Python code and installing the package ([utils], [index.ts]) *)
Module Python.

(** A promise is pending ([None]) or settled; [resolve] and [reject] settle
    a pending promise and do nothing to a settled one. *)
Definition settle {A} (v : A) (promise : option A) : option A :=
  match promise with
  | None => Some v
  | Some _ => promise
  end.

(** *** [executePythonCode] (lines 441-493) *)

Record ExecResult := { stdout : string; stderr : string; exitCode : Z }.

(** The promise that [executePythonCode] returns, with the variables
    [stdout] and [stderr] of its executor, the lines that the function itself
    writes to the main log (those of [isPythonInstalled] are not kept) and the
    arguments of the process it spawned. *)
Record Running := {
  out : string;
  err : string;
  promise : option (Result ExecResult);
  logged : list (Level * string);
  spawned : option (list string);
}.

Definition rejected (message : string) : Running :=
  {| out := ""; err := ""; promise := Some (Throw message); logged := [];
     spawned := None |}.

(** The listeners on [child.stdout], [child.stderr] and [child]. *)
Definition on_event (ev : ChildEvent) (r : Running) : Running :=
  match ev with
  | EvData Stdout data =>
      {| out := out r +:+ data; err := err r; promise := promise r;
         logged := logged r; spawned := spawned r |}
  | EvData Stderr data =>
      {| out := out r; err := err r +:+ data; promise := promise r;
         logged := logged r; spawned := spawned r |}
  | EvError message =>
      {| out := out r; err := err r;
         promise := settle (Throw message) (promise r);
         logged := logged r ++ [(Error, "Failed to execute Python code " +:+ message)];
         spawned := spawned r |}
  | EvClose code _ =>
      let result := {| stdout := trim_end (out r); stderr := trim_end (err r);
                       exitCode := default 0 code |} in
      {| out := out r; err := err r;
         promise := settle (Ok result) (promise r);
         logged := logged r ++
           [(Info, "Python execution completed with code " +:+ show_null show_Z code)];
         spawned := spawned r |}
  end.

(** [executePythonCode(code)] when [isPythonInstalled()] gives [installed],
    [getPythonPath()] gives [pythonPath] and the child process emits
    [events]. *)
Definition executePythonCode (installed : bool) (pythonPath : string)
    (code : string) (events : list ChildEvent) : Running :=
  if Text.falsy (Some code) then
    rejected "No Python code provided for execution"
  else if negb installed then
    rejected "Python is not installed"
  else
    foldl (λ r ev, on_event ev r)
      {| out := ""; err := ""; promise := None;
         logged := [(Info, "Executing Python code using: " +:+ pythonPath)];
         spawned := Some ["-u"; "-c"; code] |}
      events.

(** The handler of [python:execute] ([index.ts], lines 491-493). *)
Definition python_execute_handler (installed : bool) (pythonPath : string)
    (code : option string) (events : list ChildEvent) : Running :=
  executePythonCode installed pythonPath (default "" code) events.

Definition is_data (ev : ChildEvent) : Prop :=
  match ev with
  | EvData _ _ => True
  | _ => False
  end.

(** What a stream has written in [events]. *)
Fixpoint written (src : Stream) (events : list ChildEvent) : string :=
  match events with
  | [] => ""
  | EvData src' data :: rest =>
      if decide (src' = src) then data +:+ written src rest else written src rest
  | _ :: rest => written src rest
  end.

(** *** [installPackage] (lines 594-663) *)

(** The events of the process that [execFile] starts: output on one of its
    pipes, its exit and an error. *)
Inductive InstallEvent :=
| IData (data : string)
| IExit (code : option Z)
| IError (message : string).

(** [resolve(b)], [reject(false)] ([None]) and [reject(error)].  As for
    [executePythonCode], the record keeps the promise, the lines that
    [installPackage] itself logs and the arguments passed to [execFile]. *)
Inductive Outcome :=
| Resolved (b : bool)
| Rejected (error : option string).

Record Installing := {
  install_promise : option Outcome;
  install_logged : list (Level * string);
  install_spawned : option (list string);
}.

Definition install_args (packageName : string) (version : option string) : list string :=
  ["-m"; "uv"; "pip"; "install"] ++
  (if Text.falsy version then [packageName; "-U"]
   else [packageName +:+ "==" +:+ default "" version]).

Definition on_install_event (ev : InstallEvent) (r : Installing) : Installing :=
  match ev with
  | IData data =>
      {| install_promise := install_promise r;
         install_logged := install_logged r ++ [(Info, data)];
         install_spawned := install_spawned r |}
  | IExit code =>
      let line := (Info, "Child exited with code " +:+ show_null show_Z code) in
      if bool_decide (code ≠ Some 0) then
        {| install_promise := settle (Resolved false) (install_promise r);
           install_logged := install_logged r ++
             [line; (Error, "Failed to install open-webui: " +:+ show_null show_Z code)];
           install_spawned := install_spawned r |}
      else
        {| install_promise := settle (Resolved true) (install_promise r);
           install_logged := install_logged r ++ [line];
           install_spawned := install_spawned r |}
  | IError message =>
      {| install_promise := settle (Rejected (Some message)) (install_promise r);
         install_logged := install_logged r ++
           [(Error, "Error occurred while installing open-webui: " +:+ message)];
         install_spawned := install_spawned r |}
  end.

Definition installPackage (installed : bool) (packageName : string)
    (version : option string) (events : list InstallEvent) : Installing :=
  if negb installed then
    {| install_promise := Some (Rejected None);
       install_logged :=
         [(Error, "Python is not installed or not found in the specified path")];
       install_spawned := None |}
  else
    foldl (λ r ev, on_install_event ev r)
      {| install_promise := None; install_logged := [];
         install_spawned := Some (install_args packageName version) |}
      events.

(** The handler of [install:package] ([index.ts], lines 469-485): the
    messages it sends on [main:data], as type and data, once the promise of
    [installPackage] is settled. *)
Definition install_package_handler (installed : bool) (events : list InstallEvent) :
    list (string * bool) :=
  match install_promise (installPackage installed "open-webui" None events) with
  | Some (Resolved true) => [("status:package", true)]
  | Some (Resolved false) => []
  | Some (Rejected _) => [("status:package", false)]
  | None => []
  end.

Definition is_output (ev : InstallEvent) : Prop :=
  match ev with
  | IData _ => True
  | _ => False
  end.
End Python.

(** ** The Python console of the renderer ([PythonRepl.svelte]) *)
Module Repl.

Record Execution := {
  input : string;
  stdout : string;
  stderr : string;
  exitCode : Z;
  index : Z;
}.

(** What [window.electronAPI.runPython] gives back: a value whose fields may
    be missing ([None] also for a result that is [null] or [undefined]), or
    an exception with or without a message. *)
Record Reply := {
  reply_stdout : option string;
  reply_stderr : option string;
  reply_exitCode : option Z;
}.

Inductive Answer :=
| Returned (result : option Reply)
| Thrown (message : option string).

(** The variables of the component, with the toasts it has shown and the
    code it has sent to [runPython]. *)
Record Component := {
  code : string;
  history : list Execution;
  isRunning : bool;
  executionCount : Z;
  toasts : list string;
  requests : list string;
}.

Definition initial : Component :=
  {| code := "print('Hello from the bundled Python runtime!')";
     history := []; isRunning := false; executionCount := 1;
     toasts := []; requests := [] |}.

(** [s || ""] *)
Definition or_empty (s : option string) : string :=
  if Text.falsy s then "" else default "" s.

(** [runCode] up to its [await] (lines 17-25). *)
Definition runCode_begin (c : Component) : Component :=
  if Text.falsy (Some (trim (code c))) then
    {| code := code c; history := history c; isRunning := isRunning c;
       executionCount := executionCount c;
       toasts := toasts c ++ ["Enter some Python code to execute."];
       requests := requests c |}
  else
    {| code := code c; history := history c; isRunning := true;
       executionCount := executionCount c; toasts := toasts c;
       requests := requests c ++ [code c] |}.

(** [runCode] from its [await] on (lines 25-42). *)
Definition runCode_resume (a : Answer) (c : Component) : Component :=
  match a with
  | Returned result =>
      {| code := code c;
         history :=
           {| input := code c;
              stdout := or_empty (result ≫= reply_stdout);
              stderr := or_empty (result ≫= reply_stderr);
              exitCode := default 0 (result ≫= reply_exitCode);
              index := executionCount c |} :: history c;
         isRunning := false;
         executionCount := executionCount c + 1;
         toasts := toasts c; requests := requests c |}
  | Thrown message =>
      {| code := code c; history := history c; isRunning := false;
         executionCount := executionCount c;
         toasts := toasts c ++ [default "Failed to run Python code." message];
         requests := requests c |}
  end.

Definition clearHistory (c : Component) : Component :=
  {| code := code c; history := []; isRunning := isRunning c;
     executionCount := 1; toasts := toasts c; requests := requests c |}.

(** What happens to the component: the user types in the text area, clicks
    one of the two buttons, which are disabled while [isRunning], or the call
    of [runPython] comes back, which can only happen while [runCode] waits
    for it. *)
Inductive Action :=
| Type_ (text : string)
| ClickRun
| ClickClear
| Comes (a : Answer).

Definition step (c : Component) (act : Action) : Component :=
  match act with
  | Type_ text =>
      {| code := text; history := history c; isRunning := isRunning c;
         executionCount := executionCount c; toasts := toasts c;
         requests := requests c |}
  | ClickRun => if isRunning c then c else runCode_begin c
  | ClickClear => if isRunning c then c else clearHistory c
  | Comes a => if isRunning c then runCode_resume a c else c
  end.

Definition after (actions : list Action) : Component := foldl step initial actions.

(** The numbering of the entries, newest first. *)
Definition numbered (c : Component) : Prop :=
  index <$> history c = reverse (seqZ 1 (Z.of_nat (length (history c)))) ∧
  executionCount c = Z.of_nat (length (history c)) + 1.

Definition is_answer (act : Action) : Prop :=
  match act with
  | Comes _ => True
  | _ => False
  end.

#[global] Instance is_answer_dec (act : Action) : Decision (is_answer act).
Proof. destruct act; simpl; apply _. Defined.
End Repl.

(** ** The bridge of the preload script *)
Module Preload.

(** [isLocalSource], as a function of [window.location.origin]. *)
Definition isLocalSource (origin : string) : bool :=
  Text.startsWith origin "file://" ||
  Text.includes origin "localhost" ||
  Text.includes origin "127.0.0.1" ||
  Text.includes origin "0.0.0.0".

(** The methods of [api]. *)
Inductive Method :=
| onLog | send | openInBrowser | getAppInfo | getVersion | getConfig | setConfig
| installPython | installPackage | getPythonStatus | getPackageStatus | runPython
| getServerStatus | getServerInfo | resetApp | startServer | stopServer
| restartServer | getServerUrl | notification.

#[global] Instance Method_eq_dec : EqDecision Method.
Proof. solve_decision. Defined.

(** The methods that start with the test [if (!isLocalSource())]. *)
Definition guarded (m : Method) : bool :=
  match m with
  | send | getPythonStatus | getPackageStatus | getServerUrl => false
  | _ => true
  end.

(** The channel a method passes to [ipcRenderer.invoke]; [onLog] invokes
    nothing, it listens on [main:log]. *)
Definition channel (m : Method) : option string :=
  match m with
  | onLog => None
  | send => Some "renderer:data"
  | openInBrowser => Some "open:browser"
  | getAppInfo => Some "app:info"
  | getVersion => Some "get:version"
  | getConfig => Some "get:config"
  | setConfig => Some "set:config"
  | installPython => Some "install:python"
  | installPackage => Some "install:package"
  | getPythonStatus => Some "status:python"
  | getPackageStatus => Some "status:package"
  | runPython => Some "python:execute"
  | getServerStatus => Some "status:server"
  | getServerInfo => Some "server:info"
  | resetApp => Some "app:reset"
  | startServer => Some "server:start"
  | stopServer => Some "server:stop"
  | restartServer => Some "server:restart"
  | getServerUrl => Some "server:url"
  | notification => Some "notification"
  end.

(** The channels for which the main process calls [ipcMain.handle]
    ([index.ts], lines 433-570). *)
Definition handled : list string :=
  ["get:version"; "install:python"; "install:package"; "status:python";
   "python:execute"; "status:package"; "server:start"; "server:stop";
   "server:restart"; "server:logs"; "server:info"; "status:server"; "app:info";
   "app:reset"; "get:config"; "set:config"; "open:browser"; "notification"].

(** How a call of a method ends on the side of the renderer: the guard
    throws "Access restricted: This operation is only allowed in a local
    environment.", the method registers a listener, the main process has a handler
    for the channel, or it has none and [invoke] rejects. *)
Inductive Outcome :=
| Restricted
| Listens
| Handled (channel : string)
| NoHandler (channel : string).

#[global] Instance Outcome_eq_dec : EqDecision Outcome.
Proof. solve_decision. Defined.

Definition call (origin : string) (m : Method) : Outcome :=
  if guarded m && negb (isLocalSource origin) then Restricted
  else match channel m with
       | None => Listens
       | Some c => if bool_decide (c ∈ handled) then Handled c else NoHandler c
       end.
End Preload.

(** * Properties *)

(** ** Strings *)

Example show_Z_examples :
  show_Z 4242 = "4242" ∧ show_Z 0 = "0" ∧ show_Z (-4242) = "-4242".
Proof. by vm_compute. Qed.

Example listener_lines :
  line_data Stderr 4242 "  INFO: started
" = "[stderr][PID:4242]: INFO: started" ∧
  line_close 4242 (Some 0) None
  = "[process][PID:4242] Exited with code 0 signal null" ∧
  taskkill 4242 true = "taskkill /PID 4242 /T /F".
Proof. by vm_compute. Qed.

(** ** Segments *)

Lemma replay_pids_app t1 t2 s :
  replay_pids (t1 ++ t2) s = replay_pids t2 (replay_pids t1 s).
Proof. apply foldl_app. Qed.

Lemma replay_logs_app t1 t2 m :
  replay_logs (t1 ++ t2) m = replay_logs t2 (replay_logs t1 m).
Proof. apply foldl_app. Qed.

Lemma set_delete_subseteq (x : Z) (s : list Z) : set_delete x s ⊆ s.
Proof. intros y Hy. apply list_elem_of_filter in Hy. tauto. Qed.

Lemma elem_of_set_delete (x y : Z) (s : list Z) : y ∈ set_delete x s ↔ y ≠ x ∧ y ∈ s.
Proof. unfold set_delete. by rewrite list_elem_of_filter. Qed.

Lemma elem_of_set_add (x y : Z) (s : list Z) : y ∈ set_add x s ↔ y = x ∨ y ∈ s.
Proof.
  unfold set_add. case_decide.
  - split; [tauto | intros [-> | ?]; done].
  - rewrite elem_of_app, list_elem_of_singleton. tauto.
Qed.

(** A pid that a segment made leave the set was deleted by one of its
    events. *)
Lemma replay_pids_removed (t : list Event) (s : list Z) (pid : Z) :
  pid ∈ s → pid ∉ replay_pids t s → TPidsDelete pid ∈ t.
Proof.
  revert s. induction t as [|e t IH]; intros s Hin Hout; [done |].
  simpl in Hout.
  destruct (decide (e = TPidsDelete pid)) as [-> | Hne]; [left |].
  right. eapply IH; [| exact Hout].
  destruct e; try done.
  - apply elem_of_set_add. by right.
  - apply elem_of_set_delete. split; [congruence | done].
Qed.

#[export] Instance Forall_closed (P : Event → Prop) : Closed (Forall P).
Proof. split; [constructor | intros; by apply Forall_app]. Qed.

#[export] Instance and_closed Φ Ψ `{!Closed Φ, !Closed Ψ} :
  Closed (λ t, Φ t ∧ Ψ t).
Proof.
  split; [split; apply closed_nil |].
  intros t1 t2 [] []. split; by apply closed_app.
Qed.

#[export] Instance justified_closed J : Closed (justified J).
Proof.
  split; [intros i pid; by rewrite lookup_nil |].
  intros t1 t2 H1 H2 i pid Hi.
  destruct (decide (i < length t1)%nat) as [Hlt | Hge].
  - rewrite lookup_app_l in Hi by done.
    destruct (H1 _ _ Hi) as (j & e & -> & Hj & HJ).
    exists j, e. split_and!; [done | | done].
    rewrite lookup_app_l by lia. done.
  - rewrite lookup_app_r in Hi by lia.
    destruct (H2 _ _ Hi) as (j & e & Heq & Hj & HJ).
    exists (length t1 + j)%nat, e. split_and!; [lia | | done].
    rewrite lookup_app_r by lia. by replace (length t1 + j - length t1)%nat with j by lia.
Qed.

#[export] Instance anything_closed : Closed anything.
Proof. by split. Qed.

Lemma anything_intro t : anything t.
Proof. done. Qed.

#[export] Instance quiet_closed : Closed quiet.
Proof.
  split; [done |]. intros t1 t2 H1 H2.
  unfold quiet, probed_ports in *. by rewrite omap_app, H1, H2.
Qed.

#[export] Instance silent_closed : Closed silent.
Proof.
  split; [done |]. intros t1 t2 H1 H2.
  unfold silent, calls in *. by rewrite filter_app, H1, H2.
Qed.

(** ** Runs *)

Ltac unfold_prog :=
  unfold mbind, mret, M_bind, M_ret, bind, ret, throw, try_catch, gets,
    log, emit, modify_reg in *.

Section Preorders.
Context {W : Type}.
Implicit Types (st : State W) (Φ : list Event → Prop).

Lemma traced_refl Φ `{!Closed Φ} : Reflexive (traced (W:=W) Φ).
Proof.
  intros st. exists []. rewrite app_nil_r. split_and!; [done | apply closed_nil | done | done].
Qed.

Lemma traced_trans Φ `{!Closed Φ} : Transitive (traced (W:=W) Φ).
Proof.
  intros st1 st2 st3 (t1 & E1 & H1 & P1 & L1) (t2 & E2 & H2 & P2 & L2).
  exists (t1 ++ t2). split_and!.
  - by rewrite E2, E1, app_assoc.
  - by apply closed_app.
  - by rewrite P2, P1, replay_pids_app.
  - by rewrite L2, L1, replay_logs_app.
Qed.

Lemma inside_refl : Reflexive (inside (W:=W)).
Proof. by intros st. Qed.

Lemma inside_trans : Transitive (inside (W:=W)).
Proof.
  intros st1 st2 st3 (? & ? & ?) (? & ? & ?). unfold inside. split_and!; congruence.
Qed.
End Preorders.

#[export] Existing Instances traced_refl traced_trans inside_refl inside_trans.

Section RunLemmas.
Context {W : Type} (os : OS W).
Implicit Types (st : State W) (Φ : list Event → Prop).

Section Closure.
Context (R : relation (State W)) `{!Reflexive R, !Transitive R}.

Lemma respects_ret {A} (a : A) : respects R (mret a : M W A).
Proof. intros st. reflexivity. Qed.

Lemma respects_throw {A} e : respects R (throw e : M W A).
Proof. intros st. reflexivity. Qed.

Lemma respects_gets {A} (f : State W → A) : respects R (gets f).
Proof. intros st. reflexivity. Qed.

Lemma respects_bind {A B} (m : M W A) (k : A → M W B) :
  respects R m → (∀ a, respects R (k a)) → respects R (m ≫= k).
Proof.
  intros Hm Hk st. unfold_prog. specialize (Hm st).
  destruct (m st) as [[a | e] st1]; simpl in *; [| done].
  etrans; [exact Hm | apply Hk].
Qed.

Lemma respects_try_catch {A} (m : M W A) handler :
  respects R m → (∀ e, respects R (handler e)) → respects R (try_catch m handler).
Proof.
  intros Hm Hh st. unfold_prog. specialize (Hm st).
  destruct (m st) as [[a | e] st1]; simpl in *; [done |].
  etrans; [exact Hm | apply Hh].
Qed.

Lemma respects_for_each {A} (xs : list A) (body : A → M W unit) :
  (∀ x, respects R (body x)) → respects R (for_each xs body).
Proof.
  intros Hb. induction xs as [| x xs IH]; simpl.
  - apply respects_ret.
  - apply respects_bind; [apply Hb | intros _; apply IH].
Qed.

End Closure.

Lemma never_throws_ret {A} (a : A) : never_throws (mret a : M W A).
Proof. intros st. by exists a. Qed.

Lemma never_throws_bind {A B} (m : M W A) (k : A → M W B) :
  never_throws m → (∀ a, never_throws (k a)) → never_throws (m ≫= k).
Proof.
  intros Hm Hk st. unfold_prog. destruct (Hm st) as [a Ha].
  destruct (m st) as [r st1]; simpl in *; subst r. apply Hk.
Qed.

Lemma never_throws_try_catch {A} (m : M W A) handler :
  (∀ e, never_throws (handler e)) → never_throws (try_catch m handler).
Proof.
  intros Hh st. unfold_prog.
  destruct (m st) as [[a | e] st1]; [by exists a | apply Hh].
Qed.

Lemma never_throws_for_each {A} (xs : list A) (body : A → M W unit) :
  (∀ x, never_throws (body x)) → never_throws (for_each xs body).
Proof.
  intros Hb. induction xs as [| x xs IH]; simpl.
  - apply never_throws_ret.
  - apply never_throws_bind; [apply Hb | intros _; apply IH].
Qed.

Lemma never_throws_unit (m : M W unit) st :
  never_throws m → (m st).1 = Ok tt.
Proof. intros H. destruct (H st) as [[] ?]. done. Qed.
End RunLemmas.

(** ** What each function appends to the trace *)

Create HintDb runs discriminated.

Ltac step_hook := fail.

Ltac step_run :=
  first
    [ step_hook
    | solve [apply respects_ret; apply _]
    | solve [apply respects_throw; apply _]
    | solve [apply respects_gets; apply _]
    | apply respects_bind; [apply _ .. | | intros ?]
    | apply respects_try_catch; [apply _ .. | | intros ?]
    | apply respects_for_each; [apply _ .. | intros ?]
    | match goal with
      | |- respects _ (if decide ?P then _ else _) => destruct (decide P)
      | |- respects _ (if negb ?b then _ else _) => destruct b; simpl negb
      | |- respects _ (if ?b then _ else _) => destruct b
      | |- respects _ (match ?x with _ => _ end) => destruct x
      | |- respects _ (let _ := _ in _) => cbv zeta
      end ].

Ltac runs := repeat (first [ solve [eauto 9 with runs] | step_run ]).

Section Traced.
Context {W : Type} (os : OS W).
Context (Φ : list Event → Prop) `{!Closed Φ}.
Implicit Types (st : State W).

(** No event and no change of the two registries. *)
Lemma no_event_traced st st' :
  trace st' = trace st →
  serverPIDs (reg st') = serverPIDs (reg st) →
  serverLogs (reg st') = serverLogs (reg st) → traced Φ st st'.
Proof.
  intros Ht Hp Hl. exists []. rewrite app_nil_r.
  split_and!; [done | apply closed_nil | done..].
Qed.

Lemma log_traced lvl msg : respects (traced Φ) (log (W:=W) lvl msg).
Proof. intros st. by apply no_event_traced. Qed.

Lemma modify_shell_traced f : respects (traced Φ) (modify_shell (W:=W) f).
Proof. intros st. by apply no_event_traced. Qed.

Lemma logLines_push_traced h line :
  respects (traced Φ) (logLines_push (W:=W) h line).
Proof. intros st. by apply no_event_traced. Qed.

Lemma new_child_traced pid : respects (traced Φ) (new_child (W:=W) pid).
Proof. intros st. by apply no_event_traced. Qed.

Lemma launch_env_traced : respects (traced Φ) (launch_env os).
Proof.
  intros st. unfold launch_env.
  destruct (launchEnv os (world st)) as [[] w]; by apply no_event_traced.
Qed.

(** One event and no change of the two registries. *)
Lemma one_event_traced st st' e :
  Φ [e] → trace st' = trace st ++ [e] →
  serverPIDs (reg st') = serverPIDs (reg st) →
  serverLogs (reg st') = serverLogs (reg st) →
  (∀ s, replay_pids [e] s = s) → (∀ m, replay_logs [e] m = m) →
  traced Φ st st'.
Proof. intros He Ht Hp Hl Hp' Hl'. exists [e]. rewrite Hp, Hl, Hp', Hl'. by split_and!. Qed.

Lemma process_kill_traced pid sig :
  (∀ ok, Φ [TKill pid sig ok]) → respects (traced Φ) (process_kill os pid sig).
Proof.
  intros H st. unfold process_kill.
  destruct (kill os pid sig (world st)) as [[] w]; by eapply one_event_traced.
Qed.

Lemma exec_sync_traced cmd :
  (∀ ok, Φ [TExec cmd ok]) → respects (traced Φ) (exec_sync os cmd).
Proof.
  intros H st. unfold exec_sync.
  destruct (execSync os cmd (world st)) as [[] w]; by eapply one_event_traced.
Qed.

Lemma spawn_child_traced args :
  (∀ pid, Φ [TSpawn args pid]) → respects (traced Φ) (spawn_child os args).
Proof.
  intros H st. unfold spawn_child.
  destruct (spawn os args (world st)) as [pid w]; by eapply one_event_traced.
Qed.

Lemma register_traced pid h :
  Φ [TPidsAdd pid; TLogsSet pid h] →
  respects (traced Φ) (pids_add (W:=W) pid;; logs_set pid h).
Proof. intros H st. by exists [TPidsAdd pid; TLogsSet pid h]; simpl; rewrite <- app_assoc. Qed.

Lemma register_then_traced {A} pid h (k : M W A) :
  Φ [TPidsAdd pid; TLogsSet pid h] → respects (traced Φ) k →
  respects (traced Φ) (pids_add pid;; logs_set pid h;; k).
Proof.
  intros H Hk st.
  change ((pids_add pid;; logs_set pid h;; k) st)
    with (k ((pids_add pid;; logs_set pid h) st).2).
  etrans; [by apply register_traced | apply Hk].
Qed.

Section Listeners.
Context (Hlistener : ∀ c, listener_chunk c → Φ c).

Lemma on_child_event_traced ev : respects (traced Φ) (on_child_event (W:=W) ev).
Proof.
  intros st. unfold on_child_event.
  destruct (children (reg st) !! ev.1) as [c |]; [| reflexivity].
  destruct ev as [h [src data | code signal | message]]; simpl.
  - apply (one_event_traced _ _ (TChild h (child_pid c) (EvData src data)));
      [apply Hlistener; constructor | done..].
  - exists [TChild h (child_pid c) (EvClose code signal); TPidsDelete (child_pid c)].
    simpl. rewrite <- app_assoc.
    split_and!; [done | apply Hlistener; constructor | done..].
  - apply (one_event_traced _ _ (TChild h (child_pid c) (EvError message)));
      [apply Hlistener; constructor | done..].
Qed.

Lemma deliver_traced evs : respects (traced Φ) (deliver (W:=W) evs).
Proof. apply respects_for_each; [apply _ .. |]. apply on_child_event_traced. Qed.

Lemma sleep_traced ms : Φ [TSleep ms] → respects (traced Φ) (sleep os ms).
Proof.
  intros H st. unfold sleep.
  destruct (sleep_wait os ms (world st)) as [evs w].
  unfold_prog. simpl.
  etrans; [| apply deliver_traced]. by eapply one_event_traced.
Qed.

Lemma portInUse_traced port host :
  (∀ evs, Φ [TConnect port host probe_timeout_ms evs]) →
  respects (traced Φ) (portInUse os port host).
Proof.
  intros H st. unfold portInUse.
  destruct (connect os port host probe_timeout_ms (world st)) as [[evs cevs] w].
  unfold_prog. simpl.
  pose proof (deliver_traced cevs
    {| world := w; reg := reg st; shell := shell st; mainLog := mainLog st;
       trace := trace st ++ [TConnect port host probe_timeout_ms (evs.1 :: evs.2)] |}) as Hd.
  destruct (deliver cevs _) as [[[] | e] st1]; simpl in *;
    (etrans; [| exact Hd]); by eapply one_event_traced.
Qed.

Lemma getConfig_traced : respects (traced Φ) (getConfig os).
Proof.
  intros st. unfold getConfig.
  destruct (readConfig os (world st)) as [[cfg cevs] w].
  unfold_prog. simpl.
  pose proof (deliver_traced cevs (set_world w st)) as Hd.
  unfold set_world in Hd.
  destruct (deliver cevs _) as [[[] | e] st1]; simpl in *; [| done].
  destruct cfg; exact Hd.
Qed.
End Listeners.
End Traced.

Ltac step_hook ::=
  match goal with
  | |- respects _ (pids_add _ ≫= _) =>
      apply register_then_traced; [apply _ .. | solve [eauto with runs] |]
  end.

#[export] Hint Constructors listener_chunk attempt_chunk term_chunk stop_chunk
  probe_chunk start_chunk : runs.
#[export] Hint Extern 1 (Closed _) => apply _ : runs.
#[export] Hint Extern 2 (quiet _) => reflexivity : runs.
#[export] Hint Resolve anything_intro : runs.
#[export] Hint Resolve log_traced modify_shell_traced logLines_push_traced
  new_child_traced launch_env_traced process_kill_traced exec_sync_traced
  spawn_child_traced register_traced on_child_event_traced deliver_traced
  sleep_traced portInUse_traced getConfig_traced : runs.

Section TracedAttempt.
Context {W : Type} (os : OS W).
Context (Φ : list Event → Prop) `{!Closed Φ}.
Context (Hattempt : ∀ c, attempt_chunk c → Φ c).

Lemma isProcessRunning_traced pid : respects (traced Φ) (isProcessRunning os pid).
Proof. unfold isProcessRunning. runs. Qed.

Lemma terminateWindows_traced pid forceKill :
  respects (traced Φ) (terminateWindows os pid forceKill).
Proof. unfold terminateWindows. runs. Qed.

Lemma terminateUnix_traced pid forceKill :
  respects (traced Φ) (terminateUnix os pid forceKill).
Proof. unfold terminateUnix. pose proof isProcessRunning_traced. runs. Qed.
End TracedAttempt.

#[export] Hint Resolve isProcessRunning_traced terminateWindows_traced
  terminateUnix_traced : runs.

Section TracedTermination.
Context {W : Type} (os : OS W).
Context (Φ : list Event → Prop) `{!Closed Φ}.
Context (Hterm : ∀ c, term_chunk c → Φ c).

Lemma retry_loop_traced pid forceKill attempts :
  respects (traced Φ) (retry_loop os pid forceKill attempts).
Proof. induction attempts as [| attempt rest IH]; simpl; runs. Qed.

Lemma terminateProcessTree_traced pid forceKill :
  respects (traced Φ) (terminateProcessTree os pid forceKill).
Proof. apply retry_loop_traced. Qed.
End TracedTermination.

#[export] Hint Resolve retry_loop_traced terminateProcessTree_traced : runs.

Section TracedStop.
Context {W : Type} (os : OS W).
Context (Φ : list Event → Prop) `{!Closed Φ}.
Context (Hstop : ∀ c, stop_chunk c → Φ c).

Lemma verify_and_cleanup_traced pid :
  respects (traced Φ) (verify_and_cleanup os pid).
Proof.
  intros st. unfold verify_and_cleanup, isProcessRunning, process_kill.
  unfold_prog. destruct (kill os pid SIG0 (world st)) as [[] w]; simpl.
  - apply (one_event_traced _ _ _ (TKill pid SIG0 true)); eauto with runs.
  - exists [TKill pid SIG0 false; TPidsDelete pid; TLogsDelete pid].
    simpl. rewrite <- !app_assoc. split_and!; eauto with runs.
Qed.

Lemma stopAllServers_traced : respects (traced Φ) (stopAllServers os).
Proof. unfold stopAllServers. pose proof verify_and_cleanup_traced. runs. Qed.
End TracedStop.

#[export] Hint Resolve verify_and_cleanup_traced stopAllServers_traced : runs.

Lemma scan_ports_respects {W} (os : OS W) (R : relation (State W))
    `{!Reflexive R, !Transitive R} host desiredPort availablePort :
  (∀ port, respects R (portInUse os port host)) →
  (∀ lvl msg, respects R (log lvl msg)) →
  respects R (scan_ports os host desiredPort availablePort).
Proof.
  intros Hprobe Hlog st.
  funelim (scan_ports os host desiredPort availablePort st);
    clear Heqcall;
    pose proof (Hprobe availablePort st) as Hp;
    match goal with E : portInUse _ _ _ _ = _ |- _ => rewrite E in Hp end; simpl in *;
    try done.
  - etrans; [exact Hp |]. apply (Hlog Info (MsgPortInUse (availablePort + 1)) st1).
  - etrans; [exact Hp |].
    etrans; [apply (Hlog Info (MsgPortInUse (availablePort + 1)) st1) |]. exact (H R _ _ Hprobe Hlog).
Qed.

Lemma scan_ports_traced {W} (os : OS W) Φ `{!Closed Φ}
    host desiredPort availablePort :
  (∀ c, probe_chunk c → Φ c) →
  respects (traced Φ) (scan_ports os host desiredPort availablePort).
Proof. intros H. apply scan_ports_respects; [apply _ .. | |]; intros; runs. Qed.

#[export] Hint Resolve scan_ports_traced : runs.

Section TracedStart.
Context {W : Type} (os : OS W).
Context (Φ : list Event → Prop) `{!Closed Φ}.
Context (Hstart : ∀ c, start_chunk c → Φ c).

Lemma startServer_traced expose port :
  respects (traced Φ) (startServer os expose port).
Proof. unfold startServer. runs. Qed.

Lemma stopServerHandler_traced : respects (traced Φ) (stopServerHandler os).
Proof. unfold stopServerHandler. runs. Qed.

Lemma startServerHandler_traced : respects (traced Φ) (startServerHandler os).
Proof.
  unfold startServerHandler.
  pose proof startServer_traced. pose proof stopServerHandler_traced. runs.
Qed.
End TracedStart.

(** ** Removal from the set of tracked pids *)

Lemma justified_singleton J e :
  (∀ pid, e ≠ TPidsDelete pid) → justified J [e].
Proof.
  intros He [| i] pid Hi; simpl in Hi; [| by rewrite lookup_nil in Hi].
  injection Hi as ->. by destruct (He pid).
Qed.

Lemma justified_listener_chunk c : listener_chunk c → justified close_of c.
Proof.
  destruct 1; try (by apply justified_singleton).
  intros [| [| i]] p Hi; simplify_eq/=.
  eexists 0%nat, _. split_and!; [done | done |]. by eexists _, _, _.
Qed.

Lemma justified_term_chunk c : term_chunk c → justified close_of c.
Proof.
  destruct 1 as [c [] |]; [by apply justified_listener_chunk | by apply justified_singleton ..].
Qed.

Lemma justified_mono (J J' : Z → Event → Prop) t :
  (∀ pid e, J pid e → J' pid e) → justified J t → justified J' t.
Proof.
  intros HJ H i pid Hi. destruct (H i pid Hi) as (j & e & ? & ? & ?).
  exists j, e. auto.
Qed.

Lemma justified_start_chunk c :
  start_chunk c → justified (λ pid e, close_of pid e ∨ dead_probe pid e) c.
Proof.
  destruct 1 as [c [c' Hc | | pid] | c [c' Hc |] | |];
    try (by apply justified_singleton).
  - eapply justified_mono; [| by apply justified_term_chunk]. tauto.
  - intros [| [| [| i]]] p Hi; simplify_eq/=.
    eexists 0%nat, _. split_and!; [done | done |]. by right.
  - eapply justified_mono; [| by apply justified_listener_chunk]. tauto.
  - intros [| [| i]] p Hi; simplify_eq/=.
Qed.

Lemma perform_traced {W} (os : OS W) Φ `{!Closed Φ} op :
  (∀ c, start_chunk c → Φ c) → respects (traced Φ) (perform os op).
Proof.
  intros H. pose proof (startServer_traced os Φ H).
  pose proof (startServerHandler_traced os Φ H).
  pose proof (stopServerHandler_traced os Φ H).
  destruct op; simpl; runs.
Qed.


(** ** Functions that cannot throw *)

Section NeverThrows.
Context {W : Type} (os : OS W).

Lemma log_never_throws lvl msg : never_throws (log (W:=W) lvl msg).
Proof. intros st. by exists tt. Qed.

Lemma on_child_event_never_throws ev : never_throws (on_child_event (W:=W) ev).
Proof.
  intros st. unfold on_child_event.
  destruct (children (reg st) !! ev.1); [| by exists tt].
  destruct ev as [h []]; by exists tt.
Qed.

Lemma deliver_never_throws evs : never_throws (deliver (W:=W) evs).
Proof. apply never_throws_for_each, on_child_event_never_throws. Qed.

Lemma sleep_never_throws ms : never_throws (sleep os ms).
Proof.
  intros st. unfold sleep. destruct (sleep_wait os ms (world st)) as [evs w].
  unfold_prog. simpl. apply deliver_never_throws.
Qed.

Lemma isProcessRunning_never_throws pid : never_throws (isProcessRunning os pid).
Proof. apply never_throws_try_catch. intros _. apply never_throws_ret. Qed.

Lemma terminateWindows_never_throws pid forceKill :
  never_throws (terminateWindows os pid forceKill).
Proof.
  apply never_throws_for_each. intros cmd.
  apply never_throws_try_catch. intros _. apply log_never_throws.
Qed.

Lemma terminateUnix_never_throws pid forceKill :
  never_throws (terminateUnix os pid forceKill).
Proof.
  apply never_throws_for_each. intros cmd.
  apply never_throws_try_catch. intros _. apply log_never_throws.
Qed.

Lemma retry_loop_never_throws pid forceKill attempts :
  never_throws (retry_loop os pid forceKill attempts).
Proof.
  induction attempts as [| attempt rest IH]; simpl; [apply log_never_throws |].
  apply never_throws_bind.
  - apply never_throws_try_catch. intros _.
    apply never_throws_bind; [apply log_never_throws | intros; apply never_throws_ret].
  - intros []; [apply never_throws_ret |].
    apply never_throws_bind; [| by intros].
    destruct (_ <? _); [apply sleep_never_throws | apply never_throws_ret].
Qed.

Lemma terminateProcessTree_never_throws pid forceKill :
  never_throws (terminateProcessTree os pid forceKill).
Proof. apply retry_loop_never_throws. Qed.

Lemma verify_and_cleanup_never_throws pid :
  never_throws (verify_and_cleanup os pid).
Proof.
  apply never_throws_bind; [apply isProcessRunning_never_throws |].
  intros []; simpl; [apply log_never_throws |].
  intros st. by exists tt.
Qed.

Lemma stopAllServers_never_throws : never_throws (stopAllServers os).
Proof.
  unfold stopAllServers.
  apply never_throws_bind; [apply log_never_throws | intros _].
  apply never_throws_bind; [by intros st; eexists | intros pids].
  case_decide; [apply log_never_throws |].
  repeat (apply never_throws_bind; [| intros ?]);
    try apply never_throws_for_each; intros;
    auto using terminateProcessTree_never_throws, sleep_never_throws,
      verify_and_cleanup_never_throws, log_never_throws.
  by intros st; eexists.
Qed.
End NeverThrows.

(** ** Listeners leave the world alone *)

Section Inside.
Context {W : Type} (os : OS W).

Lemma on_child_event_inside ev : respects inside (on_child_event (W:=W) ev).
Proof.
  intros st. unfold on_child_event.
  destruct (children (reg st) !! ev.1); [| done].
  by destruct ev as [h []].
Qed.

Lemma deliver_inside evs : respects inside (deliver (W:=W) evs).
Proof. apply respects_for_each; [apply _ .. |]. apply on_child_event_inside. Qed.
End Inside.

(** ** The port prober *)

Lemma portInUse_result {W} (os : OS W) port host (st : State W) :
  (portInUse os port host st).1
  = Ok (on_sock_event (connect os port host probe_timeout_ms (world st)).1.1.1).
Proof.
  unfold portInUse.
  destruct (connect os port host probe_timeout_ms (world st)) as [[evs cevs] w].
  unfold_prog. simpl.
  pose proof (never_throws_unit (deliver cevs)
    {| world := w; reg := reg st; shell := shell st; mainLog := mainLog st;
       trace := trace st ++ [TConnect port host probe_timeout_ms (evs.1 :: evs.2)] |}
    (deliver_never_throws cevs)) as Hd.
  destruct (deliver cevs _) as [r st1]. simpl in Hd. by subst r.
Qed.


(** ** The port scan *)

Section Scan.
Context {W : Type} (os : OS W) (host : string) (occupied : Z → bool).
Context (Hocc : ∀ port w,
  on_sock_event (connect os port host probe_timeout_ms w).1.1.1 = occupied port).

Lemma portInUse_static port (st : State W) :
  (portInUse os port host st).1 = Ok (occupied port).
Proof. by rewrite portInUse_result, Hocc. Qed.

Lemma scan_ports_exhausted desiredPort availablePort (st : State W) :
  availablePort ≤ desiredPort + 100 →
  (∀ p, availablePort ≤ p ≤ desiredPort + 100 → occupied p = true) →
  (scan_ports os host desiredPort availablePort st).1 = Throw PortExhausted.
Proof.
  funelim (scan_ports os host desiredPort availablePort st); clear Heqcall;
    intros Hle Hall;
    match goal with
    | E : portInUse _ ?p _ ?s = _ |- _ =>
        pose proof (portInUse_static p s) as Hp; rewrite E in Hp;
        simpl in Hp; injection Hp as Hp || discriminate Hp
    end.
  - rewrite Hall in Hp by lia. done.
  - done.
  - apply H; [lia |]. intros p Hp'. apply Hall. lia.
Qed.

Lemma scan_ports_first_free desiredPort availablePort p (st : State W) :
  availablePort ≤ p ≤ desiredPort + 100 →
  occupied p = false →
  (∀ q, availablePort ≤ q < p → occupied q = true) →
  (scan_ports os host desiredPort availablePort st).1 = Ok p.
Proof.
  funelim (scan_ports os host desiredPort availablePort st); clear Heqcall;
    intros Hle Hfree Hbelow;
    match goal with
    | E : portInUse _ ?p _ ?s = _ |- _ =>
        pose proof (portInUse_static p s) as Hp; rewrite E in Hp;
        simpl in Hp; injection Hp as Hp || discriminate Hp
    end.
  - destruct (decide (availablePort = p)) as [-> | Hne]; [done |].
    rewrite Hbelow in Hp by lia. done.
  - destruct (decide (availablePort = p)) as [-> | Hne]; [congruence | lia].
  - destruct (decide (availablePort = p)) as [-> | Hne]; [congruence |].
    apply H; [lia | done |]. intros q Hq. apply Hbelow. lia.
Qed.
End Scan.

(** A port of the range that is free while all the ports below it are
    occupied, when not all are occupied. *)
Lemma smallest_free (occupied : Z → bool) (lo : Z) (n : nat) :
  (∀ p, lo ≤ p < lo + Z.of_nat n → occupied p = true) ∨
  (∃ p, lo ≤ p < lo + Z.of_nat n ∧ occupied p = false ∧
        ∀ q, lo ≤ q < p → occupied q = true).
Proof.
  induction n as [| n [Hall | (p & Hp & Hfree & Hbelow)]].
  - left. lia.
  - destruct (occupied (lo + Z.of_nat n)) eqn:Hn.
    + left. intros p Hp.
      destruct (decide (p = lo + Z.of_nat n)) as [-> | ]; [done | apply Hall; lia].
    + right. exists (lo + Z.of_nat n). split_and!; [lia | lia | done |].
      intros q Hq. apply Hall. lia.
  - right. exists p. split_and!; [lia | lia | done | done].
Qed.



Example scan_skips_busy_ports :
  (scan_ports (Toy.os Posix [8080; 8081]) "127.0.0.1" 8080 8080
     (Toy.init Toy.fresh Toy.empty_registry)).1 = Ok 8082.
Proof. by vm_compute. Qed.

Example scan_gives_up :
  (scan_ports (Toy.os Posix (seqZ 9000 101)) "127.0.0.1" 9000 9000
     (Toy.init Toy.fresh Toy.empty_registry)).1 = Throw PortExhausted.
Proof. by vm_compute. Qed.

(** ** Where the port scan of [startServer] begins *)

Lemma quiet_listener_chunk c : listener_chunk c → quiet c.
Proof. by destruct 1. Qed.

Lemma quiet_attempt_chunk c : attempt_chunk c → quiet c.
Proof. destruct 1; [by apply quiet_listener_chunk | done ..]. Qed.

Lemma quiet_term_chunk c : term_chunk c → quiet c.
Proof. destruct 1; [by apply quiet_attempt_chunk | done]. Qed.

Lemma quiet_stop_chunk c : stop_chunk c → quiet c.
Proof. destruct 1; [by apply quiet_term_chunk | done ..]. Qed.

Lemma quiet_app_from port t1 t2 :
  quiet t1 → probes_from port t2 → probes_from port (t1 ++ t2).
Proof.
  intros H1 [n H2]. exists n. unfold quiet, probed_ports in *.
  by rewrite omap_app, H1.
Qed.

Lemma from_app_quiet port t1 t2 :
  probes_from port t1 → quiet t2 → probes_from port (t1 ++ t2).
Proof.
  intros [n H1] H2. exists n. unfold quiet, probed_ports in *.
  by rewrite omap_app, H2, app_nil_r.
Qed.

Lemma quiet_from port t : quiet t → probes_from port t.
Proof. intros H. by exists 0%nat. Qed.

(** Sequencing for a property of segments that concatenation does not
    preserve. *)
Lemma respects_bind_seq {W A B} Φ1 Φ2 Ψ (m : M W A) (k : A → M W B) :
  (∀ t, Φ1 t → Ψ t) →
  (∀ t1 t2, Φ1 t1 → Φ2 t2 → Ψ (t1 ++ t2)) →
  respects (traced Φ1) m → (∀ a, respects (traced Φ2) (k a)) →
  respects (traced Ψ) (m ≫= k).
Proof.
  intros Hthrow Hseq Hm Hk st. unfold_prog.
  destruct (Hm st) as (t1 & E1 & H1 & P1 & L1).
  destruct (m st) as [[a | e] st1]; simpl in *.
  - destruct (Hk a st1) as (t2 & E2 & H2 & P2 & L2).
    exists (t1 ++ t2). split_and!; [by rewrite E2, E1, app_assoc | by apply Hseq | |].
    + by rewrite P2, P1, replay_pids_app.
    + by rewrite L2, L1, replay_logs_app.
  - exists t1. auto.
Qed.

Lemma throw_traced {W A} Ψ message :
  Ψ [] → respects (traced Ψ) (throw message : M W A).
Proof. intros H st. exists []. simpl. by rewrite app_nil_r. Qed.

Lemma portInUse_probed {W} (os : OS W) port host :
  respects (traced (λ t, probed_ports t = [port])) (portInUse os port host).
Proof.
  intros st. unfold portInUse.
  destruct (connect os port host probe_timeout_ms (world st)) as [[evs cevs] w].
  unfold_prog. simpl.
  pose proof (deliver_traced quiet quiet_listener_chunk cevs
    {| world := w; reg := reg st; shell := shell st; mainLog := mainLog st;
       trace := trace st ++ [TConnect port host probe_timeout_ms (evs.1 :: evs.2)] |})
    as (t & Ht & Hq & Hp & Hl).
  destruct (deliver cevs _) as [[[] | e] st1]; simpl in *;
    (exists (TConnect port host probe_timeout_ms (evs.1 :: evs.2) :: t);
     split_and!; [by rewrite Ht, <- app_assoc | | done | done]);
    change (probed_ports (TConnect port host probe_timeout_ms (evs.1 :: evs.2) :: t))
      with (port :: probed_ports t); by rewrite Hq.
Qed.

Lemma scan_ports_probed {W} (os : OS W) host desiredPort availablePort :
  respects (traced (probes_from availablePort))
    (scan_ports os host desiredPort availablePort).
Proof.
  intros st.
  funelim (scan_ports os host desiredPort availablePort st); clear Heqcall;
    pose proof (portInUse_probed os availablePort host st) as (t & Ht & Hq & Hp & Hl);
    match goal with E : portInUse _ _ _ _ = _ |- _ => rewrite E in * end;
    simpl in *;
    try (exists t; split_and!; [done | by exists 1%nat | done | done]).
  destruct H as (t2 & Ht2 & [k Hq2] & Hp2 & Hl2). simpl in *.
  exists (t ++ t2). split_and!.
  - by rewrite Ht2, Ht, app_assoc.
  - exists (S k). unfold probed_ports in *. rewrite omap_app, Hq, Hq2.
    rewrite (seqZ_cons availablePort) by lia. simpl. do 2 f_equal; lia.
  - by rewrite Hp2, Hp, replay_pids_app.
  - by rewrite Hl2, Hl, replay_logs_app.
Qed.

Ltac quiet_then :=
  eapply (respects_bind_seq quiet (probes_from _));
  [ intros ?; apply quiet_from | intros ? ?; apply quiet_app_from
  | pose proof quiet_stop_chunk; pose proof quiet_listener_chunk; solve [runs]
  | intros ? ].

Ltac quiet_branch :=
  match goal with
  | |- respects _ (if negb ?b then _ else _) =>
      destruct b; simpl; [| by apply throw_traced, quiet_from]
  end.

Lemma startServer_probed {W} (os : OS W) expose port :
  respects (traced (probes_from (desired_port port))) (startServer os expose port).
Proof.
  unfold startServer. cbv zeta.
  quiet_then. quiet_then. quiet_branch. quiet_then. quiet_branch.
  do 3 quiet_then.
  eapply (respects_bind_seq (probes_from _) quiet);
    [done | intros ? ?; apply from_app_quiet | apply scan_ports_probed | intros ?].
  pose proof quiet_listener_chunk. runs.
Qed.


Example start_with_port_0 :
  let st := (startServer (Toy.os Posix [8080]) true (PNum 0)
               (Toy.init Toy.fresh Toy.empty_registry)) in
  st.1 = Ok ("http://0.0.0.0:8081", 4242) ∧
  probed_ports (trace st.2) = [8080; 8081].
Proof. by vm_compute. Qed.

(** ** The termination controller, call by call *)

Lemma silent_listener_chunk c : listener_chunk c → silent c.
Proof. by destruct 1. Qed.

Lemma calls_app t1 t2 : calls (t1 ++ t2) = calls t1 ++ calls t2.
Proof. apply filter_app. Qed.

Section Calls.
Context {W : Type} (os : OS W).
Implicit Types (st : State W).

Lemma deliver_run evs st :
  ∃ st' t, deliver evs st = (Ok tt, st') ∧ inside st st' ∧
           trace st' = trace st ++ t ∧ silent t.
Proof.
  pose proof (never_throws_unit _ st (deliver_never_throws evs)) as Hr.
  pose proof (deliver_inside evs st) as Hi.
  destruct (deliver_traced silent silent_listener_chunk evs st) as (t & Ht & Hs & _).
  destruct (deliver evs st) as [r st']. simpl in *. subst r.
  by exists st', t.
Qed.

Lemma sleep_run ms st :
  ∃ st' t, sleep os ms st = (Ok tt, st') ∧
           world st' = (sleep_wait os ms (world st)).2 ∧
           mainLog st' = mainLog st ∧
           trace st' = trace st ++ TSleep ms :: t ∧ silent t.
Proof.
  unfold sleep. destruct (sleep_wait os ms (world st)) as [evs w].
  unfold_prog. simpl.
  destruct (deliver_run evs
    {| world := w; reg := reg st; shell := shell st; mainLog := mainLog st;
       trace := trace st ++ [TSleep ms] |}) as (st' & t & -> & (Hw & Hl & _) & Ht & Hs).
  exists st', t. simpl in *. by rewrite Ht, <- app_assoc.
Qed.

Lemma bind_run {A B} (m : M W A) (k : A → M W B) st :
  (m ≫= k) st = match m st with
                | (Ok a, st') => k a st'
                | (Throw e, st') => (Throw e, st')
                end.
Proof. done. Qed.

Lemma exec_sync_run cmd st :
  exec_sync os cmd st
  = (if (execSync os cmd (world st)).1 then Ok tt else Throw "Command failed",
     {| world := (execSync os cmd (world st)).2; reg := reg st;
        shell := shell st; mainLog := mainLog st;
        trace := trace st ++ [TExec cmd (execSync os cmd (world st)).1] |}).
Proof.
  unfold exec_sync. by destruct (execSync os cmd (world st)) as [[] w].
Qed.

Lemma process_kill_run pid sig st :
  process_kill os pid sig st
  = (if (kill os pid sig (world st)).1 then Ok tt else Throw "kill failed",
     {| world := (kill os pid sig (world st)).2; reg := reg st;
        shell := shell st; mainLog := mainLog st;
        trace := trace st ++ [TKill pid sig (kill os pid sig (world st)).1] |}).
Proof.
  unfold process_kill. by destruct (kill os pid sig (world st)) as [[] w].
Qed.

Lemma isProcessRunning_run pid st :
  isProcessRunning os pid st
  = (Ok (kill os pid SIG0 (world st)).1,
     {| world := (kill os pid SIG0 (world st)).2; reg := reg st;
        shell := shell st; mainLog := mainLog st;
        trace := trace st ++ [TKill pid SIG0 (kill os pid SIG0 (world st)).1] |}).
Proof.
  unfold isProcessRunning, try_catch. rewrite bind_run, process_kill_run.
  by destruct (kill os pid SIG0 (world st)) as [[] w].
Qed.

(** One command of [terminateWindows]: the pause follows only a command
    that did not throw. *)
Lemma taskkill_step_run pid cmd st :
  let r := execSync os cmd (world st) in
  ∃ st' t,
    try_catch (exec_sync os cmd;; sleep os 500)
              (λ _, log Error (MsgKillFailed pid)) st = (Ok tt, st') ∧
    world st' = (if r.1 then (sleep_wait os 500 r.2).2 else r.2) ∧
    trace st' = trace st ++ t ∧
    calls t = TExec cmd r.1 :: (if r.1 then [TSleep 500] else []).
Proof.
  intros r. unfold try_catch. rewrite bind_run, exec_sync_run. fold r.
  destruct r as [[] w]; simpl.
  - destruct (sleep_run 500
      {| world := w; reg := reg st; shell := shell st; mainLog := mainLog st;
         trace := trace st ++ [TExec cmd true] |}) as (st' & t & -> & Hw & _ & Ht & Hs).
    exists st', (TExec cmd true :: TSleep 500 :: t).
    simpl in *. split_and!; [done | done | by rewrite Ht, <- app_assoc |].
    change (calls (TExec cmd true :: TSleep 500 :: t))
      with (TExec cmd true :: TSleep 500 :: calls t). by rewrite Hs.
  - eexists _, [TExec cmd false]. by split_and!.
Qed.
End Calls.

(** What runs first inside a [try] is where the whole run starts. *)
Lemma starts_with {W A B} (first : M W unit) (next : M W A)
    (handler : string → M W A) (after : A → M W B) (st : State W) :
  respects (traced anything) next →
  (∀ e, respects (traced anything) (handler e)) →
  (∀ a, respects (traced anything) (after a)) →
  ∃ t, trace ((try_catch (first;; next) handler ≫= after) st).2
       = trace (first st).2 ++ t.
Proof.
  intros Hnext Hhandler Hafter.
  assert (∀ (r : Result A) st1 t1,
    trace st1 = trace (first st).2 ++ t1 →
    ∃ t, trace (match r with
                | Ok a => after a st1
                | Throw e => (Throw e, st1)
                end).2 = trace (first st).2 ++ t) as Hend.
  { intros [a | e] st1 t1 H1; [| by exists t1].
    destruct (Hafter a st1) as (t2 & H2 & _).
    exists (t1 ++ t2). by rewrite H2, H1, app_assoc. }
  assert (∀ e st1 t1,
    trace st1 = trace (first st).2 ++ t1 →
    ∃ t, trace (match handler e st1 with
                | (Ok a, st') => after a st'
                | (Throw e, st') => (Throw e, st')
                end).2 = trace (first st).2 ++ t) as Hcatch.
  { intros e st1 t1 H1. destruct (Hhandler e st1) as (t2 & H2 & _).
    destruct (handler e st1) as [r st2]. simpl in H2.
    apply (Hend r st2 (t1 ++ t2)). by rewrite H2, H1, app_assoc. }
  rewrite bind_run. unfold try_catch. rewrite bind_run.
  destruct (first st) as [[[] | e] st1]; simpl.
  - destruct (Hnext st1) as (t1 & H1 & _).
    destruct (next st1) as [[a | e] st2]; simpl in H1.
    + apply (Hend (Ok a) st2 t1). done.
    + apply (Hcatch e st2 t1). done.
  - apply (Hcatch e st1 []). by rewrite app_nil_r.
Qed.

(** C5, as the code has it.  On Windows a non-forceful attempt of
    [terminateProcessTree] is [terminateWindows(pid, false)]: it runs the
    cooperative [taskkill /T] and then, always, the forced [taskkill /T /F],
    without a look at the process in between; a pause of 500 ms follows each
    command that exits normally, so the pause separates the two commands
    when the cooperative one succeeds. *)
Theorem windows_graceful_attempt_runs_both_commands {W} (os : OS W)
    (pid : Z) (st : State W) :
  platform os = Win32 →
  let cooperative := taskkill pid false in
  let forced := taskkill pid true in
  let r1 := execSync os cooperative (world st) in
  let w1 := if r1.1 then (sleep_wait os 500 r1.2).2 else r1.2 in
  let r2 := execSync os forced w1 in
  let pause (ok : bool) := if ok then [TSleep 500] else [] in
  ∃ t t',
    trace (terminateProcessTree os pid false st).2 = trace st ++ t ++ t' ∧
    trace (terminateWindows os pid false st).2 = trace st ++ t ∧
    calls t = TExec cooperative r1.1 :: pause r1.1
              ++ TExec forced r2.1 :: pause r2.1.
Proof.
  intros Hwin cooperative forced r1 w1 r2 pause.
  assert (∃ t, trace (terminateWindows os pid false st).2 = trace st ++ t ∧
               calls t = TExec cooperative r1.1 :: pause r1.1
                         ++ TExec forced r2.1 :: pause r2.1) as (t & Ht & Hc).
  { change (terminateWindows os pid false st) with
      ((try_catch (exec_sync os cooperative;; sleep os 500)
                  (λ _, log Error (MsgKillFailed pid));;
        try_catch (exec_sync os forced;; sleep os 500)
                  (λ _, log Error (MsgKillFailed pid));;
        mret tt) st).
    destruct (taskkill_step_run os pid cooperative st)
      as (st1 & t1 & Hr1 & Hw1 & Ht1 & Hc1).
    destruct (taskkill_step_run os pid forced st1)
      as (st2 & t2 & Hr2 & Hw2 & Ht2 & Hc2).
    rewrite bind_run, Hr1, bind_run, Hr2.
    exists (t1 ++ t2). simpl. split; [by rewrite Ht2, Ht1, app_assoc |].
    rewrite calls_app, Hc1, Hc2, Hw1. done. }
  exists t.
  assert (∃ t', trace (terminateProcessTree os pid false st).2
                = trace (terminateWindows os pid false st).2 ++ t') as [t' Ht'].
  { unfold terminateProcessTree.
    change (seqZ 1 maxRetries) with [1; 2; 3]. cbn [retry_loop].
    destruct (decide (platform os = Win32)); [| done].
    apply starts_with; intros; runs. }
  exists t'. by rewrite Ht', Ht, app_assoc.
Qed.

Lemma windows_graceful_attempt_witness :
  let os := Toy.os Win32 [] in
  let st := Toy.init (Toy.one_server true true) Toy.tracking in
  platform os = Win32 ∧
  ∃ t t',
    trace (terminateProcessTree os 4242 false st).2 = trace st ++ t ++ t' ∧
    trace (terminateWindows os 4242 false st).2 = trace st ++ t ∧
    calls t = [TExec "taskkill /PID 4242 /T" true; TSleep 500;
               TExec "taskkill /PID 4242 /T /F" false].
Proof.
  split; [reflexivity |].
  exact (windows_graceful_attempt_runs_both_commands (Toy.os Win32 []) 4242
           (Toy.init (Toy.one_server true true) Toy.tracking) eq_refl).
Defined.

(** C5, as stated, fails: the cooperative command ends the process, the
    liveness check after the pause finds it dead, and the forced command is
    issued all the same. *)
Lemma windows_forced_command_hits_dead_process :
  let os := Toy.os Win32 [] in
  let st := Toy.init (Toy.one_server true true) Toy.tracking in
  let after_cooperative := (exec_sync os (taskkill 4242 false);; sleep os 500) st in
  after_cooperative.1 = Ok tt ∧
  (isProcessRunning os 4242 after_cooperative.2).1 = Ok false ∧
  calls (trace (terminateProcessTree os 4242 false st).2)
  = [TExec "taskkill /PID 4242 /T" true; TSleep 500;
     TExec "taskkill /PID 4242 /T /F" false; TKill 4242 SIG0 false].
Proof. by vm_compute. Qed.

(** ** Terminating a process that is already dead *)

Section KeepsLogged.
Context {W : Type}.

Lemma keeps_refl (P : W → Prop) : Reflexive (keeps P).
Proof. intros st H. exact H. Qed.

Lemma keeps_trans (P : W → Prop) : Transitive (keeps P).
Proof. intros st1 st2 st3 H1 H2 H. apply H2, H1, H. Qed.

Lemma logged_refl (P : Level * LogMsg → Prop) : Reflexive (logged (W:=W) P).
Proof. intros st. exists []. by rewrite app_nil_r. Qed.

Lemma logged_trans (P : Level * LogMsg → Prop) : Transitive (logged (W:=W) P).
Proof.
  intros st1 st2 st3 (l1 & E1 & H1) (l2 & E2 & H2).
  exists (l1 ++ l2). split; [by rewrite E2, E1, app_assoc | by apply Forall_app].
Qed.
End KeepsLogged.

#[export] Existing Instances keeps_refl keeps_trans logged_refl logged_trans.

Section AttemptOnDead.
Context {W : Type} (os : OS W) (Dead : W → Prop).
Context (Hkill : ∀ w pid sig, Dead w → Dead (kill os pid sig w).2).
Context (Hexec : ∀ w cmd, Dead w → Dead (execSync os cmd w).2).
Context (Hsleep : ∀ w ms, Dead w → Dead (sleep_wait os ms w).2).

Lemma log_keeps lvl msg : respects (keeps Dead) (log (W:=W) lvl msg).
Proof. intros st H. exact H. Qed.

Lemma process_kill_keeps pid sig : respects (keeps Dead) (process_kill os pid sig).
Proof. intros st H. rewrite process_kill_run. simpl. by apply Hkill. Qed.

Lemma exec_sync_keeps cmd : respects (keeps Dead) (exec_sync os cmd).
Proof. intros st H. rewrite exec_sync_run. simpl. by apply Hexec. Qed.

Lemma sleep_keeps ms : respects (keeps Dead) (sleep os ms).
Proof.
  intros st H. destruct (sleep_run os ms st) as (st' & t & -> & Hw & _).
  simpl. rewrite Hw. by apply Hsleep.
Qed.

Lemma isProcessRunning_keeps pid : respects (keeps Dead) (isProcessRunning os pid).
Proof. intros st H. rewrite isProcessRunning_run. simpl. by apply Hkill. Qed.

Lemma terminateWindows_keeps pid forceKill :
  respects (keeps Dead) (terminateWindows os pid forceKill).
Proof.
  pose proof log_keeps. pose proof exec_sync_keeps. pose proof sleep_keeps.
  unfold terminateWindows. runs.
Qed.

Lemma terminateUnix_keeps pid forceKill :
  respects (keeps Dead) (terminateUnix os pid forceKill).
Proof.
  pose proof log_keeps. pose proof process_kill_keeps. pose proof sleep_keeps.
  pose proof isProcessRunning_keeps.
  unfold terminateUnix. runs.
Qed.
End AttemptOnDead.

Section AttemptLog.
Context {W : Type} (os : OS W) (pid : Z).

Lemma log_logged :
  respects (logged (kill_failed pid)) (log (W:=W) Error (MsgKillFailed pid)).
Proof. intros st. exists [(Error, MsgKillFailed pid)]. split; [done |]. by constructor. Qed.

Lemma process_kill_logged p sig :
  respects (logged (kill_failed pid)) (process_kill os p sig).
Proof. intros st. rewrite process_kill_run. exists []. by rewrite app_nil_r. Qed.

Lemma exec_sync_logged cmd : respects (logged (kill_failed pid)) (exec_sync os cmd).
Proof. intros st. rewrite exec_sync_run. exists []. by rewrite app_nil_r. Qed.

Lemma sleep_logged ms : respects (logged (kill_failed pid)) (sleep os ms).
Proof.
  intros st. destruct (sleep_run os ms st) as (st' & t & -> & _ & Hl & _).
  exists []. by rewrite app_nil_r.
Qed.

Lemma isProcessRunning_logged p :
  respects (logged (kill_failed pid)) (isProcessRunning os p).
Proof. intros st. rewrite isProcessRunning_run. exists []. by rewrite app_nil_r. Qed.

Lemma terminateWindows_logged forceKill :
  respects (logged (kill_failed pid)) (terminateWindows os pid forceKill).
Proof.
  pose proof log_logged. pose proof exec_sync_logged. pose proof sleep_logged.
  unfold terminateWindows. runs.
Qed.

Lemma terminateUnix_logged forceKill :
  respects (logged (kill_failed pid)) (terminateUnix os pid forceKill).
Proof.
  pose proof log_logged. pose proof process_kill_logged. pose proof sleep_logged.
  pose proof isProcessRunning_logged.
  unfold terminateUnix. runs.
Qed.
End AttemptLog.

Lemma no_wait_in_attempt c : attempt_chunk c → Forall (λ e, e ≠ TSleep 1000) c.
Proof.
  destruct 1 as [c [] | | |]; repeat constructor; discriminate.
Qed.

(** C7.  When the liveness check reports the identity dead and keeps doing
    so whatever is signalled, executed or awaited ([Dead] holds of the world
    and the system calls preserve it), [terminateProcessTree] is one attempt,
    one liveness check and the success message: it returns normally, never
    waits the 1000 ms that precede a retry, and writes to the main log only
    the failures of its signals or commands, then "Successfully
    terminated". *)
Theorem terminate_dead_process_without_retry {W} (os : OS W)
    (pid : Z) (forceKill : bool) (st : State W) (Dead : W → Prop) :
  Dead (world st) →
  (∀ w, Dead w → (kill os pid SIG0 w).1 = false) →
  (∀ w p sig, Dead w → Dead (kill os p sig w).2) →
  (∀ w cmd, Dead w → Dead (execSync os cmd w).2) →
  (∀ w ms, Dead w → Dead (sleep_wait os ms w).2) →
  let attempt :=
    if decide (platform os = Win32)
    then terminateWindows os pid forceKill
    else terminateUnix os pid forceKill in
  terminateProcessTree os pid forceKill st
  = (attempt;; isProcessRunning os pid;; log Info (MsgTerminated pid)) st ∧
  (terminateProcessTree os pid forceKill st).1 = Ok tt ∧
  (∃ t, trace (terminateProcessTree os pid forceKill st).2 = trace st ++ t ∧
        TSleep 1000 ∉ t) ∧
  (∃ l, mainLog (terminateProcessTree os pid forceKill st).2
        = mainLog st ++ l ++ [(Info, MsgTerminated pid)] ∧
        Forall (kill_failed pid) l).
Proof.
  intros Hst Hdead Hkill Hexec Hsleep attempt.
  assert (never_throws attempt ∧ respects (keeps Dead) attempt ∧
          respects (logged (kill_failed pid)) attempt ∧
          respects (traced (Forall (λ e, e ≠ TSleep 1000))) attempt)
    as (Hok & Hkeeps & Hlog & Htrace).
  { unfold attempt. destruct (decide (platform os = Win32)); split_and!;
      auto using terminateWindows_never_throws, terminateUnix_never_throws,
        terminateWindows_keeps, terminateUnix_keeps,
        terminateWindows_logged, terminateUnix_logged;
      pose proof no_wait_in_attempt; runs. }
  assert (terminateProcessTree os pid forceKill st
          = (attempt;; isProcessRunning os pid;; log Info (MsgTerminated pid)) st)
    as Heq.
  { unfold terminateProcessTree. change (seqZ 1 maxRetries) with [1; 2; 3].
    cbn [retry_loop]. fold attempt.
    rewrite !bind_run. unfold try_catch. rewrite !bind_run.
    pose proof (never_throws_unit attempt st Hok) as Hr.
    pose proof (Hkeeps st Hst) as Hst1.
    destruct (attempt st) as [r st1]. simpl in Hr, Hst1. subst r.
    rewrite !bind_run, !isProcessRunning_run, (Hdead _ Hst1). done. }
  rewrite Heq. split; [done |].
  rewrite !bind_run.
  pose proof (never_throws_unit attempt st Hok) as Hr.
  pose proof (Hkeeps st Hst) as Hst1.
  destruct (Hlog st) as (l & Hl & HlP).
  destruct (Htrace st) as (t & Ht & HtP & _).
  destruct (attempt st) as [r st1]. simpl in *. subst r.
  rewrite !bind_run, !isProcessRunning_run, (Hdead _ Hst1). simpl.
  split_and!; [done | |].
  - exists (t ++ [TKill pid SIG0 false]). split; [by rewrite Ht, app_assoc |].
    rewrite elem_of_app, list_elem_of_singleton. intros [Hin | ?]; [| done].
    by eapply Forall_forall in HtP.
  - exists l. split; [by rewrite Hl, app_assoc | done].
Qed.

Lemma toy_find_filter_None (f : Toy.Proc → bool) (P : Toy.Proc → Prop)
    `{!∀ x, Decision (P x)} (l : list Toy.Proc) :
  List.find f l = None → List.find f (filter P l) = None.
Proof.
  induction l as [| x l IH]; [done |]. simpl.
  destruct (f x) eqn:Hx; [done |]. intros Hl.
  rewrite filter_cons. case_decide; simpl; [rewrite Hx |]; auto.
Qed.

Lemma toy_exits_dead pid p name w :
  Toy.find_proc pid w = None → Toy.find_proc pid (Toy.exits p name w) = None.
Proof. apply toy_find_filter_None. Qed.

Lemma toy_kill_dead busy platform w pid p sig :
  Toy.find_proc pid w = None →
  Toy.find_proc pid (kill (Toy.os platform busy) p sig w).2 = None.
Proof.
  intros H. simpl. unfold Toy.do_kill.
  destruct (Toy.find_proc (Z.abs p) w) as [q |]; [| done].
  destruct sig; simpl; [done | |]; case_match; auto using toy_exits_dead.
Qed.

Lemma toy_exec_dead busy platform w pid cmd :
  Toy.find_proc pid w = None →
  Toy.find_proc pid (execSync (Toy.os platform busy) cmd w).2 = None.
Proof.
  intros H. simpl. unfold Toy.do_execSync.
  repeat case_match; simpl; auto using toy_exits_dead.
Qed.

Lemma terminate_dead_process_witness :
  let os := Toy.os Posix [] in
  let st := Toy.init (Toy.one_server true true) Toy.tracking in
  let Dead := λ w, Toy.find_proc 777 w = None in
  let attempt :=
    if decide (platform os = Win32)
    then terminateWindows os 777 false
    else terminateUnix os 777 false in
  (Dead (world st) ∧
   (∀ w, Dead w → (kill os 777 SIG0 w).1 = false) ∧
   (∀ w p sig, Dead w → Dead (kill os p sig w).2) ∧
   (∀ w cmd, Dead w → Dead (execSync os cmd w).2) ∧
   (∀ w ms, Dead w → Dead (sleep_wait os ms w).2)) ∧
  terminateProcessTree os 777 false st
  = (attempt;; isProcessRunning os 777;; log Info (MsgTerminated 777)) st ∧
  (terminateProcessTree os 777 false st).1 = Ok tt ∧
  (∃ t, trace (terminateProcessTree os 777 false st).2 = trace st ++ t ∧
        TSleep 1000 ∉ t) ∧
  (∃ l, mainLog (terminateProcessTree os 777 false st).2
        = mainLog st ++ l ++ [(Info, MsgTerminated 777)] ∧
        Forall (kill_failed 777) l).
Proof.
  intros os st Dead attempt.
  assert (Dead (world st)) as H0 by reflexivity.
  assert (∀ w, Dead w → (kill os 777 SIG0 w).1 = false) as H1.
  { intros w H. unfold Dead in H. unfold os, Toy.os, kill, Toy.do_kill.
    change (Z.abs 777) with 777. by rewrite H. }
  assert (∀ w p sig, Dead w → Dead (kill os p sig w).2) as H2.
  { intros w p sig. apply toy_kill_dead. }
  assert (∀ w cmd, Dead w → Dead (execSync os cmd w).2) as H3.
  { intros w cmd. apply toy_exec_dead. }
  assert (∀ w ms, Dead w → Dead (sleep_wait os ms w).2) as H4.
  { intros w ms H. exact H. }
  split; [done |].
  exact (terminate_dead_process_without_retry os 777 false st Dead H0 H1 H2 H3 H4).
Defined.

Example terminate_dead_process_calls :
  calls (trace (terminateProcessTree (Toy.os Posix []) 777 false
                  (Toy.init (Toy.one_server true true) Toy.tracking)).2)
  = [TKill (-777) SIGTERM false; TKill (-777) SIGKILL false; TKill 777 SIG0 false].
Proof. by vm_compute. Qed.

(** ** Starting *)

Lemma shrinks_refl {W} : Reflexive (shrinks (W:=W)).
Proof. intros st x Hx. exact Hx. Qed.

Lemma shrinks_trans {W} : Transitive (shrinks (W:=W)).
Proof. intros st1 st2 st3 H1 H2 x Hx. apply H1, H2, Hx. Qed.

#[export] Existing Instances shrinks_refl shrinks_trans.

Lemma listener_only_chunk c : listener_chunk c → Forall listener_only c.
Proof. destruct 1; by repeat constructor. Qed.

Lemma replay_logs_listener_only t m : Forall listener_only t → replay_logs t m = m.
Proof.
  induction 1 as [| e t He _ IH]; [done |].
  simpl. by destruct e.
Qed.

Lemma replay_pids_listener_only t s :
  Forall listener_only t → replay_pids t s ⊆ s.
Proof.
  revert s. induction t as [| e t IH]; intros s Ht; [done |].
  inversion_clear Ht as [| ? ? He Ht']. simpl.
  destruct e; try done; try by apply IH.
  etrans; [by apply IH | apply set_delete_subseteq].
Qed.

Lemma probed_ports_app t1 t2 :
  probed_ports (t1 ++ t2) = probed_ports t1 ++ probed_ports t2.
Proof. apply omap_app. Qed.

Lemma quiet_listener_only t : Forall listener_only t → quiet t.
Proof.
  induction 1 as [| e t He _ IH]; [done |]. unfold quiet in *.
  destruct e; try done; exact IH.
Qed.

Lemma list_nil_subseteq {A} (l : list A) : l ⊆ [] → l = [].
Proof.
  destruct l as [| x l]; [done |]. intros H.
  by specialize (H x ltac:(left)); apply elem_of_nil in H.
Qed.

Section StartRuns.
Context {W : Type} (os : OS W).
Implicit Types (st : State W).

(** The listeners change nothing but log lines and the set of pids, which
    they can only shrink. *)
Lemma deliver_spec evs st :
  ∃ st' t, deliver evs st = (Ok tt, st') ∧ inside st st' ∧
           trace st' = trace st ++ t ∧ Forall listener_only t ∧
           shrinks st st' ∧
           serverLogs (reg st') = serverLogs (reg st).
Proof.
  pose proof (never_throws_unit _ st (deliver_never_throws evs)) as Hr.
  pose proof (deliver_inside evs st) as Hi.
  destruct (deliver_traced (Forall listener_only) listener_only_chunk evs st)
    as (t & Ht & Hs & Hp & Hl).
  destruct (deliver evs st) as [r st']. simpl in *. subst r.
  exists st', t. split_and!; [done .. | |].
  - unfold shrinks. rewrite Hp. by apply replay_pids_listener_only.
  - by rewrite Hl, replay_logs_listener_only.
Qed.

Lemma portInUse_run port host st :
  let r := connect os port host probe_timeout_ms (world st) in
  ∃ st' t, portInUse os port host st = (Ok (on_sock_event r.1.1.1), st') ∧
           world st' = r.2 ∧ mainLog st' = mainLog st ∧ shell st' = shell st ∧
           trace st' = trace st
                       ++ TConnect port host probe_timeout_ms (r.1.1.1 :: r.1.1.2) :: t ∧
           Forall listener_only t ∧ shrinks st st' ∧
           serverLogs (reg st') = serverLogs (reg st).
Proof.
  intros r. unfold portInUse. subst r.
  destruct (connect os port host probe_timeout_ms (world st)) as [[evs cevs] w].
  unfold_prog. simpl.
  destruct (deliver_spec cevs
    {| world := w; reg := reg st; shell := shell st; mainLog := mainLog st;
       trace := trace st ++ [TConnect port host probe_timeout_ms (evs.1 :: evs.2)] |})
    as (st' & t & -> & (Hw & Hl & Hs) & Ht & Hlo & Hsh & Hlogs).
  exists st', t. simpl in *. rewrite Ht, <- app_assoc. by split_and!.
Qed.

(** With nothing tracked, [stopAllServers] only writes to the main log. *)
Lemma stopAllServers_idle st :
  serverPIDs (reg st) = [] →
  stopAllServers os st
  = (Ok tt, {| world := world st; reg := reg st; shell := shell st;
               mainLog := mainLog st ++ [(Info, MsgStoppingAll); (Info, MsgNoServers)];
               trace := trace st |}).
Proof.
  intros H. unfold stopAllServers. unfold_prog. simpl.
  unfold getServerPIDs. rewrite H. simpl. by rewrite <- app_assoc.
Qed.

Lemma scan_ports_free host desiredPort availablePort st :
  (portInUse os availablePort host st).1 = Ok false →
  scan_ports os host desiredPort availablePort st
  = (Ok availablePort, (portInUse os availablePort host st).2).
Proof.
  intros H. simp scan_ports.
  destruct (portInUse os availablePort host st) as [[[] | e] st1]; by simplify_eq/=.
Qed.
End StartRuns.



Example start_scenario_8080 :
  let r := startServer (Toy.os Posix []) false (PNum 8080)
             (Toy.init Toy.fresh Toy.empty_registry) in
  r.1 = Ok ("http://127.0.0.1:8080", 4242) ∧ serverPIDs (reg r.2) = [4242].
Proof. by vm_compute. Qed.

Example start_scenario_8091 :
  (startServer (Toy.os Posix (seqZ 8080 11)) false (PNum 8080)
     (Toy.init Toy.fresh Toy.empty_registry)).1
  = Ok ("http://127.0.0.1:8091", 4242).
Proof. by vm_compute. Qed.

(** ** Two starts in a row *)

Lemma deliver_shrinks {W} evs : respects shrinks (deliver (W:=W) evs).
Proof.
  intros st. by destruct (deliver_spec evs st) as (st' & t & -> & _ & _ & _ & H & _).
Qed.

Lemma portInUse_shrinks {W} (os : OS W) port host :
  respects shrinks (portInUse os port host).
Proof.
  intros st.
  by destruct (portInUse_run os port host st)
    as (st' & t & -> & _ & _ & _ & _ & _ & H & _).
Qed.

Lemma scan_ports_shrinks {W} (os : OS W) host desiredPort availablePort :
  respects shrinks (scan_ports os host desiredPort availablePort).
Proof.
  apply scan_ports_respects; [apply _ .. | |].
  - intros port. apply portInUse_shrinks.
  - intros lvl msg st x Hx. exact Hx.
Qed.

(** What a successful [startServer] tracks: the new pid, and what was left
    after its [stopAllServers] at most. *)
Lemma startServer_tracks {W} (os : OS W) expose port (st : State W) url pid :
  (startServer os expose port st).1 = Ok (url, pid) →
  ∃ left,
    serverPIDs (reg (startServer os expose port st).2) = set_add pid left ∧
    left ⊆ serverPIDs (reg (stopAllServers os st).2).
Proof.
  unfold startServer. rewrite bind_run.
  destruct (stopAllServers os st) as [[[] | e0] st1]; simpl; [| done].
  unfold_prog. simpl.
  destruct (pythonInstalled os (world st1)); simpl; [| done].
  destruct (packageInstalled os "open-webui" (world st1)); simpl; [| done].
  unfold launch_env. simpl.
  destruct (launchEnv os (world st1)) as [[] w2]; simpl; [| done].
  match goal with
  | |- context [scan_ports os ?h ?d ?a ?s] =>
      pose proof (scan_ports_shrinks os h d a s) as Hsh;
      destruct (scan_ports os h d a s) as [[availablePort | e] st2]; simpl; [| done]
  end.
  unfold spawn_child. simpl.
  destruct (spawn os _ (world st2)) as [[q |] w4]; simpl; [| done].
  destruct (decide (q = 0)); simpl; [done |].
  intros [= _ <-]. by exists (serverPIDs (reg st2)).
Qed.




(** ** Starting without the runtime *)

Lemma startServer_precondition {W} (os : OS W) expose port (st : State W) :
  serverPIDs (reg st) = [] →
  pythonInstalled os (world st) && packageInstalled os "open-webui" (world st)
    = false →
  ∃ message,
    PreconditionError message ∧
    startServer os expose port st
    = (Throw message,
       {| world := world st; reg := reg st; shell := shell st;
          mainLog := mainLog st ++ [(Info, MsgStoppingAll); (Info, MsgNoServers)];
          trace := trace st |}).
Proof.
  intros Hempty Hmissing. unfold startServer.
  rewrite bind_run, (stopAllServers_idle os st Hempty).
  unfold_prog. simpl.
  destruct (pythonInstalled os (world st)); simpl.
  - destruct (packageInstalled os "open-webui" (world st)); [done |]. simpl.
    eexists. split; [by right | done].
  - eexists. split; [by left | done].
Qed.

(** C8.  With nothing tracked and the runtime or the package missing,
    [startServer] throws "Python is not installed" or "open-webui package is
    not installed" and leaves the registries and the trace as they were
    (nothing is spawned); [startServerHandler] returns [false] with
    [SERVER_STATUS = "failed"], no pid tracked, no log entry added and only
    listener events in its trace; when the configuration could be read, the
    error it logs is that precondition error. *)
Theorem start_without_runtime_fails {W} (os : OS W) (st : State W) :
  serverPIDs (reg st) = [] →
  pythonInstalled os (world st) && packageInstalled os "open-webui" (world st)
    = false →
  (let w := (readConfig os (world st)).2 in
   pythonInstalled os w && packageInstalled os "open-webui" w = false) →
  (∀ expose port,
     ∃ message,
       PreconditionError message ∧
       (startServer os expose port st).1 = Throw message ∧
       reg (startServer os expose port st).2 = reg st ∧
       trace (startServer os expose port st).2 = trace st) ∧
  (let r := startServerHandler os st in
   r.1 = Ok false ∧
   SERVER_STATUS (shell r.2) = Some "failed" ∧
   serverPIDs (reg r.2) = [] ∧
   serverLogs (reg r.2) = serverLogs (reg st) ∧
   (∃ t, trace r.2 = trace st ++ t ∧ Forall listener_only t) ∧
   ((readConfig os (world st)).1.1 ≠ None →
    ∃ message, PreconditionError message ∧
               last (mainLog r.2) = Some (Error, MsgStartFailed message))).
Proof.
  intros Hempty Hnow Hlater. split.
  - intros expose port.
    destruct (startServer_precondition os expose port st Hempty Hnow)
      as (message & Hpre & ->).
    by exists message.
  - unfold startServerHandler, stopServerHandler, try_catch.
    rewrite !bind_run, (stopAllServers_idle os st Hempty).
    unfold_prog. simpl. unfold getConfig. simpl.
    destruct (readConfig os (world st)) as [[cfg cevs] w]. simpl in Hlater.
    unfold_prog. simpl.
    match goal with
    | |- context [deliver cevs ?s] =>
        destruct (deliver_spec cevs s)
          as (st1 & t & -> & (Hw & Hlog & Hshell) & Ht & Hlo & Hsh & Hlogs)
    end. simpl in *.
    assert (serverPIDs (reg st1) = []) as Hnone.
    { apply list_nil_subseteq. unfold shrinks in Hsh. simpl in Hsh.
      by rewrite <- Hempty. }
    destruct cfg as [cfg |]; simpl.
    + rewrite <- Hw in Hlater.
      destruct (startServer_precondition os (default false cfg.1)
                  (nullish_port cfg.2) st1 Hnone Hlater) as (message & Hpre & ->).
      simpl. split_and!; [done .. | by exists t |].
      intros _. exists message. split; [done |]. by rewrite last_snoc.
    + split_and!; [done .. | by exists t | done].
Qed.

Lemma start_without_runtime_witness :
  let os := Toy.os Posix [] in
  let st := Toy.init Toy.bare Toy.empty_registry in
  (serverPIDs (reg st) = [] ∧
   pythonInstalled os (world st) && packageInstalled os "open-webui" (world st)
     = false ∧
   (let w := (readConfig os (world st)).2 in
    pythonInstalled os w && packageInstalled os "open-webui" w = false)) ∧
  (∀ expose port,
     ∃ message,
       PreconditionError message ∧
       (startServer os expose port st).1 = Throw message ∧
       reg (startServer os expose port st).2 = reg st ∧
       trace (startServer os expose port st).2 = trace st) ∧
  (let r := startServerHandler os st in
   r.1 = Ok false ∧
   SERVER_STATUS (shell r.2) = Some "failed" ∧
   serverPIDs (reg r.2) = [] ∧
   serverLogs (reg r.2) = serverLogs (reg st) ∧
   (∃ t, trace r.2 = trace st ++ t ∧ Forall listener_only t) ∧
   ((readConfig os (world st)).1.1 ≠ None →
    ∃ message, PreconditionError message ∧
               last (mainLog r.2) = Some (Error, MsgStartFailed message))).
Proof.
  intros os st.
  assert (serverPIDs (reg st) = []) as H1 by reflexivity.
  assert (pythonInstalled os (world st)
          && packageInstalled os "open-webui" (world st) = false) as H2
    by reflexivity.
  assert (let w := (readConfig os (world st)).2 in
          pythonInstalled os w && packageInstalled os "open-webui" w = false) as H3
    by reflexivity.
  split; [repeat split; assumption |].
  exact (start_without_runtime_fails os st H1 H2 H3).
Defined.

Example start_without_runtime_scenario :
  let r := startServerHandler (Toy.os Posix [])
             (Toy.init Toy.bare Toy.empty_registry) in
  r.1 = Ok false ∧
  shell r.2 = {| SERVER_STATUS := Some "failed"; SERVER_URL := None;
                 SERVER_PID := None; SERVER_REACHABLE := false |} ∧
  mainLog r.2
  = [(Info, MsgStoppingAll); (Info, MsgNoServers);
     (Info, MsgStoppingAll); (Info, MsgNoServers);
     (Error, MsgStartFailed "Python is not installed")] ∧
  trace r.2 = [].
Proof. by vm_compute. Qed.

(** ** Logs and stopping *)

Lemma replay_logs_without_set (t : list Event) (m : gmap Z nat) (pid : Z) :
  Forall (λ e, ∀ q h, e ≠ TLogsSet q h) t →
  (TLogsDelete pid ∈ t ∧ replay_logs t m !! pid = None) ∨
  ((TLogsDelete pid ∉ t) ∧ replay_logs t m !! pid = m !! pid).
Proof.
  revert m. induction t as [| e t IH]; intros m Ht.
  { right. split; [apply not_elem_of_nil | done]. }
  inversion_clear Ht as [| ? ? He Ht'].
  change (e :: t) with ([e] ++ t). rewrite replay_logs_app.
  destruct (IH (replay_logs [e] m) Ht') as [[Hin H] | [Hout H]]; rewrite H.
  { left. split; [by apply elem_of_app; right | done]. }
  destruct (decide (e = TLogsDelete pid)) as [-> | Hne].
  - left. split; [by apply elem_of_app; left; left |]. apply lookup_delete_eq.
  - right. split.
    + intros [Hin | Hin]%elem_of_app; [| by apply Hout].
      by apply list_elem_of_singleton in Hin.
    + destruct e; try done.
      * by destruct (He pid0 h).
      * simpl. apply lookup_delete_ne. congruence.
Qed.

Lemma no_set_in_stop_chunk c :
  stop_chunk c → Forall (λ e, ∀ q h, e ≠ TLogsSet q h) c.
Proof.
  destruct 1 as [c1 [c2 [c3 [] | | |] |] | |]; repeat constructor; discriminate.
Qed.

(** What [stopAllServers] does to the log of any pid: either its final pass
    deleted the entry, and [getServerLog] is empty afterwards, or the entry
    is the one from before the call. *)
Lemma stop_deletes_or_keeps_log {W} (os : OS W) (st : State W) (pid : Z) :
  let after := (stopAllServers os st).2 in
  ∃ t, trace after = trace st ++ t ∧
       ((TLogsDelete pid ∈ t ∧ getServerLog pid (reg after) = []) ∨
        ((TLogsDelete pid ∉ t) ∧
         serverLogs (reg after) !! pid = serverLogs (reg st) !! pid)).
Proof.
  intros after.
  destruct (stopAllServers_traced os _ no_set_in_stop_chunk st)
    as (t & Ht & Hno & _ & Hlogs).
  exists t. split; [done |]. fold after in Hlogs.
  destruct (replay_logs_without_set t (serverLogs (reg st)) pid Hno)
    as [[Hin H] | [Hout H]]; rewrite <- Hlogs in H.
  - left. split; [done |]. unfold getServerLog. by rewrite H.
  - by right.
Qed.

(** C1 fails on the code.  A tracked server with one line in its log exits
    on SIGTERM; the final pass of [stopAllServers] finds it dead and deletes
    its entry from [serverLogs], so that [getServerLog] returns the empty list
    afterwards.  The [logLines] array itself, now out of reach, holds the line
    and the exit line that the close listener appended during the pause. *)
Theorem stop_deletes_log_of_stopped_server :
  let os := Toy.os Posix [] in
  let st := Toy.init (Toy.one_server true true) Toy.tracking in
  let after := stopAllServers os st in
  serverPIDs (reg st) = [4242] ∧
  getServerLog 4242 (reg st) = ["[stdout][PID:4242]: ready"] ∧
  after.1 = Ok tt ∧
  getServerLog 4242 (reg after.2) = [] ∧
  logLines <$> children (reg after.2) !! 0%nat
  = Some ["[stdout][PID:4242]: ready";
          "[process][PID:4242] Exited with code null signal SIGTERM"] ∧
  trace after.2
  = [TKill (-4242) SIGTERM true; TSleep 500;
     TChild 0 4242 (EvClose None (Some "SIGTERM")); TPidsDelete 4242;
     TKill 4242 SIG0 false; TKill (-4242) SIGKILL false; TKill 4242 SIG0 false;
     TSleep 2000; TKill (-4242) SIGKILL false; TKill 4242 SIG0 false;
     TKill 4242 SIG0 false; TPidsDelete 4242; TLogsDelete 4242].
Proof. by vm_compute. Qed.

(** * Further properties of the supervision code *)

(** ** Relations that every step respects

    A relation on states that ignores the world, the main log and the trace,
    and that the listeners, the registration of a new child and the final
    cleanup of a dead pid respect, is respected by every function of the
    supervision code. *)

Section Stepwise.
Context {W : Type} (os : OS W).
Context (R : relation (State W)) `{!Reflexive R, !Transitive R}.
Context (Hframe : ∀ st st' : State W,
           reg st' = reg st → shell st' = shell st →
           (∃ l, mainLog st' = mainLog st ++ l) →
           (∃ t, trace st' = trace st ++ t) → R st st').
Context (Hlistener : ∀ ev, respects R (on_child_event (W:=W) ev)).
Context (Hcleanup : ∀ pid, respects R (pids_delete (W:=W) pid;; logs_delete pid)).
Context (Hregister : ∀ pid,
           respects R (h ← new_child (W:=W) pid; pids_add pid;; logs_set pid h)).

Lemma frame_step (st st' : State W) l t :
  reg st' = reg st → shell st' = shell st →
  mainLog st' = mainLog st ++ l → trace st' = trace st ++ t → R st st'.
Proof. intros. apply Hframe; eauto. Qed.

Lemma log_respects lvl msg : respects R (log (W:=W) lvl msg).
Proof. intros st. by apply (frame_step _ _ [(lvl, msg)] []); rewrite ?app_nil_r. Qed.

Lemma process_kill_respects pid sig : respects R (process_kill os pid sig).
Proof.
  intros st. rewrite process_kill_run.
  by eapply (frame_step _ _ [] [_]); rewrite ?app_nil_r.
Qed.

Lemma exec_sync_respects cmd : respects R (exec_sync os cmd).
Proof.
  intros st. rewrite exec_sync_run.
  by eapply (frame_step _ _ [] [_]); rewrite ?app_nil_r.
Qed.

Lemma spawn_child_respects args : respects R (spawn_child os args).
Proof.
  intros st. unfold spawn_child.
  destruct (spawn os args (world st)) as [pid w].
  by eapply (frame_step _ _ [] [_]); rewrite ?app_nil_r.
Qed.

Lemma launch_env_respects : respects R (launch_env os).
Proof.
  intros st. unfold launch_env.
  destruct (launchEnv os (world st)) as [[] w];
    by eapply (frame_step _ _ [] []); rewrite ?app_nil_r.
Qed.

Lemma deliver_respects evs : respects R (deliver (W:=W) evs).
Proof. apply respects_for_each; [apply _ .. |]. apply Hlistener. Qed.

Lemma sleep_respects ms : respects R (sleep os ms).
Proof.
  intros st. unfold sleep.
  destruct (sleep_wait os ms (world st)) as [evs w].
  unfold_prog. simpl.
  etrans; [| apply deliver_respects].
  by eapply (frame_step _ _ [] [_]); rewrite ?app_nil_r.
Qed.

Lemma portInUse_respects port host : respects R (portInUse os port host).
Proof.
  intros st. unfold portInUse.
  destruct (connect os port host probe_timeout_ms (world st)) as [[evs cevs] w].
  unfold_prog. simpl.
  match goal with
  | |- context [deliver cevs ?s] => pose proof (deliver_respects cevs s) as Hd
  end.
  destruct (deliver cevs _) as [[[] | e] st1]; simpl in *;
    (etrans; [| exact Hd]);
    by eapply (frame_step _ _ [] [_]); rewrite ?app_nil_r.
Qed.

Lemma getConfig_respects : respects R (getConfig os).
Proof.
  intros st. unfold getConfig.
  destruct (readConfig os (world st)) as [[cfg cevs] w].
  unfold_prog. simpl.
  match goal with
  | |- context [deliver cevs ?s] => pose proof (deliver_respects cevs s) as Hd
  end.
  assert (R st (set_world w st)) as H0
    by (by eapply (frame_step _ _ [] []); rewrite ?app_nil_r).
  destruct (deliver cevs _) as [[[] | e] st1]; simpl in *;
    [destruct cfg |]; by etrans.
Qed.

Lemma isProcessRunning_respects pid : respects R (isProcessRunning os pid).
Proof.
  intros st. rewrite isProcessRunning_run.
  by eapply (frame_step _ _ [] [_]); rewrite ?app_nil_r.
Qed.

Lemma terminateWindows_respects pid forceKill :
  respects R (terminateWindows os pid forceKill).
Proof.
  pose proof log_respects. pose proof exec_sync_respects. pose proof sleep_respects.
  unfold terminateWindows. runs.
Qed.

Lemma terminateUnix_respects pid forceKill :
  respects R (terminateUnix os pid forceKill).
Proof.
  pose proof log_respects. pose proof process_kill_respects.
  pose proof sleep_respects. pose proof isProcessRunning_respects.
  unfold terminateUnix. runs.
Qed.

Lemma retry_loop_respects pid forceKill attempts :
  respects R (retry_loop os pid forceKill attempts).
Proof.
  pose proof log_respects. pose proof sleep_respects.
  pose proof isProcessRunning_respects.
  pose proof terminateWindows_respects. pose proof terminateUnix_respects.
  induction attempts as [| attempt rest IH]; simpl; runs.
Qed.

Lemma terminateProcessTree_respects pid forceKill :
  respects R (terminateProcessTree os pid forceKill).
Proof. apply retry_loop_respects. Qed.

Lemma verify_and_cleanup_respects pid : respects R (verify_and_cleanup os pid).
Proof.
  pose proof log_respects. pose proof isProcessRunning_respects.
  unfold verify_and_cleanup. runs.
Qed.

Lemma stopAllServers_respects : respects R (stopAllServers os).
Proof.
  pose proof log_respects. pose proof sleep_respects.
  pose proof terminateProcessTree_respects. pose proof verify_and_cleanup_respects.
  unfold stopAllServers. runs.
Qed.

Lemma register_then_respects {A} pid (k : M W A) :
  respects R k →
  respects R (h ← new_child pid; pids_add pid;; logs_set pid h;; k).
Proof.
  intros Hk st.
  change ((h ← new_child pid; pids_add pid;; logs_set pid h;; k) st)
    with (k ((h ← new_child pid; pids_add pid;; logs_set pid h) st).2).
  etrans; [apply Hregister | apply Hk].
Qed.

Lemma startServer_respects expose port : respects R (startServer os expose port).
Proof.
  pose proof log_respects. pose proof launch_env_respects.
  pose proof spawn_child_respects. pose proof stopAllServers_respects.
  assert (∀ host d a, respects R (scan_ports os host d a)) as Hscan.
  { intros. apply scan_ports_respects; [apply _ .. | |]; intros; auto using portInUse_respects. }
  unfold startServer. cbv zeta.
  repeat first
    [ apply register_then_respects
    | solve [eauto 9 with runs]
    | step_run ].
Qed.

Section Handlers.
Context (Hshell : ∀ f, respects R (modify_shell (W:=W) f)).

Lemma stopServerHandler_respects : respects R (stopServerHandler os).
Proof.
  pose proof log_respects. pose proof stopAllServers_respects.
  unfold stopServerHandler. runs.
Qed.

Lemma startServerHandler_respects : respects R (startServerHandler os).
Proof.
  pose proof log_respects. pose proof stopServerHandler_respects.
  pose proof startServer_respects. pose proof getConfig_respects.
  unfold startServerHandler. runs.
Qed.

Lemma perform_respects op : respects R (perform os op).
Proof.
  pose proof stopAllServers_respects. pose proof terminateProcessTree_respects.
  pose proof deliver_respects. pose proof startServer_respects.
  pose proof stopServerHandler_respects. pose proof startServerHandler_respects.
  destruct op; simpl; runs.
Qed.
End Handlers.
End Stepwise.

(** ** The shell variables *)

Lemma same_shell_refl {W} : Reflexive (same_shell (W:=W)).
Proof. by intros st. Qed.

Lemma same_shell_trans {W} : Transitive (same_shell (W:=W)).
Proof. intros st1 st2 st3 H1 H2. unfold same_shell in *. congruence. Qed.

#[export] Existing Instances same_shell_refl same_shell_trans.

Section SameShell.
Context {W : Type} (os : OS W).

Lemma on_child_event_same_shell ev :
  respects same_shell (on_child_event (W:=W) ev).
Proof. intros st. by destruct (on_child_event_inside ev st) as (_ & _ & ?). Qed.

Lemma stopAllServers_same_shell : respects same_shell (stopAllServers os).
Proof.
  apply stopAllServers_respects; [apply _ .. | | |]; try done.
  apply on_child_event_same_shell.
Qed.

Lemma startServer_same_shell expose port :
  respects same_shell (startServer os expose port).
Proof.
  apply startServer_respects; [apply _ .. | | | |]; try done.
  apply on_child_event_same_shell.
Qed.

Lemma getConfig_same_shell : respects same_shell (getConfig os).
Proof.
  apply getConfig_respects; [apply _ .. | |]; try done.
  apply on_child_event_same_shell.
Qed.

(** [stopServerHandler], run: its [try] never reaches the handler. *)
Lemma stopServerHandler_run (st : State W) :
  ∃ st1, stopAllServers os st = (Ok tt, st1) ∧ shell st1 = shell st ∧
         stopServerHandler os st
         = (Ok true,
            set_shell (set_url None (set_reachable false
                         (if truthy (SERVER_STATUS (shell st1))
                          then set_status (Some "stopped") (shell st1)
                          else shell st1))) st1).
Proof.
  pose proof (never_throws_unit _ st (stopAllServers_never_throws os)) as Hr.
  pose proof (stopAllServers_same_shell st) as Hs.
  unfold stopServerHandler, try_catch. rewrite bind_run.
  destruct (stopAllServers os st) as [r st1]. simpl in Hr, Hs. subst r.
  exists st1. split_and!; [done | done |].
  by destruct st1.
Qed.
End SameShell.

(** X1.  [stopServerHandler] always returns [true]: [stopAllServers] cannot
    throw, so the [catch] that returns [false] is never entered, whether or not
    the servers could be stopped.  On return [SERVER_URL] is [null] and
    [SERVER_REACHABLE] is [false], [SERVER_PID] is what it was, and
    [SERVER_STATUS] is "stopped" when it was set before and is left alone when
    it was [null] or empty. *)
Theorem stopServerHandler_returns_true {W} (os : OS W) (st : State W) :
  let r := stopServerHandler os st in
  r.1 = Ok true ∧
  SERVER_URL (shell r.2) = None ∧
  SERVER_REACHABLE (shell r.2) = false ∧
  SERVER_PID (shell r.2) = SERVER_PID (shell st) ∧
  SERVER_STATUS (shell r.2)
  = (if truthy (SERVER_STATUS (shell st)) then Some "stopped"
     else SERVER_STATUS (shell st)) ∧
  reg r.2 = reg (stopAllServers os st).2.
Proof.
  intros r. subst r.
  destruct (stopServerHandler_run os st) as (st1 & Hstop & Hshell & ->).
  rewrite Hstop, Hshell. simpl.
  destruct (truthy (SERVER_STATUS (shell st))); by split_and!.
Qed.

(** ** The port scan, probe by probe *)

Lemma probed_ports_connect port host timeout evs t :
  Forall listener_only t →
  probed_ports (TConnect port host timeout evs :: t) = [port].
Proof.
  intros Ht. change (probed_ports (TConnect port host timeout evs :: t))
    with (port :: probed_ports t).
  by rewrite (quiet_listener_only t).
Qed.

(** The scan probes consecutive ports; it returns the last port it probed,
    and gives up after the probe of [desiredPort + 100]. *)
Lemma scan_ports_outcome {W} (os : OS W) host desiredPort availablePort
    (st : State W) :
  availablePort ≤ desiredPort + 100 →
  ∃ t (n : nat),
    trace (scan_ports os host desiredPort availablePort st).2 = trace st ++ t ∧
    probed_ports t = seqZ availablePort (Z.of_nat n) ∧
    (1 ≤ n)%nat ∧
    match (scan_ports os host desiredPort availablePort st).1 with
    | Ok p => p = availablePort + Z.of_nat n - 1 ∧ p ≤ desiredPort + 100
    | Throw e => e = PortExhausted ∧
                 availablePort + Z.of_nat n = desiredPort + 101
    end.
Proof.
  funelim (scan_ports os host desiredPort availablePort st); clear Heqcall;
    intros Hle;
    match goal with
    | E : portInUse _ _ _ _ = _ |- _ =>
        destruct (portInUse_run os availablePort host st)
          as (st' & t & Hrun & _ & _ & _ & Ht & Hlo & _);
        rewrite E in Hrun
    end;
    simplify_eq/=.
  - exists (TConnect availablePort host probe_timeout_ms
              ((connect os availablePort host probe_timeout_ms (world st)).1.1.1
               :: (connect os availablePort host probe_timeout_ms (world st)).1.1.2)
            :: t), 1%nat.
    split_and!; [done | by apply probed_ports_connect | lia | lia | lia].
  - exists (TConnect availablePort host probe_timeout_ms
              ((connect os availablePort host probe_timeout_ms (world st)).1.1.1
               :: (connect os availablePort host probe_timeout_ms (world st)).1.1.2)
            :: t), 1%nat.
    split_and!; [done | by apply probed_ports_connect | lia | done | lia].
  - destruct H as (t2 & k & Ht2 & Hp2 & Hn & Hres); [lia |].
    simpl in Ht2.
    eexists (_ :: t ++ t2), (S k).
    split_and!.
    + rewrite Ht2, Ht, <- !app_assoc. done.
    + rewrite app_comm_cons, probed_ports_app, probed_ports_connect, Hp2 by done.
      rewrite (seqZ_cons availablePort) by lia. simpl. do 2 f_equal; lia.
    + lia.
    + destruct (scan_ports os host desiredPort (availablePort + 1) _).1
        as [p | e]; [split | split]; try tauto; lia.
Qed.

(** ** What a start does, step by step *)

Lemma plain_listener_chunk c :
  listener_chunk c → Forall (λ e, ¬ registers e ∧ ¬ spawns e) c.
Proof. destruct 1; repeat constructor; simpl; tauto. Qed.

Lemma plain_stop_chunk c :
  stop_chunk c → Forall (λ e, ¬ registers e ∧ ¬ spawns e) c.
Proof.
  destruct 1 as [c1 [c2 [c3 Hc | | |] |] | |];
    [by apply plain_listener_chunk | ..]; repeat constructor; simpl; tauto.
Qed.

Lemma plain_probe_chunk c :
  probe_chunk c → Forall (λ e, ¬ registers e ∧ ¬ spawns e) c.
Proof.
  destruct 1; [by apply plain_listener_chunk |]; repeat constructor; simpl; tauto.
Qed.

Lemma quiet_plain_stop_chunk c :
  stop_chunk c → quiet c ∧ Forall (λ e, ¬ registers e ∧ ¬ spawns e) c.
Proof. split; [by apply quiet_stop_chunk | by apply plain_stop_chunk]. Qed.

(** Every run of [startServer]: the segment [t] of the implicit stop and of
    the port scan, and what follows it. *)
Lemma startServer_outcome {W} (os : OS W) (expose : bool) (port : PortArg)
    (st : State W) :
  let host := if expose then "0.0.0.0" else "127.0.0.1" in
  let d := desired_port port in
  let r := startServer os expose port st in
  ∃ (t : list Event) (n : nat),
    probed_ports t = seqZ d (Z.of_nat n) ∧ (n ≤ 101)%nat ∧
    Forall (λ e, ¬ registers e ∧ ¬ spawns e) t ∧
    match r.1 with
    | Ok (url, pid) =>
        ∃ st2 : State W,
          (1 ≤ n)%nat ∧ pid ≠ 0 ∧
          url = "http://" +:+ host +:+ ":" +:+ show_Z (d + Z.of_nat n - 1) ∧
          trace st2 = trace st ++ t ∧
          trace r.2
          = trace st2 ++ [TSpawn (server_args host (d + Z.of_nat n - 1)) (Some pid);
                          TPidsAdd pid;
                          TLogsSet pid (length (children (reg st2)))] ∧
          reg r.2 = registered pid (reg st2)
    | Throw e =>
        ∃ t', trace r.2 = trace st ++ t ++ t' ∧
              (t' = [] ∨
               ∃ args q, t' = [TSpawn args q] ∧ (q = None ∨ q = Some 0) ∧
                         e = "Failed to start server: No PID available") ∧
              (e = PortExhausted → n = 101%nat ∧ t' = [])
    end.
Proof.
  intros host d r. subst r. unfold startServer. rewrite bind_run.
  pose proof (never_throws_unit _ st (stopAllServers_never_throws os)) as Hr.
  destruct (stopAllServers_traced os _ quiet_plain_stop_chunk st)
    as (t0 & Ht0 & [Hq0 Hf0] & _).
  destruct (stopAllServers os st) as [r0 st1]. simpl in Hr, Ht0. subst r0.
  assert (∀ e (st' : State W), trace st' = trace st1 → e ≠ PortExhausted →
            ∃ (t : list Event) (n : nat),
              probed_ports t = seqZ d (Z.of_nat n) ∧ (n ≤ 101)%nat ∧
              Forall (λ e, ¬ registers e ∧ ¬ spawns e) t ∧
              ∃ t', trace st' = trace st ++ t ++ t' ∧
                (t' = [] ∨
                 ∃ args q, t' = [TSpawn args q] ∧ (q = None ∨ q = Some 0) ∧
                           e = "Failed to start server: No PID available") ∧
                (e = PortExhausted → n = 101%nat ∧ t' = [])) as Hearly.
  { intros e st' Htr Hne. exists t0, 0%nat. split_and!; [done | lia | done |].
    exists []. rewrite app_nil_r. split_and!; [congruence | by left | done]. }
  unfold_prog. simpl.
  destruct (pythonInstalled os (world st1)); simpl; [| by apply Hearly].
  destruct (packageInstalled os "open-webui" (world st1)); simpl;
    [| by apply Hearly].
  unfold launch_env. simpl.
  destruct (launchEnv os (world st1)) as [[] w2]; simpl; [| by apply Hearly].
  fold d.
  match goal with
  | |- context [scan_ports os ?h ?dd ?a ?s] =>
      destruct (scan_ports_outcome os h dd a s ltac:(lia))
        as (ts & n & Hts & Hps & Hn & Hres);
      destruct (scan_ports_traced os _ h dd a plain_probe_chunk s)
        as (ts' & Hts' & Hfs & _ & _);
      destruct (scan_ports os h dd a s) as [[p | e] st2]
  end; simpl in *.
  all: rewrite Hts in Hts'; apply app_inv_head in Hts' as <-.
  all: exists (t0 ++ ts), n.
  all: assert (probed_ports (t0 ++ ts) = seqZ d (Z.of_nat n)) as Hprobed
         by (by rewrite probed_ports_app, Hq0).
  all: assert (Forall (λ e, ¬ registers e ∧ ¬ spawns e) (t0 ++ ts)) as Hplain
         by (by apply Forall_app).
  all: assert (trace st2 = trace st ++ t0 ++ ts) as Htrace
         by (by rewrite Hts, Ht0, <- app_assoc).
  2: { destruct Hres as [-> Hlast].
       split_and!; [done | lia | done |].
       exists []. rewrite app_nil_r. split_and!; [done | by left |].
       intros _. split; [lia | done]. }
  destruct Hres as [-> Hp].
  split_and!; [done | lia | done |].
  unfold spawn_child. simpl.
  destruct (spawn os _ (world st2)) as [[pid |] w4]; simpl.
  - destruct (decide (pid = 0)) as [-> | Hpid]; simpl.
    + eexists [_]. split_and!; [by rewrite Htrace, <- !app_assoc | | done].
      right. eexists _, _. split_and!; [done | by right | done].
    + exists st2. split_and!; [lia | done | | done | | done].
      * subst host. by destruct expose.
      * subst host. rewrite <- !app_assoc. by destruct expose.
  - eexists [_]. split_and!; [by rewrite Htrace, <- !app_assoc | | done].
    right. eexists _, _. split_and!; [done | by left | done].
Qed.

Lemma replay_pids_plain (t : list Event) (s : list Z) :
  Forall (λ e, ¬ registers e) t → replay_pids t s ⊆ s.
Proof.
  revert s. induction t as [| e t IH]; intros s Ht; [done |].
  inversion_clear Ht as [| ? ? He Ht']. simpl.
  destruct e; simpl in He; try done; try by apply IH.
  etrans; [by apply IH | apply set_delete_subseteq].
Qed.

Lemma replay_logs_plain (t : list Event) (m : gmap Z nat) :
  Forall (λ e, ¬ registers e) t → dom (replay_logs t m) ⊆ dom m.
Proof.
  revert m. induction t as [| e t IH]; intros m Ht; [done |].
  inversion_clear Ht as [| ? ? He Ht']. simpl.
  destruct e; simpl in He; try done; try by apply IH.
  etrans; [by apply IH |]. rewrite dom_delete. by apply subseteq_difference_l.
Qed.

(** X2.  Every run of [startServer] connects to consecutive ports from
    [port || 8080] on, to each at most once and to 101 ports at most, so never
    to a port above the desired one plus 100; when it throws "No available
    ports found" it has probed all 101 of them, and it has spawned nothing. *)
Theorem startServer_probes_at_most_101_ports {W} (os : OS W)
    (expose : bool) (port : PortArg) (st : State W) :
  let r := startServer os expose port st in
  let d := desired_port port in
  ∃ (t : list Event) (n : nat),
    trace r.2 = trace st ++ t ∧
    probed_ports t = seqZ d (Z.of_nat n) ∧
    (n ≤ 101)%nat ∧
    NoDup (probed_ports t) ∧
    Forall (λ p, d ≤ p ≤ d + 100) (probed_ports t) ∧
    (r.1 = Throw PortExhausted →
     n = 101%nat ∧ Forall (λ e, ¬ spawns e) t).
Proof.
  intros r d.
  destruct (startServer_outcome os expose port st)
    as (t & n & Hprobed & Hn & Hplain & Hres).
  fold r d in Hres, Hprobed.
  assert (∀ t', probed_ports t' = [] →
                probed_ports (t ++ t') = seqZ d (Z.of_nat n)) as Happ.
  { intros t' Hq. by rewrite probed_ports_app, Hq, app_nil_r. }
  assert (NoDup (seqZ d (Z.of_nat n)) ∧
          Forall (λ p, d ≤ p ≤ d + 100) (seqZ d (Z.of_nat n))) as [Hnd Hrange].
  { split; [apply NoDup_seqZ |].
    apply Forall_forall. intros p Hp%elem_of_seqZ. lia. }
  destruct r.1 as [[url pid] | e] eqn:Hr.
  - destruct Hres as (st2 & _ & _ & _ & Ht2 & Htr & _).
    match type of Htr with _ = _ ++ ?tl => exists (t ++ tl), n end.
    rewrite Htr, Ht2, <- app_assoc, Happ by done.
    by split_and!.
  - destruct Hres as (t' & Htr & Ht' & Hex).
    exists (t ++ t'), n.
    assert (probed_ports t' = []) as Hq'.
    { by destruct Ht' as [-> | (args & q & -> & _)]. }
    rewrite Htr, Happ by done. split_and!; [done .. |].
    intros [= ->]. destruct (Hex eq_refl) as [-> ->].
    split; [done |]. rewrite app_nil_r.
    eapply Forall_impl; [exact Hplain |]. simpl. tauto.
Qed.

(** X3.  When [startServer] returns, the URL it returns, the command line it
    spawned and the port scan agree: the host is 0.0.0.0 when [expose] is set
    and 127.0.0.1 otherwise, in the URL and after [--host]; the port, in the
    URL and after [--port], is the last port the scan probed, which lies
    between [port || 8080] and that plus 100; exactly one process was
    spawned, with that command line, and the pid returned is its pid. *)
Theorem started_url_matches_command_line {W} (os : OS W)
    (expose : bool) (port : PortArg) (st : State W) (url : string) (pid : Z) :
  let r := startServer os expose port st in
  let host := if expose then "0.0.0.0" else "127.0.0.1" in
  r.1 = Ok (url, pid) →
  ∃ (t : list Event) (p : Z),
    trace r.2 = trace st ++ t ∧
    desired_port port ≤ p ≤ desired_port port + 100 ∧
    last (probed_ports t) = Some p ∧
    url = "http://" +:+ host +:+ ":" +:+ show_Z p ∧
    filter spawns t = [TSpawn (server_args host p) (Some pid)] ∧
    pid ≠ 0.
Proof.
  intros r host Hok.
  destruct (startServer_outcome os expose port st)
    as (t & n & Hprobed & Hn & Hplain & Hres).
  fold r host in Hres. rewrite Hok in Hres.
  destruct Hres as (st2 & Hn1 & Hpid & -> & Ht2 & Htr & _).
  match type of Htr with _ = _ ++ ?tl => exists (t ++ tl) end.
  exists (desired_port port + Z.of_nat n - 1).
  split_and!; [by rewrite Htr, Ht2, <- app_assoc | lia | lia | | done | | done].
  - rewrite probed_ports_app, app_nil_r, Hprobed.
    destruct n as [| n]; [lia |].
    rewrite seqZ_S, last_snoc. f_equal. lia.
  - rewrite filter_app.
    assert (filter spawns t = []) as ->.
    { clear -Hplain. induction Hplain as [| e t [_ He] _ IH]; [done |].
      by rewrite filter_cons_False. }
    done.
Qed.

Lemma started_url_matches_command_line_witness :
  let os := Toy.os Posix [8080] in
  let st := Toy.init Toy.fresh Toy.empty_registry in
  let r := startServer os true PNull st in
  r.1 = Ok ("http://0.0.0.0:8081", 4242) ∧
  ∃ (t : list Event) (p : Z),
    trace r.2 = trace st ++ t ∧
    8080 ≤ p ≤ 8080 + 100 ∧
    last (probed_ports t) = Some p ∧
    "http://0.0.0.0:8081" = "http://" +:+ "0.0.0.0" +:+ ":" +:+ show_Z p ∧
    filter spawns t = [TSpawn (server_args "0.0.0.0" p) (Some 4242)] ∧
    4242 ≠ 0.
Proof.
  intros os st r.
  assert (r.1 = Ok ("http://0.0.0.0:8081", 4242)) as Hok
    by (vm_compute; reflexivity).
  split; [exact Hok |].
  exact (started_url_matches_command_line os true PNull st _ _ Hok).
Defined.

(** X4.  A start that throws leaves no trace in the registries: it added no
    pid to [serverPIDs] and no entry to [serverLogs] (both can only have
    shrunk, by the implicit stop and the close listeners).  It spawned a
    process only in the case where [spawn] gave it no pid, the error being
    then "Failed to start server: No PID available". *)
Theorem failed_start_registers_nothing {W} (os : OS W)
    (expose : bool) (port : PortArg) (st : State W) (e : string) :
  let r := startServer os expose port st in
  r.1 = Throw e →
  serverPIDs (reg r.2) ⊆ serverPIDs (reg st) ∧
  dom (serverLogs (reg r.2)) ⊆ dom (serverLogs (reg st)) ∧
  ∃ t, trace r.2 = trace st ++ t ∧
       Forall (λ ev, ¬ registers ev) t ∧
       (∀ args q, TSpawn args q ∈ t →
                  (q = None ∨ q = Some 0) ∧
                  e = "Failed to start server: No PID available").
Proof.
  intros r Hthrow.
  destruct (startServer_outcome os expose port st)
    as (t & n & Hprobed & Hn & Hplain & Hres).
  fold r in Hres. rewrite Hthrow in Hres.
  destruct Hres as (t' & Htr & Ht' & _).
  destruct (startServer_traced os anything (λ _ _, I) expose port st)
    as (T & HT & _ & Hpids & Hlogs).
  fold r in HT, Hpids, Hlogs.
  rewrite HT in Htr. apply app_inv_head in Htr as ->.
  assert (Forall (λ ev, ¬ registers ev) (t ++ t')) as Hno.
  { apply Forall_app. split.
    - eapply Forall_impl; [exact Hplain |]. simpl. tauto.
    - destruct Ht' as [-> | (args & q & -> & _)]; repeat constructor. tauto. }
  split_and!.
  - rewrite Hpids. by apply replay_pids_plain.
  - rewrite Hlogs. by apply replay_logs_plain.
  - exists (t ++ t'). split_and!; [done | done |].
    intros args q [Hin | Hin]%elem_of_app.
    + eapply Forall_forall in Hplain as [_ Hs]; [| exact Hin]. by destruct Hs.
    + destruct Ht' as [-> | (args' & q' & -> & Hq & ->)];
        [by apply elem_of_nil in Hin |].
      apply list_elem_of_singleton in Hin as [= -> ->]. done.
Qed.

Lemma failed_start_registers_nothing_witness :
  let os := Toy.os Posix [] in
  let st := Toy.init Toy.bare Toy.tracking in
  let r := startServer os false PNull st in
  r.1 = Throw "Python is not installed" ∧
  serverPIDs (reg r.2) ⊆ serverPIDs (reg st) ∧
  dom (serverLogs (reg r.2)) ⊆ dom (serverLogs (reg st)) ∧
  ∃ t, trace r.2 = trace st ++ t ∧
       Forall (λ ev, ¬ registers ev) t ∧
       (∀ args q, TSpawn args q ∈ t →
                  (q = None ∨ q = Some 0) ∧
                  "Python is not installed"
                  = "Failed to start server: No PID available").
Proof.
  intros os st r.
  assert (r.1 = Throw "Python is not installed") as Hthrow
    by (vm_compute; reflexivity).
  split; [exact Hthrow |].
  exact (failed_start_registers_nothing os false PNull st _ Hthrow).
Defined.

(** ** The log arrays only grow *)

Lemma grows_refl {W} : Reflexive (grows (W:=W)).
Proof. intros st h c Hc. by exists c. Qed.

Lemma grows_trans {W} : Transitive (grows (W:=W)).
Proof.
  intros st1 st2 st3 H1 H2 h c Hc.
  destruct (H1 h c Hc) as (c2 & Hc2 & Hp2 & Hl2).
  destruct (H2 h c2 Hc2) as (c3 & Hc3 & Hp3 & Hl3).
  exists c3. split_and!; [done | congruence | by etrans].
Qed.

#[export] Existing Instances grows_refl grows_trans.

Lemma same_children_grows {W} (st st' : State W) :
  children (reg st') = children (reg st) → grows st st'.
Proof. intros H h c Hc. exists c. by rewrite H. Qed.

Lemma on_child_event_grows {W} ev : respects grows (on_child_event (W:=W) ev).
Proof.
  intros st. unfold on_child_event.
  destruct (children (reg st) !! ev.1) as [c |] eqn:Hc; [| reflexivity].
  assert (∀ line (st' : State W),
            children (reg st') = alter (push_line line) ev.1 (children (reg st)) →
            grows st st') as Hpush.
  { intros line st' Hst' h c' Hc'. rewrite Hst'.
    destruct (decide (h = ev.1)) as [-> | Hne].
    - exists (push_line line c'). rewrite list_lookup_alter_eq, Hc'.
      split_and!; [done | done | by apply prefix_app_r].
    - exists c'. by rewrite list_lookup_alter_ne. }
  destruct ev as [h [src data | code signal | message]]; simpl in *;
    by eapply Hpush.
Qed.

Lemma perform_grows {W} (os : OS W) op : respects grows (perform os op).
Proof.
  apply perform_respects; [apply _ .. | | | | |].
  - intros st st' Hr _ _ _. apply same_children_grows. by rewrite Hr.
  - apply on_child_event_grows.
  - intros pid st. by apply same_children_grows.
  - intros pid st h c Hc. exists c. simpl.
    split_and!; [by apply lookup_app_l_Some | done | done].
  - intros f st. by apply same_children_grows.
Qed.

(** X5.  No operation of the supervision code (a start, a stop, a
    termination request, the listeners, either handler) drops or rewrites a
    line of a log: every [logLines] array that exists before the operation
    exists after it, for the same pid, with the old lines as a prefix of the
    new ones.  So as long as the entry of a pid in [serverLogs] is the same
    array, what [getServerLog] returned before is a prefix of what it returns
    after. *)
Theorem server_logs_only_grow {W} (os : OS W) (op : Operation) (st : State W) :
  let after := (perform os op st).2 in
  (∀ h c, children (reg st) !! h = Some c →
          ∃ c', children (reg after) !! h = Some c' ∧
                child_pid c' = child_pid c ∧
                logLines c `prefix_of` logLines c') ∧
  (∀ pid, serverLogs (reg after) !! pid = serverLogs (reg st) !! pid →
          getServerLog pid (reg st) `prefix_of` getServerLog pid (reg after)).
Proof.
  intros after. pose proof (perform_grows os op st) as Hg. fold after in Hg.
  split; [exact Hg |].
  intros pid Hsame. unfold getServerLog. rewrite Hsame.
  destruct (serverLogs (reg st) !! pid) as [h |]; [| done].
  destruct (children (reg st) !! h) as [c |] eqn:Hc; [| apply prefix_nil].
  destruct (Hg h c Hc) as (c' & -> & _ & Hpre). done.
Qed.

(** ** The registries fit together *)

Lemma preserves_refl {W} (I : Registry → Prop) : Reflexive (preserves (W:=W) I).
Proof. intros st H. exact H. Qed.

Lemma preserves_trans {W} (I : Registry → Prop) :
  Transitive (preserves (W:=W) I).
Proof. intros st1 st2 st3 H1 H2 H. apply H2, H1, H. Qed.

#[export] Existing Instances preserves_refl preserves_trans.

Lemma render_tagged pid ev : tagged pid (render pid ev).
Proof.
  destruct ev as [[] data | code signal | message].
  - exists "stdout", (": " +:+ trim data). split; [set_solver | done].
  - exists "stderr", (": " +:+ trim data). split; [set_solver | done].
  - exists "process", (" Exited with code " +:+ show_null show_Z code
                         +:+ " signal " +:+ show_null id signal).
    split; [set_solver | done].
  - exists "process", (" Error: " +:+ message). split; [set_solver | done].
Qed.

(** What a listener does to the registries. *)
Lemma on_child_event_reg {W} (ev : nat * ChildEvent) (st : State W) c :
  children (reg st) !! ev.1 = Some c →
  let r := reg (on_child_event ev st).2 in
  children r = alter (push_line (render (child_pid c) ev.2)) ev.1
                 (children (reg st)) ∧
  serverLogs r = serverLogs (reg st) ∧
  serverPIDs r = match ev.2 with
                 | EvClose _ _ => set_delete (child_pid c) (serverPIDs (reg st))
                 | _ => serverPIDs (reg st)
                 end.
Proof.
  intros Hc. unfold on_child_event. rewrite Hc.
  by destruct ev as [h [src data | code signal | message]].
Qed.

Lemma on_child_event_well_formed {W} ev :
  respects (preserves well_formed) (on_child_event (W:=W) ev).
Proof.
  intros st [Hlogged Hhandle Htagged].
  destruct (children (reg st) !! ev.1) as [c |] eqn:Hc; cycle 1.
  { unfold on_child_event. rewrite Hc. by split. }
  destruct (on_child_event_reg ev st c Hc) as (Hch & Hlogs & Hpids).
  split.
  - intros pid Hpid. rewrite Hlogs. apply Hlogged.
    rewrite Hpids in Hpid. destruct ev.2; try done.
    by apply elem_of_set_delete in Hpid as [_ ?].
  - intros pid h Hh. rewrite Hlogs in Hh. rewrite Hch.
    destruct (Hhandle pid h Hh) as (c' & Hc' & Hpid).
    destruct (decide (h = ev.1)) as [-> | Hne].
    + eexists. rewrite list_lookup_alter_eq, Hc'. split; [done |]. done.
    + exists c'. by rewrite list_lookup_alter_ne.
  - intros h c'. rewrite Hch.
    destruct (decide (h = ev.1)) as [-> | Hne].
    + rewrite list_lookup_alter_eq, Hc. intros [= <-]. simpl.
      apply Forall_app. split; [by eapply Htagged |].
      repeat constructor. apply render_tagged.
    + rewrite list_lookup_alter_ne by done. apply Htagged.
Qed.

Lemma cleanup_well_formed {W} pid :
  respects (preserves well_formed) (pids_delete (W:=W) pid;; logs_delete pid).
Proof.
  intros st [Hlogged Hhandle Htagged]. split; simpl.
  - intros q [Hne Hq]%elem_of_set_delete.
    rewrite lookup_delete_ne by done. by apply Hlogged.
  - intros q h Hh. apply (Hhandle q h).
    destruct (decide (pid = q)) as [-> | Hne].
    + by rewrite lookup_delete_eq in Hh.
    + by rewrite lookup_delete_ne in Hh.
  - exact Htagged.
Qed.

Lemma register_well_formed {W} pid :
  respects (preserves well_formed)
    (h ← new_child (W:=W) pid; pids_add pid;; logs_set pid h).
Proof.
  intros st [Hlogged Hhandle Htagged]. split; simpl.
  - intros q [-> | Hq]%elem_of_set_add.
    + by rewrite lookup_insert_eq.
    + destruct (decide (pid = q)) as [-> | Hne].
      * by rewrite lookup_insert_eq.
      * rewrite lookup_insert_ne by done. by apply Hlogged.
  - intros q h. destruct (decide (pid = q)) as [-> | Hne].
    + rewrite lookup_insert_eq. intros [= <-]. eexists.
      by rewrite lookup_app_r, Nat.sub_diag.
    + rewrite lookup_insert_ne by done. intros Hh.
      destruct (Hhandle q h Hh) as (c & Hc & Hpid).
      exists c. split; [by apply lookup_app_l_Some | done].
  - intros h c [Hc | [_ Hc]]%lookup_app_Some; [by eapply Htagged |].
    destruct (h - length (children (reg st)))%nat; simplify_eq/=.
    constructor.
Qed.

Lemma perform_well_formed {W} (os : OS W) op :
  respects (preserves well_formed) (perform os op).
Proof.
  apply perform_respects; [apply _ .. | | | | |].
  - intros st st' Hr _ _ _ H. by rewrite Hr.
  - apply on_child_event_well_formed.
  - apply cleanup_well_formed.
  - apply register_well_formed.
  - intros f st H. exact H.
Qed.

(** X6.  The registries stay consistent under every operation of the
    supervision code (a start, a stop, a termination request, the listeners,
    either handler): if before the operation every tracked pid has an entry in
    [serverLogs], every entry holds the array of a child with the pid of the
    entry, and every line of every array opens with its source and the pid of
    its child, then the same holds after it.  So [getServerLog(pid)] never
    returns a line of a process with another pid. *)
Theorem registries_stay_consistent {W} (os : OS W) (op : Operation)
    (st : State W) :
  well_formed (reg st) →
  let after := reg (perform os op st).2 in
  well_formed after ∧
  (∀ pid, pid ∈ serverPIDs after → is_Some (serverLogs after !! pid)) ∧
  (∀ pid, Forall (tagged pid) (getServerLog pid after)).
Proof.
  intros Hwf after.
  pose proof (perform_well_formed os op st Hwf) as Hafter. fold after in Hafter.
  split_and!; [done | by destruct Hafter |].
  intros pid. unfold getServerLog.
  destruct (serverLogs after !! pid) as [h |] eqn:Hh; [| constructor].
  destruct (wf_handle _ Hafter pid h Hh) as (c & Hc & <-).
  rewrite Hc. by apply (wf_tagged _ Hafter h).
Qed.

Lemma tracking_well_formed : well_formed Toy.tracking.
Proof.
  split.
  - intros pid Hpid. simpl in Hpid.
    apply list_elem_of_singleton in Hpid as ->. by eexists.
  - intros pid h Hh. simpl in Hh.
    apply lookup_singleton_Some in Hh as [<- <-]. by eexists.
  - intros [| h] c Hc; simplify_eq/=.
    repeat constructor. exists "stdout", ": ready". split; [set_solver | done].
Qed.

Lemma registries_stay_consistent_witness :
  let os := Toy.os Posix [] in
  let st := Toy.init (Toy.one_server true true) Toy.tracking in
  well_formed (reg st) ∧
  let after := reg (perform os (OpStartServer false PNull) st).2 in
  well_formed after ∧
  (∀ pid, pid ∈ serverPIDs after → is_Some (serverLogs after !! pid)) ∧
  (∀ pid, Forall (tagged pid) (getServerLog pid after)).
Proof.
  intros os st. split; [exact tracking_well_formed |].
  exact (registries_stay_consistent os (OpStartServer false PNull) st
           tracking_well_formed).
Defined.

(** ** The live log of a server *)

Lemma events_of_cons h ev evs :
  events_of h (ev :: evs)
  = (if decide (ev.1 = h) then [ev.2] else []) ++ events_of h evs.
Proof. unfold events_of. simpl. by destruct (decide (ev.1 = h)). Qed.

(** The listeners append to the array of the child [h] the lines of its
    events, and leave [serverLogs] alone. *)
Lemma deliver_appends {W} (evs : list (nat * ChildEvent)) (st : State W)
    (h : nat) (c : Child) :
  children (reg st) !! h = Some c →
  let after := reg (deliver evs st).2 in
  serverLogs after = serverLogs (reg st) ∧
  children after !! h
  = Some {| child_pid := child_pid c;
            logLines := logLines c ++ (render (child_pid c) <$> events_of h evs) |}.
Proof.
  revert st c. induction evs as [| ev evs IH]; intros st c Hc after; subst after.
  { simpl. rewrite app_nil_r. by destruct c. }
  rewrite events_of_cons.
  assert (deliver (ev :: evs) st
          = match on_child_event ev st with
            | (Ok _, st') => deliver evs st'
            | (Throw e, st') => (Throw e, st')
            end) as -> by done.
  pose proof (never_throws_unit _ st (on_child_event_never_throws ev)) as Hok.
  assert (serverLogs (reg (on_child_event ev st).2) = serverLogs (reg st) ∧
          children (reg (on_child_event ev st).2) !! h
          = Some {| child_pid := child_pid c;
                    logLines := logLines c ++
                      (if decide (ev.1 = h)
                       then [render (child_pid c) ev.2] else []) |})
    as [Hlogs Hchild].
  { destruct (children (reg st) !! ev.1) as [c' |] eqn:Hc'.
    - destruct (on_child_event_reg ev st c' Hc') as (-> & -> & _).
      split; [done |]. case_decide as Heq.
      + rewrite <- Heq, list_lookup_alter_eq, Hc'.
        rewrite <- Heq, Hc' in Hc. by injection Hc as ->.
      + rewrite list_lookup_alter_ne, Hc, app_nil_r by done. by destruct c.
    - unfold on_child_event. rewrite Hc'. split; [done |].
      case_decide as Heq; [congruence |]. simpl. rewrite Hc, app_nil_r.
      by destruct c. }
  destruct (on_child_event ev st) as [r st1]. simpl in Hok, Hlogs, Hchild.
  subst r.
  destruct (IH st1 _ Hchild) as [Hlogs' Hchild']. simpl in Hchild'.
  split; [by rewrite Hlogs', Hlogs |].
  rewrite Hchild', fmap_app, app_assoc.
  by case_decide.
Qed.



Example live_log_scenario :
  let os := Toy.os Posix [] in
  let started := (startServer os false PNull
                    (Toy.init Toy.fresh Toy.empty_registry)).2 in
  let evs := [(0%nat, EvData Stdout "INFO: started
"); (1%nat, EvData Stderr "other"); (0%nat, EvClose (Some 0) None)] in
  getServerLog 4242 (reg (deliver evs started).2)
  = ["[stdout][PID:4242]: INFO: started";
     "[process][PID:4242] Exited with code 0 signal null"] ∧
  serverPIDs (reg (deliver evs started).2) = [].
Proof. vm_compute. split; reflexivity. Qed.

(** ** The start handler *)


(** ** What a stop leaves tracked *)

Lemma on_child_event_shrinks {W} ev : respects shrinks (on_child_event (W:=W) ev).
Proof.
  intros st. unfold shrinks.
  destruct (children (reg st) !! ev.1) as [c |] eqn:Hc; cycle 1.
  { unfold on_child_event. by rewrite Hc. }
  destruct (on_child_event_reg ev st c Hc) as (_ & _ & ->).
  destruct ev.2; try done. apply set_delete_subseteq.
Qed.

Lemma same_pids_shrinks {W} (st st' : State W) :
  reg st' = reg st → shrinks st st'.
Proof. intros H. unfold shrinks. by rewrite H. Qed.

Lemma terminateProcessTree_shrinks {W} (os : OS W) pid forceKill :
  respects shrinks (terminateProcessTree os pid forceKill).
Proof.
  apply terminateProcessTree_respects; [apply _ .. | |].
  - intros st st' Hr _ _ _. by apply same_pids_shrinks.
  - apply on_child_event_shrinks.
Qed.

Lemma sleep_shrinks {W} (os : OS W) ms : respects shrinks (sleep os ms).
Proof.
  apply sleep_respects; [apply _ .. | |].
  - intros st st' Hr _ _ _. by apply same_pids_shrinks.
  - apply on_child_event_shrinks.
Qed.

(** The final pass of [stopAllServers] over the pids it set out to stop. *)
Lemma final_pass_keeps_the_living {W} (os : OS W) (pids : list Z) (st : State W) :
  ∃ st' t l,
    for_each pids (verify_and_cleanup os) st = (Ok tt, st') ∧
    trace st' = trace st ++ t ∧ mainLog st' = mainLog st ++ l ∧
    shell st' = shell st ∧
    serverPIDs (reg st') ⊆ serverPIDs (reg st) ∧
    ∀ pid, pid ∈ pids → pid ∈ serverPIDs (reg st') →
           TKill pid SIG0 true ∈ t ∧ (Warn, MsgMayStillRun pid) ∈ l.
Proof.
  revert st. induction pids as [| p pids IH]; intros st.
  { exists st, [], []. rewrite !app_nil_r.
    split_and!; [done .. |]. intros pid Hpid. by apply elem_of_nil in Hpid. }
  cbn [for_each]. rewrite bind_run.
  unfold verify_and_cleanup at 1. rewrite bind_run, isProcessRunning_run.
  destruct (kill os p SIG0 (world st)) as [[] w]; cbn [fst snd negb].
  - cbn [log].
    match goal with
    | |- context [for_each pids _ ?s] =>
        destruct (IH s) as (st' & t & l & -> & Ht & Hl & Hs & Hsub & Hkeep)
    end.
    simpl in Ht, Hl, Hs, Hsub.
    exists st', (TKill p SIG0 true :: t), ((Warn, MsgMayStillRun p) :: l).
    split_and!; [done | by rewrite Ht, <- app_assoc | by rewrite Hl, <- app_assoc
                | done | done |].
    intros pid [-> | Hpid]%elem_of_cons Hin.
    + split; left.
    + destruct (Hkeep pid Hpid Hin). split; by right.
  - unfold pids_delete, logs_delete. unfold_prog. simpl.
    match goal with
    | |- context [for_each pids _ ?s] =>
        destruct (IH s) as (st' & t & l & -> & Ht & Hl & Hs & Hsub & Hkeep)
    end.
    simpl in Ht, Hl, Hs, Hsub.
    exists st', ([TKill p SIG0 false; TPidsDelete p; TLogsDelete p] ++ t), l.
    split_and!; [done | by rewrite Ht, <- !app_assoc | done | done | |].
    + etrans; [exact Hsub | apply set_delete_subseteq].
    + intros pid Hpid Hin.
      destruct (decide (pid = p)) as [-> | Hne].
      * apply Hsub, elem_of_set_delete in Hin. by destruct Hin.
      * apply elem_of_cons in Hpid as [-> | Hpid]; [done |].
        destruct (Hkeep pid Hpid Hin). split; [| done].
        apply elem_of_app. by right.
Qed.

Lemma appends_refl {W} : Reflexive (appends (W:=W)).
Proof. intros st. split; exists []; by rewrite app_nil_r. Qed.

Lemma appends_trans {W} : Transitive (appends (W:=W)).
Proof.
  intros st1 st2 st3 [[l1 Hl1] [t1 Ht1]] [[l2 Hl2] [t2 Ht2]]. split.
  - exists (l1 ++ l2). by rewrite Hl2, Hl1, app_assoc.
  - exists (t1 ++ t2). by rewrite Ht2, Ht1, app_assoc.
Qed.

#[export] Existing Instances appends_refl appends_trans.

Lemma on_child_event_appends {W} ev :
  respects appends (on_child_event (W:=W) ev).
Proof.
  intros st. destruct (on_child_event_inside ev st) as (_ & Hl & _).
  destruct (on_child_event_traced anything (λ _ _, I) ev st) as (t & Ht & _).
  split; [exists []; by rewrite app_nil_r | by exists t].
Qed.

(** X9.  After [stopAllServers] a pid is still tracked only if it was
    tracked before the call and the final liveness check of the call found
    its process alive; the call has then logged the warning that this
    process may still be running.  The call cannot throw, and it leaves the
    variables of the shell alone. *)
Theorem stop_keeps_only_pids_seen_alive {W} (os : OS W) (st : State W) :
  let r := stopAllServers os st in
  r.1 = Ok tt ∧
  shell r.2 = shell st ∧
  ∃ t l, trace r.2 = trace st ++ t ∧ mainLog r.2 = mainLog st ++ l ∧
         ∀ pid, pid ∈ serverPIDs (reg r.2) →
                pid ∈ serverPIDs (reg st) ∧
                TKill pid SIG0 true ∈ t ∧
                (Warn, MsgMayStillRun pid) ∈ l.
Proof.
  intros r. subst r.
  destruct (decide (serverPIDs (reg st) = [])) as [Hnil | Hne].
  { rewrite (stopAllServers_idle os st Hnil). simpl. split_and!; [done | done |].
    exists [], [(Info, MsgStoppingAll); (Info, MsgNoServers)].
    rewrite app_nil_r. split_and!; [done | done |].
    intros pid Hpid. rewrite Hnil in Hpid. by apply elem_of_nil in Hpid. }
  enough (∃ st5 t l,
            stopAllServers os st = (Ok tt, st5) ∧ shell st5 = shell st ∧
            trace st5 = trace st ++ t ∧ mainLog st5 = mainLog st ++ l ∧
            ∀ pid, pid ∈ serverPIDs (reg st5) →
                   pid ∈ serverPIDs (reg st) ∧ TKill pid SIG0 true ∈ t ∧
                   (Warn, MsgMayStillRun pid) ∈ l)
    as (st5 & t & l & -> & Hshell & Ht & Hl & Hkeep).
  { split_and!; [done | done |]. by exists t, l. }
  unfold stopAllServers, getServerPIDs.
  rewrite bind_run. unfold log at 1. rewrite bind_run. unfold gets at 1.
  cbn [reg].
  case_decide as Hempty; [by apply nil_length_inv in Hempty |].
  set (pids := serverPIDs (reg st)).
  set (st0 := {| world := world st; reg := reg st; shell := shell st;
                 mainLog := mainLog st ++ [(Info, MsgStoppingAll)];
                 trace := trace st |}).
  assert (∀ (R : relation (State W)) `{!Reflexive R, !Transitive R},
            (∀ st st' : State W, reg st' = reg st → shell st' = shell st →
               (∃ l, mainLog st' = mainLog st ++ l) →
               (∃ t, trace st' = trace st ++ t) → R st st') →
            (∀ ev, respects R (on_child_event (W:=W) ev)) →
            ∀ pid f, respects R (terminateProcessTree os pid f)) as Hterm.
  { intros. by apply terminateProcessTree_respects. }
  assert (∀ (R : relation (State W)) `{!Reflexive R, !Transitive R},
            (∀ st st' : State W, reg st' = reg st → shell st' = shell st →
               (∃ l, mainLog st' = mainLog st ++ l) →
               (∃ t, trace st' = trace st ++ t) → R st st') →
            (∀ ev, respects R (on_child_event (W:=W) ev)) →
            ∀ ms, respects R (sleep os ms)) as Hsleep.
  { intros. by apply sleep_respects. }
  rewrite bind_run.
  pose proof (never_throws_unit _ st0 (never_throws_for_each pids _
    (λ pid, terminateProcessTree_never_throws os pid false))) as Hr1.
  destruct (for_each pids (λ pid, terminateProcessTree os pid false) st0)
    as [r1 st1] eqn:H1. simpl in Hr1. subst r1.
  rewrite bind_run.
  pose proof (never_throws_unit _ st1 (sleep_never_throws os 2000)) as Hr2.
  destruct (sleep os 2000 st1) as [r2 st2] eqn:H2. simpl in Hr2. subst r2.
  rewrite bind_run.
  pose proof (never_throws_unit _ st2 (never_throws_for_each pids _
    (λ pid, terminateProcessTree_never_throws os pid true))) as Hr3.
  destruct (for_each pids (λ pid, terminateProcessTree os pid true) st2)
    as [r3 st3] eqn:H3. simpl in Hr3. subst r3.
  assert (∀ (R : relation (State W)) `{!Reflexive R, !Transitive R},
            (∀ st st' : State W, reg st' = reg st → shell st' = shell st →
               (∃ l, mainLog st' = mainLog st ++ l) →
               (∃ t, trace st' = trace st ++ t) → R st st') →
            (∀ ev, respects R (on_child_event (W:=W) ev)) →
            R st0 st3) as Hbefore.
  { intros R ? ? Hframe Hlistener.
    pose proof (respects_for_each R pids _ (λ pid, Hterm R _ _ Hframe Hlistener pid false) st0)
      as Ha.
    pose proof (Hsleep R _ _ Hframe Hlistener 2000 st1) as Hb.
    pose proof (respects_for_each R pids _ (λ pid, Hterm R _ _ Hframe Hlistener pid true) st2)
      as Hc.
    rewrite H1 in Ha. rewrite H2 in Hb. rewrite H3 in Hc. simpl in *.
    etrans; [exact Ha |]. etrans; [exact Hb | exact Hc]. }
  pose proof (Hbefore shrinks _ _
    (λ st st' Hr _ _ _, same_pids_shrinks st st' Hr) on_child_event_shrinks) as Hsh.
  pose proof (Hbefore same_shell _ _
    (λ st st' _ Hs _ _, Hs) on_child_event_same_shell) as Hss.
  pose proof (Hbefore appends _ _
    (λ st st' _ _ Hl Ht, conj Hl Ht) on_child_event_appends)
    as [(l0 & Hl0) (t0 & Ht0)].
  rewrite bind_run.
  destruct (final_pass_keeps_the_living os pids st3)
    as (st4 & t & l & -> & Ht & Hl & Hs & Hsub & Hkeep).
  unfold gets, log. rewrite bind_run.
  eexists _, (t0 ++ t), (_ :: l0 ++ l ++ [_]).
  split_and!; [done | by rewrite Hs, Hss | ..]; cbn [trace mainLog reg].
  - rewrite Ht, Ht0. by rewrite <- app_assoc.
  - rewrite Hl, Hl0. simpl. by rewrite <- !app_assoc.
  - intros pid Hpid.
    assert (pid ∈ pids) as Hin by (by apply Hsh, Hsub).
    destruct (Hkeep pid Hin Hpid). split_and!; [done | |].
    + apply elem_of_app. by right.
    + right. apply elem_of_app. right. apply elem_of_app. by left.
Qed.

(** ** The retries of the termination controller *)

Lemma waits_app t1 t2 : waits (t1 ++ t2) = (waits t1 + waits t2)%nat.
Proof. unfold waits. by rewrite filter_app, length_app. Qed.

Lemma waits_none t : Forall (λ e, e ≠ TSleep 1000) t → waits t = 0%nat.
Proof.
  unfold waits. induction 1 as [| e t He _ IH]; [done |].
  by rewrite filter_cons_False.
Qed.

Lemma silent_no_waits t : silent t → waits t = 0%nat.
Proof.
  intros Hs. apply waits_none, Forall_forall. intros e He ->.
  assert (TSleep 1000 ∈ calls t) as Hin by (by apply list_elem_of_filter).
  rewrite Hs in Hin. by apply elem_of_nil in Hin.
Qed.

Lemma waits_probe pid b : waits [TKill pid SIG0 b] = 0%nat.
Proof. apply waits_none. by repeat constructor. Qed.

Section Attempts.
Context {W : Type} (os : OS W) (pid : Z) (forceKill : bool).

(** One attempt of [terminateProcessTree]: it cannot throw, so the [catch]
    that logs "Attempt n/3 failed" is never entered; it ends with the
    liveness check, and logs the success when that check found the process
    gone. *)
Lemma attempt_run (attempt : Z) (st : State W) :
  ∃ st' t l (gone : bool),
    try_catch
      ((if decide (platform os = Win32)
        then terminateWindows os pid forceKill
        else terminateUnix os pid forceKill);;
       running ← isProcessRunning os pid;
       if negb (running : bool) then
         log Info (MsgTerminated pid);;
         mret true
       else mret false)
      (λ _, log Warn (MsgAttemptFailed attempt pid);;
            mret false) st = (Ok gone, st') ∧
    trace st' = trace st ++ t ++ [TKill pid SIG0 (negb gone)] ∧
    waits t = 0%nat ∧
    mainLog st' = mainLog st ++ l
                  ++ (if gone then [(Info, MsgTerminated pid)] else []) ∧
    Forall (kill_failed pid) l.
Proof.
  set (platform_attempt := if decide (platform os = Win32)
                           then terminateWindows os pid forceKill
                           else terminateUnix os pid forceKill).
  assert (never_throws platform_attempt ∧
          respects (logged (kill_failed pid)) platform_attempt ∧
          respects (traced (Forall (λ e, e ≠ TSleep 1000))) platform_attempt)
    as (Hok & Hlog & Htrace).
  { unfold platform_attempt. destruct (decide (platform os = Win32)); split_and!;
      auto using terminateWindows_never_throws, terminateUnix_never_throws,
        terminateWindows_logged, terminateUnix_logged;
      pose proof no_wait_in_attempt; runs. }
  unfold try_catch. rewrite bind_run.
  pose proof (never_throws_unit platform_attempt st Hok) as Hr.
  destruct (Hlog st) as (l & Hl & HlP).
  destruct (Htrace st) as (t & Ht & HtP & _).
  destruct (platform_attempt st) as [r st1]. simpl in Hr, Hl, Ht. subst r.
  rewrite bind_run, isProcessRunning_run.
  destruct (kill os pid SIG0 (world st1)) as [[] w]; cbn [fst snd negb].
  - eexists _, t, l, false. cbn [negb].
    split_and!; [done | by cbn; rewrite Ht, app_assoc | by apply waits_none
                | by cbn; rewrite Hl, app_nil_r | done].
  - eexists _, t, l, true. unfold_prog. cbn.
    split_and!; [done | by rewrite Ht, app_assoc | by apply waits_none
                | by rewrite Hl, app_assoc | done].
Qed.

Lemma wait_run (st : State W) :
  ∃ st' t, sleep os 1000 st = (Ok tt, st') ∧ mainLog st' = mainLog st ∧
           trace st' = trace st ++ t ∧ waits t = 1%nat.
Proof.
  destruct (sleep_run os 1000 st) as (st' & t & -> & _ & Hl & Ht & Hs).
  exists st', (TSleep 1000 :: t). split_and!; [done | done | done |].
  change (TSleep 1000 :: t) with ([TSleep 1000] ++ t).
  by rewrite waits_app, (silent_no_waits t).
Qed.
End Attempts.

(** X10.  [terminateProcessTree] always returns normally, after one, two or
    three attempts and at most two pauses of 1000 ms.  Its last step is a
    liveness check.  When that check finds the process gone, the last entry
    of the main log is "Successfully terminated"; otherwise three attempts
    were made, with two pauses, and the last entry is the error "Failed to
    terminate process tree".  Before that entry it logs nothing but the
    failures of its signals or commands: the warning "Attempt n/3 failed" is
    never written, because an attempt cannot throw. *)
Theorem terminateProcessTree_makes_three_attempts_at_most {W} (os : OS W)
    (pid : Z) (forceKill : bool) (st : State W) :
  let r := terminateProcessTree os pid forceKill st in
  r.1 = Ok tt ∧
  ∃ t l final,
    trace r.2 = trace st ++ t ∧
    mainLog r.2 = mainLog st ++ l ++ [final] ∧
    Forall (kill_failed pid) l ∧
    (waits t ≤ 2)%nat ∧
    ((last t = Some (TKill pid SIG0 false) ∧ final = (Info, MsgTerminated pid)) ∨
     (last t = Some (TKill pid SIG0 true) ∧ final = (Error, MsgGaveUp pid) ∧
      waits t = 2%nat)).
Proof.
  intros r. subst r. unfold terminateProcessTree.
  change (seqZ 1 maxRetries) with [1; 2; 3].
  enough (∃ st' t l final,
            retry_loop os pid forceKill [1; 2; 3] st = (Ok tt, st') ∧
            trace st' = trace st ++ t ∧
            mainLog st' = mainLog st ++ l ++ [final] ∧
            Forall (kill_failed pid) l ∧
            (waits t ≤ 2)%nat ∧
            ((last t = Some (TKill pid SIG0 false) ∧
              final = (Info, MsgTerminated pid)) ∨
             (last t = Some (TKill pid SIG0 true) ∧
              final = (Error, MsgGaveUp pid) ∧ waits t = 2%nat)))
    as (st' & t & l & final & -> & H).
  { split; [done |]. by exists t, l, final. }
  cbn [retry_loop]. rewrite bind_run.
  destruct (attempt_run os pid forceKill 1 st)
    as (st1 & t1 & l1 & [] & -> & Ht1 & Hw1 & Hl1 & Hf1).
  { exists st1, (t1 ++ [TKill pid SIG0 false]), l1, (Info, MsgTerminated pid).
    split_and!; [done | done | done | done | | ].
    - rewrite waits_app, Hw1, waits_probe. lia.
    - left. by rewrite last_snoc. }
  change (1 <? maxRetries) with true. cbn iota. rewrite bind_run.
  destruct (wait_run os st1) as (st1' & s1 & -> & Hsl1 & Hst1 & Hsw1).
  rewrite bind_run.
  destruct (attempt_run os pid forceKill 2 st1')
    as (st2 & t2 & l2 & [] & -> & Ht2 & Hw2 & Hl2 & Hf2).
  { exists st2, (t1 ++ [TKill pid SIG0 true] ++ s1 ++ t2 ++ [TKill pid SIG0 false]),
      (l1 ++ l2), (Info, MsgTerminated pid).
    split_and!.
    - done.
    - rewrite Ht2, Hst1, Ht1. cbn. by rewrite <- !app_assoc.
    - rewrite Hl2, Hsl1, Hl1. by rewrite app_nil_r, <- !app_assoc.
    - by apply Forall_app.
    - rewrite !waits_app, Hw1, Hsw1, Hw2, !waits_probe. lia.
    - left. by rewrite !app_assoc, last_snoc. }
  change (2 <? maxRetries) with true. cbn iota. rewrite bind_run.
  destruct (wait_run os st2) as (st2' & s2 & -> & Hsl2 & Hst2 & Hsw2).
  rewrite bind_run.
  destruct (attempt_run os pid forceKill 3 st2')
    as (st3 & t3 & l3 & [] & -> & Ht3 & Hw3 & Hl3 & Hf3).
  { exists st3, (t1 ++ [TKill pid SIG0 true] ++ s1 ++ t2 ++ [TKill pid SIG0 true]
                 ++ s2 ++ t3 ++ [TKill pid SIG0 false]),
      (l1 ++ l2 ++ l3), (Info, MsgTerminated pid).
    split_and!.
    - done.
    - rewrite Ht3, Hst2, Ht2, Hst1, Ht1. cbn. by rewrite <- !app_assoc.
    - rewrite Hl3, Hsl2, Hl2, Hsl1, Hl1. by rewrite !app_nil_r, <- !app_assoc.
    - by repeat (apply Forall_app; split).
    - rewrite !waits_app, Hw1, Hsw1, Hw2, Hsw2, Hw3, !waits_probe. lia.
    - left. by rewrite !app_assoc, last_snoc. }
  change (3 <? maxRetries) with false. cbn iota.
  unfold_prog. cbn.
  eexists _, (t1 ++ [TKill pid SIG0 true] ++ s1 ++ t2 ++ [TKill pid SIG0 true]
              ++ s2 ++ t3 ++ [TKill pid SIG0 true]),
    (l1 ++ l2 ++ l3), (Error, MsgGaveUp pid).
  split_and!.
  - done.
  - rewrite Ht3, Hst2, Ht2, Hst1, Ht1. cbn. by rewrite <- !app_assoc.
  - rewrite Hl3, Hsl2, Hl2, Hsl1, Hl1. by rewrite !app_nil_r, <- !app_assoc.
  - by repeat (apply Forall_app; split).
  - rewrite !waits_app, Hw1, Hsw1, Hw2, Hsw2, Hw3, !waits_probe. lia.
  - right. split_and!; [by rewrite !app_assoc, last_snoc | done |].
    rewrite !waits_app, Hw1, Hsw1, Hw2, Hsw2, Hw3, !waits_probe. lia.
Qed.

(** ** The protocol of [terminateUnix] *)

Section UnixProtocol.
Context {W : Type} (os : OS W).

Lemma pause_run ms (st : State W) :
  ∃ st' t, sleep os ms st = (Ok tt, st') ∧
           trace st' = trace st ++ TSleep ms :: t ∧ Forall listener_only t.
Proof.
  unfold sleep. destruct (sleep_wait os ms (world st)) as [evs w].
  unfold_prog. simpl.
  match goal with
  | |- context [deliver evs ?s] =>
      destruct (deliver_spec evs s) as (st' & t & -> & _ & Ht & Hlo & _)
  end.
  exists st', t. simpl in Ht. by rewrite Ht, <- app_assoc.
Qed.

Lemma unix_signal_step pid sig (st : State W) :
  ∃ st' t,
    try_catch
      (process_kill os (- pid) sig;;
       sleep os 500;;
       running ← isProcessRunning os pid;
       if running : bool then
         process_kill os pid sig;;
         sleep os 500
       else mret tt)
      (λ _, log Error (MsgKillFailed pid)) st = (Ok tt, st') ∧
    trace st' = trace st ++ t ∧ unix_signal_run pid sig t.
Proof.
  unfold try_catch. rewrite bind_run, process_kill_run.
  destruct (kill os (- pid) sig (world st)) as [[] w1]; cbn [fst snd]; cycle 1.
  { eexists _, _. split_and!; [done | done | constructor]. }
  rewrite bind_run.
  match goal with
  | |- context [sleep os 500 ?s] =>
      destruct (pause_run 500 s) as (st1 & ls & -> & Ht1 & Hls)
  end.
  cbn [trace] in Ht1.
  rewrite bind_run, isProcessRunning_run.
  destruct (kill os pid SIG0 (world st1)) as [[] w2]; cbn [fst snd]; cycle 1.
  { eexists _, _. split_and!; [done | | by apply (usr_gone pid sig ls)].
    cbn. rewrite Ht1, <- !app_assoc. done. }
  rewrite bind_run, process_kill_run. cbn [world trace].
  destruct (kill os pid sig w2) as [[] w3]; cbn [fst snd]; cycle 1.
  { eexists _, _. split_and!; [done | | by apply (usr_direct_failed pid sig ls)].
    cbn. rewrite Ht1, <- !app_assoc. done. }
  match goal with
  | |- context [sleep os 500 ?s] =>
      destruct (pause_run 500 s) as (st2 & ls' & -> & Ht2 & Hls')
  end.
  cbn [trace] in Ht2.
  eexists _, _. split_and!; [done | | by apply (usr_direct pid sig ls ls')].
  rewrite Ht2, Ht1, <- !app_assoc. done.
Qed.
End UnixProtocol.

Lemma kill_not_among_listeners ls p sig ok :
  TKill p sig ok ∈ ls → Forall listener_only ls → False.
Proof. intros Hin Hls. rewrite Forall_forall in Hls. by apply Hls in Hin. Qed.

(** The process itself is signalled only after its group was, and after a
    liveness check that found it alive. *)
Lemma unix_signal_run_direct pid sig t sig' ok :
  pid ≠ 0 → unix_signal_run pid sig t →
  TKill pid sig' ok ∈ t → sig' ≠ SIG0 →
  TKill (- pid) sig' true ∈ t ∧ TKill pid SIG0 true ∈ t.
Proof.
  intros Hpid Hrun Hin Hsig.
  destruct Hrun as [| ls Hls | ls Hls | ls ls' Hls Hls'];
    repeat (rewrite ?elem_of_cons, ?elem_of_app, ?elem_of_nil in Hin);
    destruct_or!;
    try (by exfalso; eapply kill_not_among_listeners; [exact Hin |]);
    try discriminate Hin; try done;
    injection Hin; intros; subst; try lia; try done;
    (split; [left | do 2 right; apply elem_of_app; right; left]).
Qed.

(** X11.  The protocol of [terminateUnix], for every behaviour of the
    system.  It returns normally, and for each signal in turn ([SIGKILL]
    alone when forced, [SIGTERM] then [SIGKILL] otherwise) it does one of four
    things: the signal to the process group throws, and that is all; or the
    group is signalled, it pauses 500 ms and finds the process gone; or it
    finds the process alive and signals the process itself, pausing 500 ms
    more when that signal did not throw.  So the process itself is never
    signalled when the signal to its group threw (the comment "also try
    individual process if group kill fails" notwithstanding): it is signalled
    only after a successful group signal and a liveness check that found it
    alive. *)
Theorem terminateUnix_protocol {W} (os : OS W) (pid : Z) (forceKill : bool)
    (st : State W) :
  let r := terminateUnix os pid forceKill st in
  let signals := if forceKill then [SIGKILL] else [SIGTERM; SIGKILL] in
  r.1 = Ok tt ∧
  ∃ segments,
    trace r.2 = trace st ++ concat segments ∧
    Forall2 (unix_signal_run pid) signals segments ∧
    (pid ≠ 0 →
     ∀ segment sig ok,
       segment ∈ segments → TKill pid sig ok ∈ segment → sig ≠ SIG0 →
       TKill (- pid) sig true ∈ segment ∧ TKill pid SIG0 true ∈ segment).
Proof.
  intros r signals. subst r signals.
  enough (∃ st' segments,
            terminateUnix os pid forceKill st = (Ok tt, st') ∧
            trace st' = trace st ++ concat segments ∧
            Forall2 (unix_signal_run pid)
              (if forceKill then [SIGKILL] else [SIGTERM; SIGKILL]) segments)
    as (st' & segments & -> & Ht & Hruns).
  { split; [done |]. exists segments. split_and!; [done | done |].
    intros Hpid segment sig ok Hseg Hin Hsig.
    apply list_elem_of_lookup in Hseg as [i Hi].
    destruct (Forall2_lookup_r _ _ _ _ _ Hruns Hi) as (sig0 & _ & Hrun).
    by eapply unix_signal_run_direct. }
  unfold terminateUnix. destruct forceKill; cbn [for_each]; rewrite !bind_run.
  - destruct (unix_signal_step os pid SIGKILL st) as (st1 & t1 & -> & Ht1 & Hr1).
    exists st1, [t1]. cbn. rewrite app_nil_r.
    split_and!; [done | done | by repeat constructor].
  - destruct (unix_signal_step os pid SIGTERM st) as (st1 & t1 & -> & Ht1 & Hr1).
    rewrite bind_run.
    destruct (unix_signal_step os pid SIGKILL st1) as (st2 & t2 & -> & Ht2 & Hr2).
    exists st2, [t1; t2]. cbn. rewrite app_nil_r.
    split_and!; [done | by rewrite Ht2, Ht1, app_assoc | by repeat constructor].
Qed.

(** * Properties of the code around the supervision *)

(** ** Strings *)

Lemma append_nil_l (s : string) : "" +:+ s = s.
Proof. reflexivity. Qed.

Lemma append_cons (c : Ascii.ascii) (a b : string) : String c a +:+ b = String c (a +:+ b).
Proof. reflexivity. Qed.

Lemma prefix_cons (a b : Ascii.ascii) (p s : string) :
  String.prefix (String a p) (String b s) = bool_decide (a = b) && String.prefix p s.
Proof.
  change (String.prefix (String a p) (String b s))
    with (if Ascii.ascii_dec a b then String.prefix p s else false).
  destruct (Ascii.ascii_dec a b); [by rewrite bool_decide_true | by rewrite bool_decide_false].
Qed.

Lemma prefix_app (p rest : string) : String.prefix p (p +:+ rest) = true.
Proof.
  induction p as [|a p IH]; [by destruct rest |].
  by rewrite append_cons, prefix_cons, bool_decide_true.
Qed.

Lemma prefix_inv (p s : string) :
  String.prefix p s = true → s = p +:+ Text.skip (String.length p) s.
Proof.
  revert s. induction p as [|a p IH]; intros s H; [by destruct s |].
  destruct s as [|b s]; [done |].
  rewrite prefix_cons in H. apply andb_true_iff in H as [Hab%bool_decide_eq_true Hp].
  subst b. rewrite append_cons. f_equal. by apply IH.
Qed.

Lemma skip_app (p rest : string) : Text.skip (String.length p) (p +:+ rest) = rest.
Proof. induction p as [|a p IH]; [by destruct rest | by rewrite append_cons]. Qed.

Lemma startsWith_spec (s p : string) :
  Text.startsWith s p = true ↔ ∃ rest, s = p +:+ rest.
Proof.
  unfold Text.startsWith. split.
  - intros H. eexists. by apply prefix_inv.
  - intros [rest ->]. apply prefix_app.
Qed.

Lemma replace_unfold (s p r : string) :
  Text.replace s p r =
    if String.prefix p s then r +:+ Text.skip (String.length p) s
    else match s with
         | String c s' => String c (Text.replace s' p r)
         | EmptyString => EmptyString
         end.
Proof. by destruct s. Qed.

Lemma replace_prefix (p rest r : string) : Text.replace (p +:+ rest) p r = r +:+ rest.
Proof. by rewrite replace_unfold, prefix_app, skip_app. Qed.

Lemma includes_unfold (s p : string) :
  Text.includes s p =
    String.prefix p s ||
    match s with
    | String _ s' => Text.includes s' p
    | EmptyString => false
    end.
Proof. by destruct s. Qed.

Lemma includes_spec (s p : string) :
  Text.includes s p = true ↔ ∃ before after, s = before +:+ p +:+ after.
Proof.
  split.
  - induction s as [|c s IH]; rewrite includes_unfold.
    + rewrite orb_false_r. intros H%prefix_inv. by exists "", (Text.skip (String.length p) "").
    + intros [H|H]%orb_true_iff.
      * apply prefix_inv in H. by exists "", (Text.skip (String.length p) (String c s)).
      * destruct (IH H) as (a & b & ->). by exists (String c a), b.
  - intros (a & b & ->). induction a as [|c a IH].
    + by rewrite includes_unfold, append_nil_l, prefix_app.
    + rewrite append_cons, includes_unfold, IH. apply orb_true_r.
Qed.

(** ** Opening the browser *)

Section DesktopFacts.
Import Desktop.
Context {W : Type} (host : Host W).

Lemma browser_url_exposed (rest : string) :
  browser_url ("http://0.0.0.0" +:+ rest) = "http://localhost" +:+ rest.
Proof.
  unfold browser_url, Text.startsWith.
  by rewrite prefix_app, replace_prefix.
Qed.

Lemma browser_url_other (url : string) :
  Text.startsWith url "http://0.0.0.0" = false → browser_url url = url.
Proof. unfold browser_url. by intros ->. Qed.

Lemma browser_url_local (url : string) :
  Text.startsWith (browser_url url) "http://0.0.0.0" = false.
Proof.
  destruct (Text.startsWith url "http://0.0.0.0") eqn:E.
  - apply startsWith_spec in E as [rest ->].
    rewrite browser_url_exposed. reflexivity.
  - by rewrite browser_url_other.
Qed.

Lemma browser_url_idem (url : string) : browser_url (browser_url url) = browser_url url.
Proof. apply browser_url_other, browser_url_local. Qed.

Lemma browser_url_nonempty (url : string) :
  Text.falsy (Some url) = false → Text.falsy (Some (browser_url url)) = false.
Proof.
  intros Hu. destruct (Text.startsWith url "http://0.0.0.0") eqn:E.
  - apply startsWith_spec in E as [rest ->]. by rewrite browser_url_exposed.
  - by rewrite browser_url_other.
Qed.

Lemma falsy_false (url : option string) :
  Text.falsy url = false → ∃ u, url = Some u ∧ u ≠ "".
Proof. destruct url as [[|c u]|]; [done | | done]. intros _. by eexists. Qed.

Lemma openUrl_run (u : string) (s : Desk W) :
  u ≠ "" →
  openUrl host (Some u) s =
    (Ok tt, {| env := openExternal host (browser_url u) (env s);
               asked := asked s ++ [COpenExternal (browser_url u)];
               lines := lines s ++ [(Info, "Opening URL in browser: " +:+ u)] |}).
Proof. by destruct u. Qed.

Lemma openUrl_empty (url : option string) (s : Desk W) :
  Text.falsy url = true →
  openUrl host url s = (Throw "No URL provided to open in browser.", s).
Proof. unfold openUrl. by intros ->. Qed.
End DesktopFacts.

(** X12. [openUrl] throws "No URL provided to open in browser." for an empty
    or missing URL and asks nothing of the shell.  For any other URL it asks
    the shell once, for the URL with a leading "http://0.0.0.0" turned into
    "http://localhost"; the URL it hands over never starts with
    "http://0.0.0.0". *)
Theorem openUrl_never_opens_the_wildcard_address {W} (host : Desktop.Host W)
    (url : option string) (s : Desktop.Desk W) :
  if Text.falsy url then
    Desktop.openUrl host url s = (Throw "No URL provided to open in browser.", s)
  else
    ∃ u target s',
      url = Some u ∧
      Desktop.openUrl host url s = (Ok tt, s') ∧
      Desktop.asked s' = Desktop.asked s ++ [Desktop.COpenExternal target] ∧
      Desktop.env s' = Desktop.openExternal host target (Desktop.env s) ∧
      Text.startsWith target "http://0.0.0.0" = false ∧
      (∀ rest, u = "http://0.0.0.0" +:+ rest → target = "http://localhost" +:+ rest) ∧
      (Text.startsWith u "http://0.0.0.0" = false → target = u).
Proof.
  destruct (Text.falsy url) eqn:E.
  - by apply openUrl_empty.
  - destruct (falsy_false url E) as (u & -> & Hu).
    exists u, (Desktop.browser_url u). eexists.
    split; [done |]. split; [by apply openUrl_run |]. simpl.
    split_and!; [done | done | apply browser_url_local | | apply browser_url_other].
    intros rest ->. apply browser_url_exposed.
Qed.

(** X13. The handler of [open:browser] rewrites the URL and then calls
    [openUrl], which rewrites it again: the outcome is that of [openUrl]
    alone, the same error for an empty URL and otherwise the same single
    request to the shell, with one more line in the log. *)
Theorem open_browser_handler_opens_what_openUrl_opens {W} (host : Desktop.Host W)
    (url : option string) (s : Desktop.Desk W) :
  let direct := Desktop.openUrl host url s in
  let handled := Desktop.open_browser_handler host url s in
  handled.1 = direct.1 ∧
  Desktop.env handled.2 = Desktop.env direct.2 ∧
  Desktop.asked handled.2 = Desktop.asked direct.2 ∧
  (Text.falsy url = true → handled.2 = s) ∧
  (∀ u, url = Some u → u ≠ "" →
     Desktop.lines handled.2 =
       Desktop.lines direct.2 ++
       [(Info, "Opening URL in browser: " +:+ Desktop.browser_url u)]).
Proof.
  intros direct handled. subst direct handled.
  destruct (Text.falsy url) eqn:E.
  - unfold Desktop.open_browser_handler. rewrite E.
    rewrite (openUrl_empty host url s E). split_and!; try done.
    intros u -> Hu. by destruct u.
  - destruct (falsy_false url E) as (u & -> & Hu).
    assert (Hb : Desktop.browser_url u ≠ "").
    { pose proof (browser_url_nonempty u E) as Hn.
      by destruct (Desktop.browser_url u). }
    assert (Hrun : Desktop.open_browser_handler host (Some u) s =
              Desktop.openUrl host (Some (Desktop.browser_url u))
                {| Desktop.env := Desktop.env s; Desktop.asked := Desktop.asked s;
                   Desktop.lines := Desktop.lines s ++
                     [(Info, "Opening URL in browser: " +:+ u)] |}).
    { unfold Desktop.open_browser_handler. by rewrite E. }
    rewrite Hrun, !openUrl_run, browser_url_idem by done. simpl.
    split_and!; try done.
    intros u' [= <-] _. done.
Qed.

(** ** Polling the server URL *)

Section Polling.
Import Desktop.
Context {W : Type} (host : Host W) (url : string) (callback : W → option string * W).

(** One turn of the loop, for a URL that is not empty. *)
Lemma poll_round (attempt : Z) (rest : list Z) (s : Desk W) :
  url ≠ "" →
  poll_loop host url callback (attempt :: rest) s =
    match fetchHead host url (env s) with
    | (Some true, w1) =>
        match callback (openExternal host (browser_url url) w1) with
        | (None, w2) =>
            (Ok tt, {| env := w2; asked := asked s ++ final_round url;
                       lines := lines s ++
                         [attempt_line url attempt;
                          (Info, "URL is now available, opening browser...");
                          (Info, "Opening URL in browser: " +:+ url)] |})
        | (Some e, w2) =>
            poll_loop host url callback rest
              {| env := setTimeout host interval w2;
                 asked := asked s ++ round_calls url (Spoiled e);
                 lines := lines s ++
                   [attempt_line url attempt;
                    (Info, "URL is now available, opening browser...");
                    (Info, "Opening URL in browser: " +:+ url);
                    (Info, "Error checking URL: Error: " +:+ e)] |}
        end
    | (ok, w1) =>
        poll_loop host url callback rest
          {| env := setTimeout host interval w1;
             asked := asked s ++ round_calls url (Miss ok);
             lines := lines s ++ [attempt_line url attempt] |}
    end.
Proof.
  intros Hu. destruct url as [|c u] eqn:Eu; [done |]. rewrite <- Eu.
  assert (Hopen : ∀ s0, openUrl host (Some url) s0 = _) by (intros; by apply openUrl_run; subst).
  change (poll_loop host url callback (attempt :: rest) s) with
    (prog_bind (say Info (attempt_line url attempt).2)
       (λ _, prog_bind
          (prog_try
             (prog_bind (checkUrl host url) (λ isAvailable : bool,
                if isAvailable then
                  prog_bind (say Info "URL is now available, opening browser...")
                    (λ _, prog_bind (openUrl host (Some url))
                       (λ _, prog_bind (run_callback callback) (λ _, prog_ret true)))
                else prog_ret false))
             (λ error, prog_bind (say Info ("Error checking URL: Error: " +:+ error))
                         (λ _, prog_ret false)))
          (λ opened : bool,
             if opened then prog_ret tt
             else prog_bind (sleep host interval)
                    (λ _, poll_loop host url callback rest))) s).
  unfold checkUrl, run_callback, sleep, call, say, checked, mbind, mret,
    Desk_bind, Desk_ret, prog_try, prog_bind, prog_ret, prog_throw.
  simpl.
  destruct (fetchHead host url (env s)) as [[[|]|] w1]; simpl;
    [| by rewrite <- !app_assoc ..].
  rewrite Hopen. simpl.
  destruct (callback (openExternal host (browser_url url) w1)) as [[e|] w2]; simpl;
    by rewrite <- !app_assoc.
Qed.
(** One turn of the loop for the empty URL: [openUrl] throws inside the
    [try], so the turn ends in the wait whatever the answer was. *)
Lemma poll_round_blank (attempt : Z) (rest : list Z) (s : Desk W) :
  url = "" →
  ∃ ls, Forall (λ l, l.1 = Info) ls ∧
  poll_loop host url callback (attempt :: rest) s =
    let '(ok, w1) := fetchHead host url (env s) in
    poll_loop host url callback rest
      {| env := setTimeout host interval w1;
         asked := asked s ++ round_calls url (Miss ok);
         lines := lines s ++ ls |}.
Proof.
  intros ->.
  change (poll_loop host "" callback (attempt :: rest) s) with
    (prog_bind (say Info (attempt_line "" attempt).2)
       (λ _, prog_bind
          (prog_try
             (prog_bind (checkUrl host "") (λ isAvailable : bool,
                if isAvailable then
                  prog_bind (say Info "URL is now available, opening browser...")
                    (λ _, prog_bind (openUrl host (Some ""))
                       (λ _, prog_bind (run_callback callback) (λ _, prog_ret true)))
                else prog_ret false))
             (λ error, prog_bind (say Info ("Error checking URL: Error: " +:+ error))
                         (λ _, prog_ret false)))
          (λ opened : bool,
             if opened then prog_ret tt
             else prog_bind (sleep host interval)
                    (λ _, poll_loop host "" callback rest))) s).
  unfold checkUrl, run_callback, sleep, call, say, checked, mbind, mret,
    Desk_bind, Desk_ret, prog_try, prog_bind, prog_ret, prog_throw.
  simpl.
  destruct (fetchHead host "" (env s)) as [[[|]|] w1]; simpl;
    eexists; (split; [| by rewrite <- !app_assoc]); by repeat constructor.
Qed.

Lemma poll_loop_outcome (attempts : list Z) (s : Desk W) :
  url ≠ "" →
  ∃ s' rounds ls,
    poll_loop host url callback attempts s = (Ok tt, s') ∧
    lines s' = lines s ++ ls ∧
    Forall (λ l, l.1 = Info) ls ∧
    Forall (λ r, r ≠ Miss (Some true) ∧ answered host url callback r) rounds ∧
    ((length rounds < length attempts)%nat ∧
     asked s' = asked s ++ (rounds ≫= round_calls url) ++ final_round url ∧
     (∃ w, (callback w).1 = None)
     ∨
     length rounds = length attempts ∧
     asked s' = asked s ++ (rounds ≫= round_calls url) ∧
     last ls = Some timed_out).
Proof.
  intros Hu. revert s. induction attempts as [|attempt rest IH]; intros s.
  - eexists _, [], [timed_out]. split; [reflexivity |]. simpl.
    split_and!; [done | by repeat constructor | done |].
    right. by rewrite app_nil_r.
  - rewrite poll_round by done.
    destruct (fetchHead host url (env s)) as [ok w1] eqn:Hf.
    assert (Hmiss : ok ≠ Some true →
      ∃ s' rounds ls,
        poll_loop host url callback rest
          {| env := setTimeout host interval w1;
             asked := asked s ++ round_calls url (Miss ok);
             lines := lines s ++ [attempt_line url attempt] |} = (Ok tt, s') ∧
        lines s' = lines s ++ ls ∧
        Forall (λ l, l.1 = Info) ls ∧
        Forall (λ r, r ≠ Miss (Some true) ∧ answered host url callback r) rounds ∧
        ((length rounds < length (attempt :: rest))%nat ∧
         asked s' = asked s ++ (rounds ≫= round_calls url) ++ final_round url ∧
         (∃ w, (callback w).1 = None)
         ∨
         length rounds = length (attempt :: rest) ∧
         asked s' = asked s ++ (rounds ≫= round_calls url) ∧
         last ls = Some timed_out)).
    { intros Hok.
      destruct (IH {| env := setTimeout host interval w1;
                      asked := asked s ++ round_calls url (Miss ok);
                      lines := lines s ++ [attempt_line url attempt] |})
        as (s' & rounds & ls & Hrun & Hl & Hinfo & Hrounds & Hend).
      exists s', (Miss ok :: rounds), (attempt_line url attempt :: ls).
      simpl in Hl, Hend. rewrite <- app_assoc in Hl.
      split_and!; [done | done | by constructor | |].
      - constructor; [|done]. split; [congruence |]. exists (env s). by rewrite Hf.
      - rewrite bind_cons. simpl length.
        destruct Hend as [(Hlen & Ha & Hw) | (Hlen & Ha & Hlast)]; [left | right].
        + split_and!; [lia | by rewrite Ha, <- !app_assoc | done].
        + split_and!; [lia | by rewrite Ha, <- !app_assoc |].
          destruct ls; [done | done]. }
    destruct ok as [[|]|]; [| by apply Hmiss ..].
    destruct (callback (openExternal host (browser_url url) w1)) as [[e|] w2] eqn:Hc.
    + match goal with |- context [poll_loop host url callback rest ?st] =>
        destruct (IH st) as (s' & rounds & ls & Hrun & Hl & Hinfo & Hrounds & Hend)
      end.
      simpl in Hl, Hend. rewrite <- app_assoc in Hl.
      exists s', (Spoiled e :: rounds). eexists.
      split_and!; [done | exact Hl | by repeat constructor | |].
      * constructor; [|done]. split; [done |]. eexists. by rewrite Hc.
      * rewrite bind_cons. simpl length.
        destruct Hend as [(Hlen & Ha & Hw) | (Hlen & Ha & Hlast)]; [left | right].
        -- split_and!; [lia | by rewrite Ha, <- !app_assoc | done].
        -- split_and!; [lia | by rewrite Ha, <- !app_assoc |].
           destruct ls; done.
    + eexists _, [], _. split; [reflexivity |]. simpl.
      split_and!; [done | by repeat constructor | done |].
      left. split_and!; [lia | done |]. eexists. by rewrite Hc.
Qed.

Lemma poll_loop_blank (attempts : list Z) (s : Desk W) :
  url = "" →
  ∃ s' oks ls,
    poll_loop host url callback attempts s = (Ok tt, s') ∧
    lines s' = lines s ++ ls ∧
    Forall (λ l, l.1 = Info) ls ∧
    length oks = length attempts ∧
    asked s' = asked s ++ (oks ≫= λ ok, round_calls url (Miss ok)) ∧
    last ls = Some timed_out.
Proof.
  intros Hu. revert s. induction attempts as [|attempt rest IH]; intros s.
  - eexists _, [], [timed_out]. split; [reflexivity |]. simpl.
    split_and!; [done | by repeat constructor | done | by rewrite app_nil_r | done].
  - destruct (poll_round_blank attempt rest s Hu) as (l1 & Hl1 & ->).
    destruct (fetchHead host url (env s)) as [ok w1].
    match goal with |- context [poll_loop host url callback rest ?st] =>
      destruct (IH st) as (s' & oks & ls & Hrun & Hl & Hinfo & Hlen & Ha & Hlast)
    end.
    simpl in Hl, Ha. rewrite <- app_assoc in Hl.
    exists s', (ok :: oks), (l1 ++ ls).
    split_and!; [done | done | by apply Forall_app | by simpl; f_equal | |].
    + by rewrite bind_cons, Ha, <- !app_assoc.
    + rewrite last_app, Hlast. done.
Qed.

Lemma fetches_rounds (rounds : list Round) :
  fetches (rounds ≫= round_calls url) = fetched <$> rounds.
Proof.
  induction rounds as [|r rounds IH]; [done |].
  rewrite bind_cons, fmap_cons. unfold fetches in *. rewrite omap_app, IH.
  by destruct r.
Qed.

Lemma timers_rounds (rounds : list Round) :
  timers (rounds ≫= round_calls url) = replicate (length rounds) interval.
Proof.
  induction rounds as [|r rounds IH]; [done |].
  rewrite bind_cons. unfold timers in *. rewrite omap_app, IH.
  by destruct r.
Qed.

Lemma opens_rounds (rounds : list Round) :
  Forall (λ r, r ≠ Miss (Some true)) rounds →
  opens (rounds ≫= round_calls url) =
    replicate (length (filter (λ ok, ok = Some true) (fetched <$> rounds)))
              (browser_url url).
Proof.
  induction 1 as [|r rounds Hr _ IH]; [done |].
  rewrite bind_cons, fmap_cons. unfold opens in *. rewrite omap_app, IH.
  destruct r as [[[|]|]|e]; try done.
Qed.
End Polling.

Lemma pollUrl_attempts : length (seqZ 1 Desktop.maxAttempts) = 1800%nat.
Proof. by rewrite length_seqZ. Qed.

(** X14. With a URL that is not empty and a callback that does not throw,
    [pollUrl] sends HEAD requests two seconds apart until one answers ok;
    then it opens the browser once, calls the callback and stops.  When 1800
    requests in a row did not answer ok it gives up, without having opened
    the browser, and logs "URL check timed out after 5 minutes". *)
Theorem pollUrl_opens_the_browser_once {W} (host : Desktop.Host W) (url : string)
    (callback : W → option string * W) (s : Desktop.Desk W) :
  url ≠ "" →
  (∀ w, (callback w).1 = None) →
  ∃ s' (misses : list (option bool)),
    Desktop.pollUrl host url callback s = (Ok tt, s') ∧
    Forall (λ ok, ok ≠ Some true) misses ∧
    let waiting :=
      misses ≫= λ ok, [Desktop.CFetch url ok; Desktop.CTimeout 2000] in
    ((length misses < 1800)%nat ∧
     Desktop.asked s' = Desktop.asked s ++ waiting ++
       [Desktop.CFetch url (Some true);
        Desktop.COpenExternal (Desktop.browser_url url);
        Desktop.CCallback None]
     ∨
     length misses = 1800%nat ∧
     Desktop.asked s' = Desktop.asked s ++ waiting ∧
     last (Desktop.lines s') = Some (Info, "URL check timed out after 5 minutes")).
Proof.
  intros Hu Hcb.
  destruct (poll_loop_outcome host url callback (seqZ 1 Desktop.maxAttempts) s Hu)
    as (s' & rounds & ls & Hrun & Hl & _ & Hrounds & Hend).
  rewrite pollUrl_attempts in Hend.
  exists s', (Desktop.fetched <$> rounds).
  assert (Hmiss : Forall (λ r, ∃ ok, r = Desktop.Miss ok ∧ ok ≠ Some true) rounds).
  { eapply Forall_impl; [exact Hrounds |].
    intros [ok|e] [Hne Ha].
    - exists ok. split; [done | congruence].
    - destruct Ha as [w Hw]. by rewrite Hcb in Hw. }
  assert (Hcalls : rounds ≫= Desktop.round_calls url =
            (Desktop.fetched <$> rounds) ≫=
              λ ok, [Desktop.CFetch url ok; Desktop.CTimeout 2000]).
  { clear -Hmiss. induction Hmiss as [|r rounds (ok & -> & _) _ IH]; [done |].
    by rewrite fmap_cons, !bind_cons, IH. }
  split; [exact Hrun |]. split.
  - clear -Hmiss. induction Hmiss as [|r rounds (ok & -> & Hok) _ IH]; [done |].
    rewrite fmap_cons. by constructor.
  - cbv zeta. rewrite length_fmap, <- Hcalls.
    destruct Hend as [(Hlen & Ha & _) | (Hlen & Ha & Hlast)]; [left | right].
    + by split.
    + split_and!; [done | done |].
      rewrite Hl, last_app, Hlast. done.
Qed.

Lemma pollUrl_opens_the_browser_once_witness :
  ∃ s' (misses : list (option bool)),
    Desktop.pollUrl (Desktop.toy_net 3) "http://localhost:8080" (λ n, (None, n))
      {| Desktop.env := 0%nat; Desktop.asked := []; Desktop.lines := [] |} = (Ok tt, s') ∧
    Forall (λ ok, ok ≠ Some true) misses ∧
    let waiting :=
      misses ≫= λ ok, [Desktop.CFetch "http://localhost:8080" ok; Desktop.CTimeout 2000] in
    ((length misses < 1800)%nat ∧
     Desktop.asked s' = [] ++ waiting ++
       [Desktop.CFetch "http://localhost:8080" (Some true);
        Desktop.COpenExternal (Desktop.browser_url "http://localhost:8080");
        Desktop.CCallback None]
     ∨
     length misses = 1800%nat ∧
     Desktop.asked s' = [] ++ waiting ∧
     last (Desktop.lines s') = Some (Info, "URL check timed out after 5 minutes")).
Proof.
  apply (pollUrl_opens_the_browser_once (Desktop.toy_net 3) "http://localhost:8080"
           (λ n, (None, n))
           {| Desktop.env := 0%nat; Desktop.asked := []; Desktop.lines := [] |}).
  - discriminate.
  - reflexivity.
Defined.

(** X15. A callback that throws does not end the polling: the error is
    logged inside the loop and the loop goes on, so [pollUrl] makes all its
    1800 requests, two seconds apart, and opens the browser again after every
    request that answers ok. *)
Theorem pollUrl_reopens_the_browser_when_the_callback_throws {W}
    (host : Desktop.Host W) (url : string) (callback : W → option string * W)
    (s : Desktop.Desk W) :
  url ≠ "" →
  (∀ w, (callback w).1 ≠ None) →
  ∃ s' t,
    Desktop.pollUrl host url callback s = (Ok tt, s') ∧
    Desktop.asked s' = Desktop.asked s ++ t ∧
    length (Desktop.fetches t) = 1800%nat ∧
    Desktop.timers t = replicate 1800 2000 ∧
    Desktop.opens t =
      replicate (length (filter (λ ok, ok = Some true) (Desktop.fetches t)))
                (Desktop.browser_url url).
Proof.
  intros Hu Hcb.
  destruct (poll_loop_outcome host url callback (seqZ 1 Desktop.maxAttempts) s Hu)
    as (s' & rounds & ls & Hrun & _ & _ & Hrounds & Hend).
  rewrite pollUrl_attempts in Hend.
  destruct Hend as [(_ & _ & w & Hw) | (Hlen & Ha & _)]; [by destruct (Hcb w) |].
  exists s', (rounds ≫= Desktop.round_calls url).
  rewrite fetches_rounds, timers_rounds, length_fmap, Hlen.
  split_and!; [done | done | done | done |].
  rewrite opens_rounds; [done |].
  eapply Forall_impl; [exact Hrounds |]. by intros r [? _].
Qed.

Lemma pollUrl_reopens_the_browser_witness :
  ∃ s' t,
    Desktop.pollUrl (Desktop.toy_net 1) "http://localhost:8080"
      (λ n, (Some "no tray", n))
      {| Desktop.env := 0%nat; Desktop.asked := []; Desktop.lines := [] |} = (Ok tt, s') ∧
    Desktop.asked s' = [] ++ t ∧
    length (Desktop.fetches t) = 1800%nat ∧
    Desktop.timers t = replicate 1800 2000 ∧
    Desktop.opens t =
      replicate (length (filter (λ ok, ok = Some true) (Desktop.fetches t)))
                (Desktop.browser_url "http://localhost:8080").
Proof.
  apply (pollUrl_reopens_the_browser_when_the_callback_throws (Desktop.toy_net 1)
           "http://localhost:8080" (λ n, (Some "no tray", n))
           {| Desktop.env := 0%nat; Desktop.asked := []; Desktop.lines := [] |}).
  - discriminate.
  - discriminate.
Defined.

(** X16. The task that [checkUrlAndOpen] starts never rejects, whatever the
    network, the shell and the callback do, so its [catch] never logs: it
    writes info lines only.  It makes between 1 and 1800 HEAD requests, every
    wait is of 2000 ms, it opens the browser only with the URL that [openUrl]
    derives from its argument, at most once per request that answered ok and
    never for the empty URL, and it stops before the 1800th request only
    after a callback that returned. *)
Theorem checkUrlAndOpen_never_rejects {W} (host : Desktop.Host W) (url : string)
    (callback : W → option string * W) (s : Desktop.Desk W) :
  ∃ s' t ls,
    Desktop.checkUrlAndOpen host url callback s = (Ok tt, s') ∧
    Desktop.asked s' = Desktop.asked s ++ t ∧
    Desktop.lines s' = Desktop.lines s ++ ls ∧
    Forall (λ l, l.1 = Info) ls ∧
    (1 ≤ length (Desktop.fetches t) ≤ 1800)%nat ∧
    Forall (λ ms, ms = 2000) (Desktop.timers t) ∧
    Forall (λ u, u = Desktop.browser_url url ∧ url ≠ "") (Desktop.opens t) ∧
    (length (Desktop.opens t) ≤
       length (filter (λ ok, ok = Some true) (Desktop.fetches t)))%nat ∧
    ((length (Desktop.fetches t) < 1800)%nat → last t = Some (Desktop.CCallback None)).
Proof.
  unfold Desktop.checkUrlAndOpen, prog_try, Desktop.pollUrl.
  destruct (decide (url = "")) as [Hu|Hu].
  - destruct (poll_loop_blank host url callback (seqZ 1 Desktop.maxAttempts) s Hu)
      as (s' & oks & ls & -> & Hl & Hinfo & Hlen & Ha & _).
    rewrite pollUrl_attempts in Hlen.
    exists s', (oks ≫= λ ok, Desktop.round_calls url (Desktop.Miss ok)), ls.
    assert (Hf : Desktop.fetches (oks ≫= λ ok, Desktop.round_calls url (Desktop.Miss ok)) = oks).
    { clear. induction oks as [|ok oks IH]; [done |].
      rewrite bind_cons. unfold Desktop.fetches in *. rewrite omap_app, IH. done. }
    assert (Ht : Desktop.timers (oks ≫= λ ok, Desktop.round_calls url (Desktop.Miss ok)) =
                 replicate (length oks) 2000).
    { clear. induction oks as [|ok oks IH]; [done |].
      rewrite bind_cons. unfold Desktop.timers in *. rewrite omap_app, IH. done. }
    assert (Ho : Desktop.opens (oks ≫= λ ok, Desktop.round_calls url (Desktop.Miss ok)) = []).
    { clear. induction oks as [|ok oks IH]; [done |].
      rewrite bind_cons. unfold Desktop.opens in *. rewrite omap_app, IH. done. }
    rewrite Hf, Ht, Ho, Hlen.
    split_and!; try done; try lia.
    + by apply Forall_replicate.
    + simpl. lia.
  - destruct (poll_loop_outcome host url callback (seqZ 1 Desktop.maxAttempts) s Hu)
      as (s' & rounds & ls & -> & Hl & Hinfo & Hrounds & Hend).
    rewrite pollUrl_attempts in Hend.
    assert (Hplain : Forall (λ r, r ≠ Desktop.Miss (Some true)) rounds).
    { eapply Forall_impl; [exact Hrounds |]. by intros r [? _]. }
    destruct Hend as [(Hlen & Ha & _) | (Hlen & Ha & _)].
    + exists s', ((rounds ≫= Desktop.round_calls url) ++ Desktop.final_round url), ls.
      unfold Desktop.fetches, Desktop.timers, Desktop.opens.
      rewrite !omap_app.
      fold (Desktop.fetches (rounds ≫= Desktop.round_calls url)).
      fold (Desktop.timers (rounds ≫= Desktop.round_calls url)).
      fold (Desktop.opens (rounds ≫= Desktop.round_calls url)).
      rewrite fetches_rounds, timers_rounds, opens_rounds by done. simpl.
      rewrite app_nil_r, filter_app, !length_app, length_fmap, !length_replicate.
      simpl.
      split_and!; try done; try lia.
      * by apply Forall_replicate.
      * apply Forall_app. split; [by apply Forall_replicate | by repeat constructor].
      * intros _. by rewrite last_app.
    + exists s', (rounds ≫= Desktop.round_calls url), ls.
      rewrite fetches_rounds, timers_rounds, opens_rounds by done.
      rewrite length_fmap, !length_replicate, Hlen.
      split_and!; try done; try lia.
      * by apply Forall_replicate.
      * by apply Forall_replicate.
Qed.

(** X17. The URL that [startServer] returns reaches the browser through
    [openUrl] as localhost when the server listens on 0.0.0.0 (serving on the
    local network), and unchanged, as 127.0.0.1, when it does not; the port is
    the one that was chosen, at most 100 above the desired one. *)
Theorem started_server_opens_on_localhost {W V} (os : OS W) (host : Desktop.Host V)
    (expose : bool) (port : PortArg) (st : State W) (url : string) (pid : Z)
    (s : Desktop.Desk V) :
  (startServer os expose port st).1 = Ok (url, pid) →
  ∃ p s',
    desired_port port ≤ p ≤ desired_port port + 100 ∧
    url = "http://" +:+ (if expose then "0.0.0.0" else "127.0.0.1") +:+ ":" +:+ show_Z p ∧
    Desktop.openUrl host (Some url) s = (Ok tt, s') ∧
    Desktop.asked s' = Desktop.asked s ++
      [Desktop.COpenExternal
         ("http://" +:+ (if expose then "localhost" else "127.0.0.1") +:+ ":" +:+ show_Z p)].
Proof.
  intros Hok.
  destruct (startServer_outcome os expose port st)
    as (t & n & Hprobed & Hn & Hplain & Hres).
  rewrite Hok in Hres.
  destruct Hres as (st2 & Hn1 & Hpid & -> & _).
  exists (desired_port port + Z.of_nat n - 1). eexists.
  split; [lia |]. split; [done |].
  split; [apply openUrl_run; by destruct expose |]. simpl.
  destruct expose.
  - pose proof (browser_url_exposed (":" +:+ show_Z (desired_port port + Z.of_nat n - 1)))
      as Hb.
    by do 3 f_equal.
  - rewrite browser_url_other; [done | reflexivity].
Qed.

Lemma started_server_opens_on_localhost_witness :
  ∃ p s',
    8080 ≤ p ≤ 8080 + 100 ∧
    "http://0.0.0.0:8081" = "http://" +:+ "0.0.0.0" +:+ ":" +:+ show_Z p ∧
    Desktop.openUrl Desktop.ToyFS.host (Some "http://0.0.0.0:8081") (Desktop.ToyFS.init []) = (Ok tt, s') ∧
    Desktop.asked s' = [] ++
      [Desktop.COpenExternal ("http://" +:+ "localhost" +:+ ":" +:+ show_Z p)].
Proof.
  apply (started_server_opens_on_localhost (Toy.os Posix [8080]) Desktop.ToyFS.host
           true PNull (Toy.init Toy.fresh Toy.empty_registry)
           "http://0.0.0.0:8081" 4242 (Desktop.ToyFS.init [])).
  by vm_compute.
Defined.

(** ** The secret key *)

Section KeyStore.
Import Desktop.
Context {W : Type} (host : Host W).

Lemma mkdirs_trans (w1 w2 w3 : W) : mkdirs host w1 w2 → mkdirs host w2 w3 → mkdirs host w1 w3.
Proof. induction 1; [done |]. intros. econstructor; eauto. Qed.

Lemma ensure_dir_run (dir : Path) (s : Desk W) :
  ∃ s' t ls,
    ensure_dir host dir s = (Ok tt, s') ∧
    mkdirs host (env s) (env s') ∧
    asked s' = asked s ++ t ∧ Forall is_mkdir t ∧
    lines s' = lines s ++ ls.
Proof.
  unfold ensure_dir, look, call, checked, say, mbind, mret, Desk_bind, Desk_ret,
    prog_try, prog_bind, prog_ret, prog_throw.
  destruct (existsSync host dir (env s)).
  - exists s, [], []. rewrite !app_nil_r. split_and!; [done | constructor | done..].
  - destruct (mkdirSync host dir (env s)) as [[e|] w] eqn:Hm; simpl;
      eexists _, [_], _; (split; [reflexivity |]); simpl;
      (split_and!; [by econstructor; [exact Hm | constructor] | done | by repeat constructor |]).
    + done.
    + by rewrite app_nil_r.
Qed.

Lemma getOpenWebUIDataPath_run (s : Desk W) :
  ∃ s' t ls,
    getOpenWebUIDataPath host s = (Ok (Join UserData "data"), s') ∧
    mkdirs host (env s) (env s') ∧
    asked s' = asked s ++ t ∧ Forall is_mkdir t ∧
    lines s' = lines s ++ ls.
Proof.
  unfold getOpenWebUIDataPath, getUserDataPath, mbind, mret, Desk_bind, Desk_ret.
  unfold prog_bind at 1 2.
  destruct (ensure_dir_run UserData s) as (s1 & t1 & l1 & -> & Hw1 & Ha1 & Ht1 & Hl1).
  unfold prog_ret at 1. unfold prog_bind.
  destruct (ensure_dir_run (Join UserData "data") s1) as (s2 & t2 & l2 & -> & Hw2 & Ha2 & Ht2 & Hl2).
  exists s2, (t1 ++ t2), (l1 ++ l2).
  split_and!; [done | by eapply mkdirs_trans | | by apply Forall_app |].
  - by rewrite Ha2, Ha1, <- app_assoc.
  - by rewrite Hl2, Hl1, <- app_assoc.
Qed.

Lemma getSecretKey_run (keyPath key : option string) (s : Desk W) :
  ∃ s' t ls,
    getSecretKey host keyPath key s = stored_key host (key_file keyPath) key s' ∧
    mkdirs host (env s) (env s') ∧
    asked s' = asked s ++ t ∧ Forall is_mkdir t ∧
    lines s' = lines s ++ ls.
Proof.
  unfold getSecretKey, key_file.
  destruct (Text.falsy keyPath).
  - unfold mbind, mret, Desk_bind, Desk_ret. unfold prog_bind at 1 2.
    destruct (getOpenWebUIDataPath_run s) as (s1 & t1 & l1 & -> & Hw1 & Ha1 & Ht1 & Hl1).
    exists s1, t1, l1. by split_and!.
  - exists s, [], []. rewrite !app_nil_r. split_and!; [done | constructor | done..].
Qed.

Hypothesis written_file_is_read : ∀ p data w w',
  writeFileSync host p data w = (None, w') →
  existsSync host p w' = true ∧ readFileSync host p w' = Ok data.
Hypothesis mkdir_keeps_files : ∀ dir p w threw w',
  mkdirSync host dir w = (threw, w') →
  existsSync host p w = true →
  existsSync host p w' = true ∧ readFileSync host p w' = readFileSync host p w.

Lemma mkdirs_keep_files (p : Path) (w w' : W) :
  mkdirs host w w' →
  existsSync host p w = true →
  existsSync host p w' = true ∧ readFileSync host p w' = readFileSync host p w.
Proof.
  induction 1 as [|dir w threw w1 w2 Hm _ IH]; [done |].
  intros He. destruct (mkdir_keeps_files dir p w threw w1 Hm He) as [He1 Hr1].
  destruct (IH He1) as [He2 Hr2]. split; [done | congruence].
Qed.

Lemma stored_key_result (p : Path) (key : option string) (s : Desk W) (k : string)
    (s1 : Desk W) :
  stored_key host p key s = (Ok k, s1) →
  existsSync host p (env s1) = true ∧ readFileSync host p (env s1) = Ok k.
Proof.
  unfold stored_key, look, attempt, call, checked, mbind, mret, Desk_bind, Desk_ret,
    prog_bind, prog_ret, prog_throw.
  destruct (existsSync host p (env s)) eqn:He.
  - destruct (readFileSync host p (env s)) eqn:Hr; intros [= <- <-]. by split.
  - destruct (Text.falsy key).
    + destruct (randomBytes host 64 (env s)) as [hex w1]. simpl.
      destruct (writeFileSync host p hex w1) as [[e|] w2] eqn:Hw; simpl; [done |].
      intros [= <- <-]. simpl. by eapply written_file_is_read.
    + simpl.
      destruct (writeFileSync host p (default "" key) (env s)) as [[e|] w2] eqn:Hw;
        simpl; [done |].
      intros [= <- <-]. simpl. by eapply written_file_is_read.
Qed.

Lemma stored_key_again (p : Path) (key : option string) (s : Desk W) (k : string) :
  existsSync host p (env s) = true → readFileSync host p (env s) = Ok k →
  stored_key host p key s = (Ok k, s).
Proof.
  intros He Hr.
  unfold stored_key, look, attempt, mbind, Desk_bind, prog_bind. by rewrite He, Hr.
Qed.
End KeyStore.

Lemma toy_written_file_is_read (p : Desktop.Path) (data : string)
    (w w' : Desktop.ToyFS.World) :
  Desktop.writeFileSync Desktop.ToyFS.host p data w = (None, w') →
  Desktop.existsSync Desktop.ToyFS.host p w' = true ∧
  Desktop.readFileSync Desktop.ToyFS.host p w' = Ok data.
Proof.
  simpl. destruct (Desktop.ToyFS.find p w) as [[old|]|]; intros [= <-];
    unfold Desktop.ToyFS.find; simpl;
    rewrite (bool_decide_true (p = p)) by done; simpl;
    by split.
Qed.

Lemma toy_mkdir_keeps_files (dir p : Desktop.Path) (w : Desktop.ToyFS.World)
    (threw : option string) (w' : Desktop.ToyFS.World) :
  Desktop.mkdirSync Desktop.ToyFS.host dir w = (threw, w') →
  Desktop.existsSync Desktop.ToyFS.host p w = true →
  Desktop.existsSync Desktop.ToyFS.host p w' = true ∧
  Desktop.readFileSync Desktop.ToyFS.host p w' = Desktop.readFileSync Desktop.ToyFS.host p w.
Proof.
  simpl. destruct (Desktop.ToyFS.find dir w) as [d|] eqn:Hd; intros [= <- <-]; [done |].
  intros He. apply bool_decide_eq_true in He.
  assert (Hp : Desktop.ToyFS.find p ((dir, None) :: w) = Desktop.ToyFS.find p w).
  { unfold Desktop.ToyFS.find. simpl. rewrite bool_decide_false; [done |].
    intros ->. rewrite Hd in He. by destruct He. }
  rewrite Hp. split; [by apply bool_decide_eq_true | done].
Qed.

(** X18. Once [getSecretKey] has returned a key, a later call for the same
    key file returns that key again, whatever key the caller proposes, and
    neither writes a file nor draws random bytes, on a file system where a
    written file exists and reads back as written and where creating a
    directory leaves existing files as they are. *)
Theorem getSecretKey_is_stable {W} (host : Desktop.Host W)
    (keyPath key key' : option string) (s s1 : Desktop.Desk W) (k : string) :
  (∀ p data w w',
     Desktop.writeFileSync host p data w = (None, w') →
     Desktop.existsSync host p w' = true ∧ Desktop.readFileSync host p w' = Ok data) →
  (∀ dir p w threw w',
     Desktop.mkdirSync host dir w = (threw, w') →
     Desktop.existsSync host p w = true →
     Desktop.existsSync host p w' = true ∧
     Desktop.readFileSync host p w' = Desktop.readFileSync host p w) →
  Desktop.getSecretKey host keyPath key s = (Ok k, s1) →
  ∃ s2 t,
    Desktop.getSecretKey host keyPath key' s1 = (Ok k, s2) ∧
    Desktop.asked s2 = Desktop.asked s1 ++ t ∧
    Forall Desktop.is_mkdir t.
Proof.
  intros Hwrite Hmkdir Hrun.
  destruct (getSecretKey_run host keyPath key s) as (s0 & t0 & l0 & Hr0 & _).
  rewrite Hr0 in Hrun.
  apply (stored_key_result host Hwrite) in Hrun as [He Hr].
  destruct (getSecretKey_run host keyPath key' s1) as (s2 & t & ls & -> & Hw & Ha & Ht & _).
  destruct (mkdirs_keep_files host Hmkdir (Desktop.key_file keyPath) _ _ Hw He) as [He2 Hr2].
  exists s2, t. split_and!; [| done | done].
  apply stored_key_again; [done | congruence].
Qed.

Lemma getSecretKey_is_stable_witness :
  ∃ s2 t,
    Desktop.getSecretKey Desktop.ToyFS.host None (Some "another key")
      (Desktop.getSecretKey Desktop.ToyFS.host None None (Desktop.ToyFS.init [])).2 =
      (Ok "5ec2e7", s2) ∧
    Desktop.asked s2 =
      Desktop.asked (Desktop.getSecretKey Desktop.ToyFS.host None None (Desktop.ToyFS.init [])).2 ++ t ∧
    Forall Desktop.is_mkdir t.
Proof.
  apply (getSecretKey_is_stable Desktop.ToyFS.host None None (Some "another key")
           (Desktop.ToyFS.init [])
           (Desktop.getSecretKey Desktop.ToyFS.host None None (Desktop.ToyFS.init [])).2
           "5ec2e7" toy_written_file_is_read toy_mkdir_keeps_files).
  by vm_compute.
Defined.

(** ** Running Python code *)

Lemma str_app_assoc (a b c : string) : (a +:+ b) +:+ c = a +:+ (b +:+ c).
Proof. induction a as [|x a IH]; [done |]. by rewrite !append_cons, IH. Qed.

Lemma str_app_nil_r (a : string) : a +:+ "" = a.
Proof. induction a as [|x a IH]; [done |]. by rewrite append_cons, IH. Qed.

Section PythonFacts.
Import Python.

Lemma settle_settled {A} (v w : A) (p : option A) :
  p = Some w → settle v p = Some w.
Proof. by intros ->. Qed.

Lemma run_output (events : list ChildEvent) (r : Running) :
  Forall is_data events →
  foldl (λ r ev, on_event ev r) r events =
    {| out := out r +:+ written Stdout events;
       err := err r +:+ written Stderr events;
       promise := promise r; logged := logged r; spawned := spawned r |}.
Proof.
  intros Hd. revert r. induction Hd as [|ev events Hev _ IH]; intros r.
  - simpl. rewrite !str_app_nil_r. by destruct r.
  - destruct ev as [[|] data| |]; try done; simpl; rewrite IH; simpl;
      by rewrite ?str_app_assoc.
Qed.

Lemma run_settled (events : list ChildEvent) (r : Running) (v : Result ExecResult) :
  promise r = Some v →
  promise (foldl (λ r ev, on_event ev r) r events) = Some v.
Proof.
  revert r. induction events as [|ev events IH]; intros r Hp; [done |].
  simpl. apply IH. destruct ev as [[|] data| code sig | message]; simpl; try done;
    by apply settle_settled.
Qed.

Lemma run_spawned (events : list ChildEvent) (r : Running) :
  spawned (foldl (λ r ev, on_event ev r) r events) = spawned r.
Proof.
  revert r. induction events as [|ev events IH]; intros r; [done |].
  simpl. rewrite IH. by destruct ev as [[|] data| code sig | message].
Qed.

Lemma install_output (events : list InstallEvent) (r : Installing) :
  Forall is_output events →
  install_promise (foldl (λ r ev, on_install_event ev r) r events) = install_promise r.
Proof.
  intros Hd. revert r. induction Hd as [|ev events Hev _ IH]; intros r; [done |].
  destruct ev; try done. simpl. by rewrite IH.
Qed.

Lemma install_settled (events : list InstallEvent) (r : Installing) (v : Outcome) :
  install_promise r = Some v →
  install_promise (foldl (λ r ev, on_install_event ev r) r events) = Some v.
Proof.
  revert r. induction events as [|ev events IH]; intros r Hp; [done |].
  simpl. apply IH. destruct ev as [data | code | message]; simpl; try done.
  - case_bool_decide; simpl; by apply settle_settled.
  - by apply settle_settled.
Qed.

(** Every run of events is output only, or has a first exit or error. *)
Lemma install_events_split (events : list InstallEvent) :
  Forall is_output events ∨
  ∃ before ev after,
    events = before ++ ev :: after ∧ Forall is_output before ∧ ¬ is_output ev.
Proof.
  induction events as [|ev events IH]; [by left |].
  destruct ev as [data | code | message].
  - destruct IH as [Hall | (before & ev & after & -> & Hb & Hev)].
    + left. by constructor.
    + right. exists (IData data :: before), ev, after.
      split_and!; [done | by constructor | done].
  - right. exists [], (IExit code), events. split_and!; [done | constructor | by intros []].
  - right. exists [], (IError message), events. split_and!; [done | constructor | by intros []].
Qed.

Lemma install_first (before after : list InstallEvent) (ev : InstallEvent) :
  Forall is_output before →
  install_promise (installPackage true "open-webui" None (before ++ ev :: after)) =
    match ev with
    | IData _ => install_promise (installPackage true "open-webui" None after)
    | IExit code => Some (Resolved (bool_decide (code = Some 0)))
    | IError message => Some (Rejected (Some message))
    end.
Proof.
  intros Hb. unfold installPackage. simpl negb. cbv iota.
  rewrite foldl_app. simpl.
  destruct ev as [data | code | message].
  - cbn [on_install_event].
    match goal with |- install_promise (foldl _ ?r after) = install_promise (foldl _ ?r0 after) =>
      assert (Hsame : install_promise r = install_promise r0) by (by rewrite install_output)
    end.
    revert Hsame. generalize (foldl (λ r ev, on_install_event ev r)
      {| install_promise := None; install_logged := [];
         install_spawned := Some (install_args "open-webui" None) |} before).
    generalize ({| install_promise := None; install_logged := [];
                   install_spawned := Some (install_args "open-webui" None) |}).
    intros r0 r Hsame. clear Hb.
    assert (Hgen : ∀ a b, install_promise a = install_promise b →
              install_promise (foldl (λ r ev, on_install_event ev r) a after) =
              install_promise (foldl (λ r ev, on_install_event ev r) b after)).
    { clear. induction after as [|ev after IH]; intros a b Hab; [done |].
      simpl. apply IH. destruct ev as [data | code | message]; simpl; [done | |].
      - case_bool_decide; simpl; by rewrite Hab.
      - by rewrite Hab. }
    apply Hgen. by rewrite <- Hsame.
  - apply install_settled. cbn [on_install_event].
    rewrite (install_output before) by done.
    case_bool_decide as Hc; simpl.
    + by rewrite bool_decide_false.
    + rewrite bool_decide_true; [done |]. by destruct (decide (code = Some 0)).
  - apply install_settled. cbn [on_install_event]. simpl.
    by rewrite (install_output before).
Qed.
Lemma install_first_unique (b1 a1 b2 a2 : list InstallEvent) (e1 e2 : InstallEvent) :
  b1 ++ e1 :: a1 = b2 ++ e2 :: a2 →
  Forall is_output b1 → Forall is_output b2 →
  ¬ is_output e1 → ¬ is_output e2 →
  e1 = e2.
Proof.
  intros E H1. revert b2 E. induction H1 as [|x b1 Hx _ IH]; intros b2 E H2 N1 N2.
  - destruct H2 as [|y b2 Hy _]; simpl in E; [congruence |].
    injection E as -> _. done.
  - destruct H2 as [|y b2 Hy H2]; simpl in E.
    + injection E as -> _. done.
    + injection E as _ E. by eapply IH.
Qed.

Lemma install_not_output (events before after : list InstallEvent) (ev : InstallEvent) :
  events = before ++ ev :: after → Forall is_output events → is_output ev.
Proof.
  intros -> H. apply Forall_app in H as [_ H]. by inversion H.
Qed.
End PythonFacts.


(** X20. The handler of [install:package] tells the renderer that the
    package is installed exactly when Python is installed and the first exit
    or error event of the installer is an exit with code 0, and that it is
    not exactly when Python is missing or that first event is an error.  In
    the remaining cases it sends nothing: while the installer runs, and when
    the installer exits with another code or with none. *)
Theorem install_package_handler_reports (installed : bool)
    (events : list Python.InstallEvent) :
  let sent := Python.install_package_handler installed events in
  let first (ev : Python.InstallEvent) :=
    ∃ before after, events = before ++ ev :: after ∧ Forall Python.is_output before in
  (sent = [("status:package", true)] ↔
     installed = true ∧ first (Python.IExit (Some 0))) ∧
  (sent = [("status:package", false)] ↔
     installed = false ∨ ∃ message, first (Python.IError message)) ∧
  (sent = [] ↔
     installed = true ∧
     (Forall Python.is_output events ∨
      ∃ code, code ≠ Some 0 ∧ first (Python.IExit code))).
Proof.
  intros sent first. subst sent first. unfold Python.install_package_handler.
  destruct installed.
  2:{ simpl. split_and!.
      - split; [done | by intros [? _]].
      - split; [by left | done].
      - split; [done | by intros [? _]]. }
  destruct (install_events_split events)
    as [Hall | (before & ev & after & Hev & Hb & Hn)].
  - unfold Python.installPackage. simpl negb. cbv iota.
    rewrite install_output by done. simpl.
    split_and!.
    + split; [done |].
      intros (_ & b & a & E & _). by destruct (install_not_output _ _ _ _ E Hall).
    + split; [done |].
      intros [? | (m & b & a & E & _)]; [done |].
      by destruct (install_not_output _ _ _ _ E Hall).
    + split; [| done]. intros _. split; [done | by left].
  - assert (Hu : ∀ ev' b a, events = b ++ ev' :: a → Forall Python.is_output b →
                   ¬ Python.is_output ev' → ev = ev').
    { intros ev' b a E Hb' Hn'. rewrite Hev in E.
      by eapply install_first_unique. }
    assert (Hstop : ¬ Forall Python.is_output events).
    { intros Hall. apply Hn. by eapply install_not_output. }
    assert (Hp : Python.install_promise (Python.installPackage true "open-webui" None events) =
              match ev with
              | Python.IData _ => None
              | Python.IExit code => Some (Python.Resolved (bool_decide (code = Some 0)))
              | Python.IError message => Some (Python.Rejected (Some message))
              end).
    { rewrite Hev, install_first by done. destruct ev; [by destruct Hn | done..]. }
    rewrite Hp. clear Hp.
    destruct ev as [data | code | message]; [by destruct Hn | |].
    + case_bool_decide as Hc; simpl.
      * subst code. split_and!.
        -- split; [| done]. intros _. split; [done |]. by exists before, after.
        -- split; [done |]. intros [? | (m & b & a & E & Hb')]; [done |].
           by specialize (Hu _ _ _ E Hb' (λ x, x)).
        -- split; [done |]. intros [_ [Hall | (c & Hc & b & a & E & Hb')]]; [done |].
           specialize (Hu _ _ _ E Hb' (λ x, x)). congruence.
      * split_and!.
        -- split; [done |]. intros (_ & b & a & E & Hb').
           specialize (Hu _ _ _ E Hb' (λ x, x)). congruence.
        -- split; [done |]. intros [? | (m & b & a & E & Hb')]; [done |].
           by specialize (Hu _ _ _ E Hb' (λ x, x)).
        -- split; [| done]. intros _. split; [done |]. right. exists code.
           split; [done |]. by exists before, after.
    + simpl. split_and!.
      * split; [done |]. intros (_ & b & a & E & Hb').
        by specialize (Hu _ _ _ E Hb' (λ x, x)).
      * split; [| done]. intros _. right. exists message. by exists before, after.
      * split; [done |]. intros [_ [Hall | (c & Hc & b & a & E & Hb')]]; [done |].
        by specialize (Hu _ _ _ E Hb' (λ x, x)).
Qed.

(** ** The Python console *)

Section ReplFacts.
Import Repl.

Lemma numbered_step (c : Component) (act : Action) : numbered c → numbered (step c act).
Proof.
  intros [Hi Hc]. destruct act as [text | | | [result | message]]; simpl;
    try done; destruct (isRunning c); try done.
  - unfold runCode_begin. by destruct (Text.falsy _).
  - split; cbn [history executionCount]; rewrite length_cons; [| lia].
    rewrite fmap_cons, seqZ_S, reverse_snoc, Hi. cbn [index]. f_equal. lia.
Qed.

Lemma requests_step (c : Component) (act : Action) :
  Forall (λ sent, trim sent ≠ "") (requests c) →
  Forall (λ sent, trim sent ≠ "") (requests (step c act)).
Proof.
  intros H. destruct act as [text | | | [result | message]]; simpl;
    try done; destruct (isRunning c); try done.
  unfold runCode_begin. destruct (trim (code c)) eqn:E; simpl; [done |].
  apply Forall_app. split; [done |]. constructor; [| done]. by rewrite E.
Qed.

Lemma pending_step (c : Component) (act : Action) (answers : nat) :
  (length (requests c) ≤ answers + (if isRunning c then 1 else 0))%nat →
  (length (requests (step c act)) ≤
     (if decide (is_answer act) then S answers else answers) +
     (if isRunning (step c act) then 1 else 0))%nat.
Proof.
  intros H. destruct act as [text | | | [result | message]]; simpl;
    destruct (isRunning c) eqn:E; simpl; rewrite ?E; try lia.
  unfold runCode_begin. destruct (Text.falsy _); simpl; rewrite ?E, ?length_app; simpl; lia.
Qed.

Lemma steps_invariant (actions : list Action) (c : Component) (answers : nat) :
  numbered c →
  Forall (λ sent, trim sent ≠ "") (requests c) →
  (length (requests c) ≤ answers + (if isRunning c then 1 else 0))%nat →
  let c' := foldl step c actions in
  numbered c' ∧
  Forall (λ sent, trim sent ≠ "") (requests c') ∧
  (length (requests c') ≤
     answers + length (filter is_answer actions) + (if isRunning c' then 1 else 0))%nat.
Proof.
  revert c answers. induction actions as [|act actions IH]; intros c answers Hn Hr Hp.
  - simpl. split_and!; [done | done | lia].
  - simpl foldl.
    destruct (IH (step c act) (if decide (is_answer act) then S answers else answers))
      as (Hn' & Hr' & Hp');
      [by apply numbered_step | by apply requests_step | by apply pending_step |].
    split_and!; [done | done |].
    rewrite filter_cons. destruct (decide (is_answer act)); simpl in *; lia.
Qed.
End ReplFacts.

(** X21. Whatever the user types and clicks and however the calls of
    [runPython] end, the entries of the history are numbered from the number
    of entries down to 1, newest first, so the keys of the list are distinct,
    and [executionCount] is the number of entries plus one.  Code that is
    blank is never sent to [runPython], and a call is sent only after the
    one before it has come back. *)
Theorem history_entries_are_numbered (actions : list Repl.Action) :
  let c := Repl.after actions in
  Repl.index <$> Repl.history c =
    reverse (seqZ 1 (Z.of_nat (length (Repl.history c)))) ∧
  Repl.executionCount c = Z.of_nat (length (Repl.history c)) + 1 ∧
  NoDup (Repl.index <$> Repl.history c) ∧
  Forall (λ sent, trim sent ≠ "") (Repl.requests c) ∧
  (length (Repl.requests c) ≤
     length (filter Repl.is_answer actions) + (if Repl.isRunning c then 1 else 0))%nat.
Proof.
  intros c. subst c. unfold Repl.after.
  destruct (steps_invariant actions Repl.initial 0) as ([Hi Hc] & Hr & Hp);
    [by split | by constructor | simpl; lia |].
  split_and!; [done | done | | done | done].
  rewrite Hi, reverse_Permutation. apply NoDup_seqZ.
Qed.

(** X22. An entry of the history shows the text that is in the text area
    when the call comes back, under the number of the run: when the user
    edits the text while the code runs, the entry shows the edited text, which
    was not run, while the code sent to [runPython] is the text at the click. *)
Theorem history_shows_the_text_at_the_answer (c : Repl.Component)
    (typed : string) (result : option Repl.Reply) :
  Repl.isRunning c = false →
  trim (Repl.code c) ≠ "" →
  let c' := foldl Repl.step c
              [Repl.ClickRun; Repl.Type_ typed; Repl.Comes (Repl.Returned result)] in
  Repl.requests c' = Repl.requests c ++ [Repl.code c] ∧
  ∃ entry,
    Repl.history c' = entry :: Repl.history c ∧
    Repl.input entry = typed ∧
    Repl.index entry = Repl.executionCount c ∧
    Repl.isRunning c' = false.
Proof.
  intros Hidle Hcode c'. subst c'. simpl.
  rewrite Hidle. unfold Repl.runCode_begin.
  destruct (trim (Repl.code c)) as [|x rest] eqn:E; [done |].
  simpl. split; [done |]. eexists. by split_and!.
Qed.

Lemma history_shows_the_text_at_the_answer_witness :
  let c' := foldl Repl.step Repl.initial
              [Repl.ClickRun; Repl.Type_ "print(2)"; Repl.Comes (Repl.Returned None)] in
  Repl.requests c' = Repl.requests Repl.initial ++ [Repl.code Repl.initial] ∧
  ∃ entry,
    Repl.history c' = entry :: Repl.history Repl.initial ∧
    Repl.input entry = "print(2)" ∧
    Repl.index entry = Repl.executionCount Repl.initial ∧
    Repl.isRunning c' = false.
Proof.
  apply (history_shows_the_text_at_the_answer Repl.initial "print(2)" None).
  - reflexivity.
  - by vm_compute.
Defined.

(** ** The bridge of the preload script *)

(** X23. [isLocalSource] is a test on substrings of the origin: it holds
    exactly when the origin starts with "file://" or contains "localhost",
    "127.0.0.1" or "0.0.0.0" anywhere.  So it holds for every origin in which
    "localhost" is only a part of the host name. *)
Theorem isLocalSource_is_a_substring_test (origin : string) :
  (Preload.isLocalSource origin = true ↔
     (∃ rest, origin = "file://" +:+ rest) ∨
     ∃ before after,
       origin = before +:+ "localhost" +:+ after ∨
       origin = before +:+ "127.0.0.1" +:+ after ∨
       origin = before +:+ "0.0.0.0" +:+ after) ∧
  ∀ scheme domain,
    Preload.isLocalSource (scheme +:+ "localhost" +:+ domain) = true.
Proof.
  assert (Hspec : ∀ o, Preload.isLocalSource o = true ↔
     (∃ rest, o = "file://" +:+ rest) ∨
     ∃ before after,
       o = before +:+ "localhost" +:+ after ∨
       o = before +:+ "127.0.0.1" +:+ after ∨
       o = before +:+ "0.0.0.0" +:+ after).
  { intros o. unfold Preload.isLocalSource.
    rewrite !orb_true_iff, startsWith_spec, !includes_spec.
    split.
    - intros [[[H | (a & b & H)] | (a & b & H)] | (a & b & H)];
        [by left | right; exists a, b; eauto ..].
    - intros [H | (a & b & [H | [H | H]])]; eauto 10. }
  split; [apply Hspec |].
  intros scheme domain. apply Hspec. right. exists scheme, domain. by left.
Qed.

(** X24. A method of the bridge ends with "Access restricted" exactly when
    the origin is not local and the method is not one of [send],
    [getPythonStatus], [getPackageStatus] and [getServerUrl], which have no
    guard.  Whatever the origin, [send] and [getServerUrl], and only they,
    invoke a channel for which the main process registers no handler, so they
    can only reject; and no method invokes [server:logs], the one handler that
    reads the log of the server. *)
Theorem bridge_methods_and_handlers (origin : string) (m : Preload.Method) :
  (Preload.call origin m = Preload.Restricted ↔
     Preload.isLocalSource origin = false ∧
     m ∉ [Preload.send; Preload.getPythonStatus; Preload.getPackageStatus;
          Preload.getServerUrl]) ∧
  ((∃ c, Preload.call origin m = Preload.NoHandler c) ↔
     m = Preload.send ∨ m = Preload.getServerUrl) ∧
  Preload.call origin m ≠ Preload.Handled "server:logs" ∧
  "server:logs" ∈ Preload.handled.
Proof.
  unfold Preload.call.
  destruct (Preload.isLocalSource origin); destruct m; simpl;
    (split_and!; [compute_done | | done | compute_done]);
    try (split; [by intros [? ?] | by intros [? | ?]]);
    (split; [intros _; by auto | intros _; by eexists]).
Qed.
